(** * Witness complex construction (Gudhi, [Witness_complex.h])

    A shallow embedding of [Gudhi::witness_complex::Witness_complex]:
    [create_complex], [add_all_faces_of_dimension] and [all_faces_in],
    together with the properties of the construction.

    Conventions of the embedding.
    - [FT] (the kernel's number type, [double] in practice) is modelled by
      exact integers [Z]: the code only subtracts and compares distances, and
      rounding is not modelled.  The only non-finite value the code
      manipulates is the initial [norelax_dist2 = +infinity], modelled by the
      type [double] below.
    - [Landmark_id] is the signed index type of the nearest-neighbour search
      (it can be compared with [0], see the test [limit_dimension < 0]);
      it is modelled by [Z].  The number of landmarks is assumed to fit the
      [unsigned] counter of the seeding loop.
    - A witness is represented by the answer of the nearest-landmark oracle
      for it: the finite list of (landmark id, squared distance) pairs in the
      order the oracle enumerates them.
    - The vector [simplex], passed by reference and restored by
      [push_back]/[pop_back], is threaded by value. *)

From Stdlib Require Import ZArith Lia.
From stdpp Require Import base option list sets gmap sorting.

Local Open Scope Z_scope.
#[local] Set Warnings "-clear-no-such-hyp".

(** ** Types of the source *)

Abbreviation Landmark_id := Z (only parsing).
Abbreviation Vertex_handle := Z (only parsing).
Abbreviation FT := Z (only parsing).
Abbreviation Filtration_value := Z (only parsing).
Abbreviation Id_distance_pair := (Z * Z)%type (only parsing).
Abbreviation typeVectorVertex := (list Z) (only parsing).

(** The values taken by the variable [norelax_dist2]: a finite distance or
    [std::numeric_limits<double>::infinity()]. *)
Inductive double : Type :=
| Finite (x : Z)
| infinity.

(** [x <= y] and [x < y] for a finite [x] and a possibly infinite [y]. *)
Definition le_double (x : FT) (y : double) : bool :=
  match y with
  | Finite n => x <=? n
  | infinity => true
  end.

Definition lt_double (x : FT) (y : double) : bool :=
  match y with
  | Finite n => x <? n
  | infinity => true
  end.


(** ** The target simplicial complex *)

(** Modelled from the spec: the target simplicial complex (the concept
    [SimplicialComplexForWitness]; the container itself is an external
    collaborator).  It stores simplices with filtration values; a vertex list
    is treated as a set for comparison purposes; [find] returns a handle or
    the null handle; re-insertion of an existing simplex is a no-op;
    [set_dimension] records the declared dimension. *)
Record Simplex_map : Type := Build_Simplex_map {
  simplices : gmap (gset Z) Z;
  dimension_ : Z
}.

(** A handle designates a stored simplex and gives access to its filtration
    value; the null handle [null_simplex()] is [None]. *)
Abbreviation Simplex_handle := (gset Z * Z)%type (only parsing).

(** The complex without simplices. *)
Definition empty_complex : Simplex_map :=
  {| simplices := ∅; dimension_ := -1 |}.

(** Modelled from the spec: [num_vertices() → count], the number of stored
    simplices with exactly one vertex. *)
Definition num_vertices (sc : Simplex_map) : nat :=
  size (filter (λ K : gset Z, size K = 1%nat) (dom (simplices sc))).

(** Modelled from the spec: [find(vertex_list) → handle or null_handle], the
    vertex list being compared as a set. *)
Definition find (sc : Simplex_map) (vs : typeVectorVertex) : option Simplex_handle :=
  (λ fv, (list_to_set vs, fv)) <$> simplices sc !! (list_to_set vs : gset Z).

(** Modelled from the spec: [filtration(handle) → value]. *)
Definition filtration (sh : Simplex_handle) : Filtration_value := sh.2.

(** Modelled from the spec: [insert_simplex(vertex_list, filtration_value)];
    insertions are append-only and re-insertion of an existing simplex is a
    no-op, so the value stored first stays. *)
Definition insert_simplex (sc : Simplex_map) (vs : typeVectorVertex)
    (fv : Filtration_value) : Simplex_map :=
  match simplices sc !! (list_to_set vs : gset Z) with
  | Some _ => sc
  | None => {| simplices := <[list_to_set vs := fv]> (simplices sc);
               dimension_ := dimension_ sc |}
  end.

(** Modelled from the spec: [set_dimension(k)]. *)
Definition set_dimension (sc : Simplex_map) (k : Z) : Simplex_map :=
  {| simplices := simplices sc; dimension_ := k |}.

(** ** Active witnesses *)

(** Modelled from the spec: [Active_witness] presents a witness's
    nearest-landmark ranking as a sequence that can be scanned repeatedly and
    is extended lazily; the cache only avoids re-querying the oracle, so the
    witness is the finite ranking itself.  [aw_id] is the position of the
    witness in [witnesses_]; it only names the witness in the trace. *)
Record ActiveWitness : Type := Build_ActiveWitness {
  aw_id : nat;
  nearest_landmark_table_ : list Id_distance_pair
}.

(** The object [Witness_complex]: the number of landmarks and, for every
    witness, the ranking [landmark_tree_.query_incremental_nearest_neighbors(w)]. *)
Record Witness_complex : Type := Build_Witness_complex {
  nbL : nat;
  witnesses_ : list (list Id_distance_pair)
}.

(** ** Trace of operations

    Next to the source's results, every function returns the list of the
    operations it performed, in order.  [Insert] and [Seed] carry the complex
    as it is just before the call; [Insert] also carries the squared distance
    of the vertex pushed last and the threshold [norelax_dist2] in force. *)
Inductive event : Type :=
| Seed (sc : Simplex_map) (vv : typeVectorVertex) (fv : Filtration_value)
    (* line 142: complex.insert_simplex(vv, 0.0) *)
| Push (dim : Z) (simplex : typeVectorVertex) (l : Id_distance_pair)
       (alpha2 : FT) (norelax_dist2 : double)
    (* lines 195 and 222: simplex.push_back(l_it->first), loop condition passed *)
| Find (vs : typeVectorVertex)
    (* lines 196 and 258: sc.find(vs) *)
| Insert (sc : Simplex_map) (simplex : typeVectorVertex) (d : FT)
         (norelax_dist2 : double) (fv : Filtration_value)
    (* line 229: sc.insert_simplex(simplex, filtration_value) *)
| Witness (w : nat) (k : Z) (ok : bool)
    (* line 153: add_all_faces_of_dimension(k, ...) returned ok for witness w *)
| Set_dimension (k : Z).
    (* line 168: complex.set_dimension(k-1) *)

Abbreviation trace := (list event) (only parsing).

(** ** [all_faces_in] *)

(** The outer loop of [all_faces_in]: [not_its] are the positions still to be
    left out.  The result is the returned boolean and the final content of
    [*filtration_value]. *)
Fixpoint all_faces_in_loop (simplex : typeVectorVertex) (not_its : list nat)
    (filtration_value : Filtration_value) (sc : Simplex_map)
    : bool * Filtration_value * trace :=
  match not_its with
  | [] => (true, filtration_value, [])
  | not_it :: rest =>
      let facet := delete not_it simplex in
      match find sc facet with
      | None => (false, filtration_value, [Find facet])
      | Some facet_sh =>
          let filtration_value' :=
            if filtration_value <? filtration facet_sh
            then filtration facet_sh else filtration_value in
          let '(b, fv, t) := all_faces_in_loop simplex rest filtration_value' sc in
          (b, fv, Find facet :: t)
      end
  end.

Definition all_faces_in (simplex : typeVectorVertex)
    (filtration_value : Filtration_value) (sc : Simplex_map)
    : bool * Filtration_value * trace :=
  all_faces_in_loop simplex (seq 0 (length simplex)) filtration_value sc.

(** ** [add_all_faces_of_dimension] *)

(** [double filtration_value = 0;
     if (l_it->second > norelax_dist2)
       filtration_value = l_it->second - norelax_dist2;] *)
Definition excess (d : FT) (norelax_dist2 : double) : Filtration_value :=
  match norelax_dist2 with
  | Finite n => if n <? d then d - n else 0
  | infinity => 0
  end.

(** The [for] loops of [add_all_faces_of_dimension], started at [l_it] with
    the current value of [will_be_active].  An iterator is the list of the
    entries from its position to [end]; [end] is the empty list.  The loop
    condition reads [l_it->second] before it tests [l_it != end]; at [end]
    the conjunction is false whatever was read, which is the first case.  A
    recursive call of [add_all_faces_of_dimension] at [++next_it] is the loop
    of the callee started with [will_be_active = false] (see
    [add_all_faces_of_dimension]; [for_loop_eq_positive] and
    [for_loop_eq_zero] state one iteration with the calls of the source). *)
Fixpoint for_loop (dim : Z) (alpha2 : FT) (norelax_dist2 : double)
    (l_it : list Id_distance_pair) (simplex : typeVectorVertex)
    (sc : Simplex_map) (will_be_active : bool) {struct l_it}
    : bool * Simplex_map * trace :=
  match l_it with
  | [] => (will_be_active, sc, [])
  | l :: next_it =>
      if 0 <? dim then
        if le_double (l.2 - alpha2) norelax_dist2 then
          let simplex' := simplex ++ [l.1] in
          let '(r1, sc1, t1) :=
            match find sc simplex' with
            | Some _ =>
                for_loop (dim - 1) alpha2 norelax_dist2 next_it simplex' sc false
            | None => (false, sc, [])
            end in
          let will_be_active1 := r1 || will_be_active in
          let norelax_dist2' :=
            if le_double l.2 norelax_dist2 then Finite l.2 else norelax_dist2 in
          let '(r2, sc2, t2) :=
            for_loop dim alpha2 norelax_dist2' next_it simplex sc1 false in
          let will_be_active2 := r2 || will_be_active1 in
          let '(r3, sc3, t3) :=
            for_loop dim alpha2 norelax_dist2' next_it simplex sc2 will_be_active2 in
          (r3, sc3,
           Push dim simplex l alpha2 norelax_dist2 :: Find simplex' :: t1 ++ t2 ++ t3)
        else (will_be_active, sc, [])
      else if dim =? 0 then
        if le_double (l.2 - alpha2) norelax_dist2 then
          let simplex' := simplex ++ [l.1] in
          let filtration_value := excess l.2 norelax_dist2 in
          let '(b, filtration_value', t1) := all_faces_in simplex' filtration_value sc in
          let will_be_active1 := if b then true else will_be_active in
          let sc1 := if b then insert_simplex sc simplex' filtration_value' else sc in
          let t1' :=
            if b then t1 ++ [Insert sc simplex' l.2 norelax_dist2 filtration_value']
            else t1 in
          let norelax_dist2' :=
            if lt_double l.2 norelax_dist2 then Finite l.2 else norelax_dist2 in
          let '(r3, sc3, t3) :=
            for_loop dim alpha2 norelax_dist2' next_it simplex sc1 will_be_active1 in
          (r3, sc3, Push dim simplex l alpha2 norelax_dist2 :: t1' ++ t3)
        else (will_be_active, sc, [])
      else (will_be_active, sc, [])
  end.

Definition add_all_faces_of_dimension (dim : Z) (alpha2 : FT)
    (norelax_dist2 : double) (curr_l : list Id_distance_pair)
    (simplex : typeVectorVertex) (sc : Simplex_map)
    : bool * Simplex_map * trace :=
  match curr_l with
  | [] => (false, sc, [])
  | _ => for_loop dim alpha2 norelax_dist2 curr_l simplex sc false
  end.

(** ** [create_complex] *)

(** Lines 138-143: the initial fill of 0-dimensional simplices, for
    [i = i0, ..., i0 + n - 1]. *)
Fixpoint seed_loop (n : nat) (i : Z) (sc : Simplex_map) : Simplex_map * trace :=
  match n with
  | O => (sc, [])
  | S n' =>
      let vv := [i] in
      let '(sc', t) := seed_loop n' (i + 1) (insert_simplex sc vv 0) in
      (sc', Seed sc vv 0 :: t)
  end.

(** Lines 152-165: one pass over the active witnesses at dimension [k].  The
    witnesses whose call returns [false] are erased from the list. *)
Fixpoint witness_loop (k : Z) (max_alpha_square : FT)
    (active_witnesses : list ActiveWitness) (sc : Simplex_map)
    : list ActiveWitness * Simplex_map * trace :=
  match active_witnesses with
  | [] => ([], sc, [])
  | aw :: rest =>
      let '(ok, sc1, t1) :=
        add_all_faces_of_dimension k max_alpha_square infinity
          (nearest_landmark_table_ aw) [] sc in
      let '(rest', sc2, t2) := witness_loop k max_alpha_square rest sc1 in
      (if ok then aw :: rest' else rest', sc2, t1 ++ Witness (aw_id aw) k ok :: t2)
  end.

(** Lines 148-167: the loop over the dimensions.  [n] bounds the number of
    iterations left; [create_complex] starts the loop with the number of
    values [k] can take up to [limit_dimension], which the loop cannot
    exceed (lemma [dimension_loop_exit]).  The result is the final [k], the
    remaining active witnesses and the complex. *)
Fixpoint dimension_loop (n : nat) (k limit_dimension : Z) (max_alpha_square : FT)
    (active_witnesses : list ActiveWitness) (sc : Simplex_map)
    : Z * list ActiveWitness * Simplex_map * trace :=
  match n with
  | O => (k, active_witnesses, sc, [])
  | S n' =>
      match active_witnesses with
      | [] => (k, active_witnesses, sc, [])
      | _ :: _ =>
          if k <=? limit_dimension then
            let '(active_witnesses', sc', t) :=
              witness_loop k max_alpha_square active_witnesses sc in
            let '(k', aws, sc'', t') :=
              dimension_loop n' (k + 1) limit_dimension max_alpha_square
                active_witnesses' sc' in
            (k', aws, sc'', t ++ t')
          else (k, active_witnesses, sc, [])
      end
  end.

(** Lines 145-146: one active witness per witness, in order. *)
Definition make_active_witnesses (ws : list (list Id_distance_pair)) : list ActiveWitness :=
  imap (λ i w, {| aw_id := i; nearest_landmark_table_ := w |}) ws.

(** The result of a call that returns. *)
Record run : Type := Build_run {
  returned : bool;
  complex : Simplex_map;
  calls : list event
}.

(** [create_complex].  [None] is the call whose behaviour the source leaves
    undefined: [active_witnesses.front()] on an empty list (line 147). *)
Definition create_complex (wc : Witness_complex) (sc : Simplex_map)
    (max_alpha_square : FT) (limit_dimension : Landmark_id) : option run :=
  if decide (0 < num_vertices sc)%nat then
    Some {| returned := false; complex := sc; calls := [] |}
  else if max_alpha_square <? 0 then
    Some {| returned := false; complex := sc; calls := [] |}
  else if limit_dimension <? 0 then
    Some {| returned := false; complex := sc; calls := [] |}
  else
    let '(sc1, t1) := seed_loop (nbL wc) 0 sc in
    let k := 1 in
    let active_witnesses := make_active_witnesses (witnesses_ wc) in
    match head active_witnesses with
    | None => None
    | Some aw_copy =>
        let '(k', _, sc2, t2) :=
          dimension_loop (Z.to_nat limit_dimension) k limit_dimension
            max_alpha_square active_witnesses sc1 in
        Some {| returned := true;
                complex := set_dimension sc2 (k' - 1);
                calls := t1 ++ t2 ++ [Set_dimension (k' - 1)] |}
    end.

(** ** Concrete inputs *)

(** Landmarks [(0,0)], [(1,2)], [(1,-2)] and witnesses [(0,1)], [(0,-1)] in
    the plane: the first witness is at squared distances 1, 2, 10 of the
    landmarks 0, 1, 2, the second at squared distances 1, 10, 2. *)
Definition demo_wc : Witness_complex :=
  {| nbL := 3; witnesses_ := [[(0, 1); (1, 2); (2, 10)]; [(0, 1); (2, 2); (1, 10)]] |}.

(** A single landmark and one witness at squared distance 4. *)
Definition single_landmark_wc : Witness_complex :=
  {| nbL := 1; witnesses_ := [[(0, 4)]] |}.

(** Two landmarks; the witness sits on landmark 1, at squared distance 1 of
    landmark 0. *)
Definition reversed_wc : Witness_complex :=
  {| nbL := 2; witnesses_ := [[(1, 0); (0, 1)]] |}.

(** A complex that already holds the vertex [{0}]. *)
Definition populated_complex : Simplex_map := insert_simplex empty_complex [0] 0.

(** The filtration value of the simplex [vs] after a run, if it is stored. *)
Definition lookup_simplex (o : option run) (vs : list Z) : option Z :=
  r ← o; simplices (complex r) !! (list_to_set vs : gset Z).

(** ** The loop as a derivation

    [for_loop_run] has one rule per path through one iteration of the loops
    of [add_all_faces_of_dimension]; [for_loop_run_complete] shows that
    [for_loop] follows these rules, so that properties of the loop are proved
    by induction on the derivation. *)

(** [if (l_it->second <= norelax_dist2) norelax_dist2 = l_it->second;]
    (line 209) and its strict variant (line 234). *)
Definition tighten_le (d : FT) (norelax_dist2 : double) : double :=
  if le_double d norelax_dist2 then Finite d else norelax_dist2.

Definition tighten_lt (d : FT) (norelax_dist2 : double) : double :=
  if lt_double d norelax_dist2 then Finite d else norelax_dist2.

Inductive for_loop_run (alpha2 : FT) :
  Z → double → list Id_distance_pair → typeVectorVertex → Simplex_map → bool →
  bool * Simplex_map * trace → Prop :=
| run_end dim nr simplex sc wba :
    for_loop_run alpha2 dim nr [] simplex sc wba (wba, sc, [])
| run_negative dim nr l next_it simplex sc wba :
    dim < 0 →
    for_loop_run alpha2 dim nr (l :: next_it) simplex sc wba (wba, sc, [])
| run_stop dim nr l next_it simplex sc wba :
    0 <= dim →
    le_double (l.2 - alpha2) nr = false →
    for_loop_run alpha2 dim nr (l :: next_it) simplex sc wba (wba, sc, [])
| run_found dim nr l next_it simplex sc wba sh r1 sc1 t1 r2 sc2 t2 r3 sc3 t3 :
    0 < dim →
    le_double (l.2 - alpha2) nr = true →
    find sc (simplex ++ [l.1]) = Some sh →
    for_loop_run alpha2 (dim - 1) nr next_it (simplex ++ [l.1]) sc false (r1, sc1, t1) →
    for_loop_run alpha2 dim (tighten_le l.2 nr) next_it simplex sc1 false (r2, sc2, t2) →
    for_loop_run alpha2 dim (tighten_le l.2 nr) next_it simplex sc2 (r2 || (r1 || wba))
      (r3, sc3, t3) →
    for_loop_run alpha2 dim nr (l :: next_it) simplex sc wba
      (r3, sc3, Push dim simplex l alpha2 nr :: Find (simplex ++ [l.1]) :: t1 ++ t2 ++ t3)
| run_absent dim nr l next_it simplex sc wba r2 sc2 t2 r3 sc3 t3 :
    0 < dim →
    le_double (l.2 - alpha2) nr = true →
    find sc (simplex ++ [l.1]) = None →
    for_loop_run alpha2 dim (tighten_le l.2 nr) next_it simplex sc false (r2, sc2, t2) →
    for_loop_run alpha2 dim (tighten_le l.2 nr) next_it simplex sc2 (r2 || (false || wba))
      (r3, sc3, t3) →
    for_loop_run alpha2 dim nr (l :: next_it) simplex sc wba
      (r3, sc3, Push dim simplex l alpha2 nr :: Find (simplex ++ [l.1]) :: [] ++ t2 ++ t3)
| run_insert nr l next_it simplex sc wba fv t1 r3 sc3 t3 :
    le_double (l.2 - alpha2) nr = true →
    all_faces_in (simplex ++ [l.1]) (excess l.2 nr) sc = (true, fv, t1) →
    for_loop_run alpha2 0 (tighten_lt l.2 nr) next_it simplex
      (insert_simplex sc (simplex ++ [l.1]) fv) true (r3, sc3, t3) →
    for_loop_run alpha2 0 nr (l :: next_it) simplex sc wba
      (r3, sc3,
       Push 0 simplex l alpha2 nr
         :: (t1 ++ [Insert sc (simplex ++ [l.1]) l.2 nr fv]) ++ t3)
| run_reject nr l next_it simplex sc wba fv t1 r3 sc3 t3 :
    le_double (l.2 - alpha2) nr = true →
    all_faces_in (simplex ++ [l.1]) (excess l.2 nr) sc = (false, fv, t1) →
    for_loop_run alpha2 0 (tighten_lt l.2 nr) next_it simplex sc wba (r3, sc3, t3) →
    for_loop_run alpha2 0 nr (l :: next_it) simplex sc wba
      (r3, sc3, Push 0 simplex l alpha2 nr :: t1 ++ t3).

(** ** Properties of a complex *)

(** The simplex with vertex set [K] is stored. *)
Definition present (sc : Simplex_map) (K : gset Z) : Prop :=
  is_Some (simplices sc !! K).

(** Every facet (one vertex removed) of a stored simplex with at least two
    vertices is stored. *)
Definition facet_closed (sc : Simplex_map) : Prop :=
  ∀ (K : gset Z) v, present sc K → v ∈ K → (2 ≤ size K)%nat → present sc (K ∖ {[v]}).

(** A stored facet has a filtration value at most that of the simplex. *)
Definition facet_monotone (sc : Simplex_map) : Prop :=
  ∀ (K : gset Z) v fK fF,
    simplices sc !! K = Some fK → v ∈ K →
    simplices sc !! (K ∖ {[v]}) = Some fF → fF <= fK.

(** A well-formed filtered complex: no empty simplex, facets are stored and
    have smaller or equal filtration values. *)
Record well_formed (sc : Simplex_map) : Prop := Build_well_formed {
  wf_nonempty : simplices sc !! (∅ : gset Z) = None;
  wf_closed : facet_closed sc;
  wf_monotone : facet_monotone sc
}.

(** Downward closure: every (non-empty) face of a stored simplex is stored. *)
Definition downward_closed (sc : Simplex_map) : Prop :=
  ∀ K F : gset Z, present sc K → F ⊆ K → F ≠ ∅ → present sc F.

(** Filtration monotonicity: every face of a stored simplex is stored with a
    filtration value that is not larger. *)
Definition filtration_monotone (sc : Simplex_map) : Prop :=
  ∀ (K F : gset Z) fK,
    simplices sc !! K = Some fK → F ⊆ K → F ≠ ∅ →
    ∃ fF, simplices sc !! F = Some fF ∧ fF <= fK.

(** The filtration values of the facets of [vs] found in [sc], in the order
    [all_faces_in] looks them up. *)
Definition facet_filtrations (sc : Simplex_map) (vs : typeVectorVertex) : list Z :=
  omap (λ i, filtration <$> find sc (delete i vs)) (seq 0 (length vs)).

(** ** Predicates on events *)

(** The event is an [insert_simplex] call of line 229. *)
Definition is_insert (e : event) : bool :=
  match e with Insert _ _ _ _ _ => true | _ => false end.

(** The event is an [insert_simplex] call of line 142. *)
Definition is_seed (e : event) : bool :=
  match e with Seed _ _ _ => true | _ => false end.

(** The vertex list an operation passes to the complex, if any. *)
Definition vertex_list (e : event) : option typeVectorVertex :=
  match e with
  | Seed _ vv _ => Some vv
  | Find vs => Some vs
  | Insert _ vs _ _ _ => Some vs
  | _ => None
  end.

(** C1: at an [insert_simplex] call of line 229, every facet of the simplex
    is found in the complex as it is then. *)
Definition facets_present (e : event) : Prop :=
  match e with
  | Insert sc vs _ _ _ =>
      ∀ i, (i < length vs)%nat → is_Some (find sc (delete i vs))
  | _ => True
  end.

(** An [insert_simplex] call of line 229 passes at least two vertices. *)
Definition proper_insert (e : event) : Prop :=
  match e with
  | Insert _ vs _ _ _ => (2 ≤ length vs)%nat
  | _ => True
  end.

(** The excess distance of a vertex at squared distance [d] beyond the
    threshold: [max(0, d - norelax_dist2)], which is [0] for an infinite
    threshold. *)
Definition excess_distance (d : FT) (norelax_dist2 : double) : Filtration_value :=
  match norelax_dist2 with
  | Finite n => Z.max 0 (d - n)
  | infinity => 0
  end.

(** C2: the value passed at line 229 is the maximum of the excess distance
    and of the filtration values of the facets ([foldl Z.max x l] is the
    greatest element of [x :: l], see [foldl_max_greatest]). *)
Definition insert_value (e : event) : Prop :=
  match e with
  | Insert sc vs d nr fv =>
      fv = foldl Z.max (excess_distance d nr) (facet_filtrations sc vs)
  | _ => True
  end.

(** C5: a candidate is pushed only under the loop condition. *)
Definition push_within_bound (e : event) : Prop :=
  match e with
  | Push _ _ l alpha2 nr => le_double (l.2 - alpha2) nr = true
  | _ => True
  end.

(** Splits a [Forall] goal over a trace built with [::] and [++]. *)
Ltac split_Forall :=
  repeat first
    [ apply Forall_nil_2
    | apply Forall_cons_2
    | apply Forall_app_2 ].

(** The vertex lists inserted by the loop started at dimension [dim] with the
    prefix [simplex] have [dim + 1] more entries than the prefix. *)
Definition insert_length (n : nat) (e : event) : Prop :=
  match e with
  | Insert _ vs _ _ _ => length vs = n
  | _ => True
  end.

(** Every vertex list passed to the complex is the prefix followed by
    landmark ids taken, in order, from the entries the iterator ranges over,
    or such a list with one entry left out. *)
Definition from_ranking (ids : list Z) (e : event) : Prop :=
  match vertex_list e with
  | Some vs => vs `sublist_of` ids
  | None => True
  end.

(** The calls made by the seeding loop, without the complex they carry. *)
Definition seeds (t : list event) : list (list Z * Z) :=
  omap (λ e, match e with Seed _ vv fv => Some (vv, fv) | _ => None end) t.

(** The events of [add_all_faces_of_dimension] are pushes, look-ups and
    insertions of line 229. *)
Definition is_loop_event (e : event) : bool :=
  match e with
  | Push _ _ _ _ _ | Find _ | Insert _ _ _ _ _ => true
  | _ => false
  end.

(** ** Parts of [create_complex] *)

(** The three checks of lines 124-135 pass. *)
Definition preconditions (sc : Simplex_map) (max_alpha_square : FT)
    (limit_dimension : Landmark_id) : Prop :=
  num_vertices sc = 0%nat ∧ 0 <= max_alpha_square ∧ 0 <= limit_dimension.

(** The result of the loop over the dimensions in [create_complex]. *)
Definition main_loop (wc : Witness_complex) (sc : Simplex_map)
    (max_alpha_square : FT) (limit_dimension : Landmark_id)
    : Z * list ActiveWitness * Simplex_map * list event :=
  dimension_loop (Z.to_nat limit_dimension) 1 limit_dimension max_alpha_square
    (make_active_witnesses (witnesses_ wc)) (seed_loop (nbL wc) 0 sc).1.

(** The candidates pushed, in the order of the trace. *)
Definition pushed (t : list event) : list Id_distance_pair :=
  omap (λ e, match e with Push _ _ l _ _ => Some l | _ => None end) t.

(** ** Witness deactivation *)




(** ** The declared dimension *)

(** Every stored simplex has at most [N] vertices. *)
Definition bounded_size (N : nat) (sc : Simplex_map) : Prop :=
  ∀ K : gset Z, present sc K → (size K ≤ N)%nat.

(** The simplex inserted by an operation of line 229 is stored in [sc]. *)
Definition stored (sc : Simplex_map) (e : event) : Prop :=
  match e with
  | Insert _ vs _ _ _ => present sc (list_to_set vs)
  | _ => True
  end.

(** The highest dimension of a stored simplex ([-1] for an empty complex). *)
Definition highest_dimension (sc : Simplex_map) : Z :=
  foldr Z.max (-1)
    ((λ K : gset Z, Z.of_nat (size K) - 1) <$> elements (dom (simplices sc))).

(** ** Order of the vertices in the lists passed to the complex *)

(** Adjacent entries are strictly increasing. *)
Fixpoint increasing_ids (vs : list Z) : bool :=
  match vs with
  | x :: (y :: _) as vs' => (x <? y) && increasing_ids vs'
  | _ => true
  end.

(** C8 as stated: the vertex list of the operation has strictly increasing
    landmark ids. *)
Definition canonical (e : event) : Prop :=
  match vertex_list e with
  | Some vs => increasing_ids vs = true
  | None => True
  end.

(** [canonical] as a boolean. *)
Definition canonicalb (e : event) : bool :=
  match vertex_list e with
  | Some vs => increasing_ids vs
  | None => true
  end.

(** The vertex list of the operation is a seed [{i}], or is made of landmark
    ids taken from the ranking of one witness, in the order of the ranking. *)
Definition in_ranking_order (wc : Witness_complex) (e : event) : Prop :=
  match vertex_list e with
  | Some vs =>
      (∃ i, vs = [i]) ∨
      ∃ w, w ∈ witnesses_ wc ∧ vs `sublist_of` w.*1
  | None => True
  end.

(** The vertex list of the operation has pairwise distinct ids. *)
Definition distinct_ids (e : event) : Prop :=
  match vertex_list e with
  | Some vs => NoDup vs
  | None => True
  end.

(** ** Relaxation *)

(** Every simplex of the first complex is a simplex of the second. *)
Definition contained (sa sb : Simplex_map) : Prop :=
  ∀ K : gset Z, present sa K → present sb K.

(** ** Predicates of the further properties *)

(** Every stored filtration value lies between [0] and [hi]. *)
Definition values_within (hi : Z) (sc : Simplex_map) : Prop :=
  ∀ (K : gset Z) fv, simplices sc !! K = Some fv → 0 <= fv <= hi.

(** The value passed by an [insert_simplex] call lies between [0] and [hi]. *)
Definition insert_within (hi : Z) (e : event) : Prop :=
  match e with
  | Insert _ _ _ _ fv | Seed _ _ fv => 0 <= fv <= hi
  | _ => True
  end.



(** The simplex inserted at line 229 is made of the nearest landmarks of a
    witness (an initial segment of its ranking) and gets the value 0. *)
Definition nearest_landmarks (wc : Witness_complex) (e : event) : Prop :=
  match e with
  | Insert _ vs _ _ fv =>
      fv = 0 ∧ ∃ w, w ∈ witnesses_ wc ∧ vs = take (length vs) w.*1
  | _ => True
  end.

(** The squared distances of a ranking are strictly increasing. *)
Definition strictly_ascending (w : list Id_distance_pair) : Prop :=
  StronglySorted Z.lt w.*2.

(** Every vertex of every stored simplex is an id in [0, N). *)
Definition vertices_below (N : nat) (sc : Simplex_map) : Prop :=
  ∀ (K : gset Z) v, present sc K → v ∈ K → 0 <= v < Z.of_nat N.

(** The vertex list of an [insert_simplex] call of line 229 is [vs0]. *)
Definition inserts_list (vs0 : typeVectorVertex) (e : event) : Prop :=
  match e with
  | Insert _ vs _ _ _ => vs = vs0
  | _ => True
  end.

(** The filtration values of the facets of [vs] at the positions [its]. *)
Definition facet_values (sc : Simplex_map) (vs : typeVectorVertex) (its : list nat)
    : list Z :=
  omap (λ i, filtration <$> find sc (delete i vs)) its.

(** The look-ups of the first [n] facets of [vs], in the order of the
    positions left out. *)
Definition facets_tried (vs : typeVectorVertex) (n : nat) : list event :=
  (λ i, Find (delete i vs)) <$> seq 0 n.

(** Every non-empty list of at most [n] landmark ids taken in order from the
    ranking [w] is a simplex of [sc]. *)
Definition ranked_faces (n : Z) (w : list Id_distance_pair) (sc : Simplex_map) : Prop :=
  ∀ u : list Z, u `sublist_of` w.*1 → u ≠ [] → Z.of_nat (length u) <= n →
    present sc (list_to_set u).

(** No two squared distances of the ranking differ by more than [alpha2]. *)
Definition within_relaxation (alpha2 : FT) (w : list Id_distance_pair) : Prop :=
  ∀ p q, p ∈ w → q ∈ w → p.2 - q.2 <= alpha2.

(** The ranking names landmark ids in [0, N) only. *)
Definition names_landmarks (N : nat) (w : list Id_distance_pair) : Prop :=
  ∀ p, p ∈ w → 0 <= p.1 < Z.of_nat N.

(** * Properties *)

(** ** The loop follows its derivation rules *)

Lemma for_loop_run_complete alpha2 l_it :
  ∀ dim nr simplex sc wba,
    for_loop_run alpha2 dim nr l_it simplex sc wba
      (for_loop dim alpha2 nr l_it simplex sc wba).
Proof.
  induction l_it as [|l next_it IH]; intros dim nr simplex sc wba; simpl.
  - constructor.
  - destruct (0 <? dim) eqn:Hpos.
    + apply Z.ltb_lt in Hpos.
      destruct (le_double (l.2 - alpha2) nr) eqn:Hcond;
        [|apply run_stop; [lia|done]].
      destruct (find sc (simplex ++ [l.1])) as [sh|] eqn:Hfind.
      * pose proof (IH (dim - 1) nr (simplex ++ [l.1]) sc false) as H1.
        destruct (for_loop (dim - 1) alpha2 nr next_it (simplex ++ [l.1]) sc false)
          as [[r1 sc1] t1].
        pose proof (IH dim (tighten_le l.2 nr) simplex sc1 false) as H2.
        unfold tighten_le in H2 |- *.
        destruct (for_loop dim alpha2 _ next_it simplex sc1 false) as [[r2 sc2] t2].
        pose proof (IH dim (tighten_le l.2 nr) simplex sc2 (r2 || (r1 || wba))) as H3.
        unfold tighten_le in H3 |- *.
        destruct (for_loop dim alpha2 _ next_it simplex sc2 _) as [[r3 sc3] t3].
        eapply run_found; eauto.
      * pose proof (IH dim (tighten_le l.2 nr) simplex sc false) as H2.
        unfold tighten_le in H2 |- *.
        destruct (for_loop dim alpha2 _ next_it simplex sc false) as [[r2 sc2] t2].
        pose proof (IH dim (tighten_le l.2 nr) simplex sc2 (r2 || (false || wba))) as H3.
        unfold tighten_le in H3 |- *.
        destruct (for_loop dim alpha2 _ next_it simplex sc2 _) as [[r3 sc3] t3].
        eapply run_absent; eauto.
    + apply Z.ltb_ge in Hpos.
      destruct (dim =? 0) eqn:Hzero.
      * apply Z.eqb_eq in Hzero; subst dim.
        destruct (le_double (l.2 - alpha2) nr) eqn:Hcond;
          [|apply run_stop; [lia|done]].
        destruct (all_faces_in (simplex ++ [l.1]) (excess l.2 nr) sc)
          as [[b fv] t1] eqn:Hfaces.
        destruct b.
        -- pose proof (IH 0 (tighten_lt l.2 nr) simplex
                         (insert_simplex sc (simplex ++ [l.1]) fv) true) as H3.
           unfold tighten_lt in H3 |- *.
           destruct (for_loop 0 alpha2 _ next_it simplex _ true) as [[r3 sc3] t3].
           eapply run_insert; eauto.
        -- pose proof (IH 0 (tighten_lt l.2 nr) simplex sc wba) as H3.
           unfold tighten_lt in H3 |- *.
           destruct (for_loop 0 alpha2 _ next_it simplex sc wba) as [[r3 sc3] t3].
           eapply run_reject; eauto.
      * apply Z.eqb_neq in Hzero. apply run_negative. lia.
Qed.

(** ** Basic facts *)

Lemma excess_max d n : excess d (Finite n) = Z.max 0 (d - n).
Proof. unfold excess. destruct (n <? d) eqn:E; [apply Z.ltb_lt in E|apply Z.ltb_ge in E]; lia. Qed.

Lemma excess_nonneg d nr : 0 <= excess d nr.
Proof. destruct nr; [rewrite excess_max; lia|done]. Qed.

Lemma excess_excess_distance d nr : excess d nr = excess_distance d nr.
Proof. destruct nr; [apply excess_max|done]. Qed.

Lemma find_Some sc vs sh :
  find sc vs = Some sh ↔
  sh.1 = list_to_set vs ∧ simplices sc !! (list_to_set vs : gset Z) = Some sh.2.
Proof.
  unfold find. destruct (simplices sc !! (list_to_set vs : gset Z)) as [fv|]; simpl.
  - split.
    + intros [= <-]; done.
    + intros [H1 [= H2]]. destruct sh; simpl in *; by subst.
  - split; [done|]. intros [_ ?]; done.
Qed.

Lemma find_is_Some sc vs : is_Some (find sc vs) ↔ present sc (list_to_set vs).
Proof.
  unfold find, present. rewrite fmap_is_Some. done.
Qed.

Lemma find_None sc vs :
  find sc vs = None ↔ simplices sc !! (list_to_set vs : gset Z) = None.
Proof. unfold find. rewrite fmap_None. done. Qed.

Lemma insert_simplex_dimension sc vs fv :
  dimension_ (insert_simplex sc vs fv) = dimension_ sc.
Proof. unfold insert_simplex. by destruct (simplices sc !! _). Qed.

Lemma insert_simplex_present sc vs fv fv0 :
  simplices sc !! (list_to_set vs : gset Z) = Some fv0 →
  insert_simplex sc vs fv = sc.
Proof. unfold insert_simplex. by intros ->. Qed.

Lemma insert_simplex_fresh sc vs fv :
  simplices sc !! (list_to_set vs : gset Z) = None →
  simplices (insert_simplex sc vs fv) = <[list_to_set vs := fv]> (simplices sc).
Proof. unfold insert_simplex. by intros ->. Qed.

Lemma insert_simplex_subseteq sc vs fv :
  simplices sc ⊆ simplices (insert_simplex sc vs fv).
Proof.
  destruct (simplices sc !! (list_to_set vs : gset Z)) as [fv0|] eqn:E.
  - by rewrite (insert_simplex_present _ _ _ _ E).
  - rewrite (insert_simplex_fresh _ _ _ E). by apply insert_subseteq.
Qed.

Lemma insert_simplex_lookup sc vs fv :
  is_Some (simplices (insert_simplex sc vs fv) !! (list_to_set vs : gset Z)).
Proof.
  destruct (simplices sc !! (list_to_set vs : gset Z)) as [fv0|] eqn:E.
  - rewrite (insert_simplex_present _ _ _ _ E). by rewrite E.
  - rewrite (insert_simplex_fresh _ _ _ E), lookup_insert_eq. done.
Qed.

Lemma list_to_set_delete (vs : list Z) i v :
  vs !! i = Some v →
  (list_to_set vs : gset Z) = {[v]} ∪ list_to_set (delete i vs).
Proof.
  revert i. induction vs as [|x vs IH]; intros [|i] Hi; simpl in *; try done.
  - by injection Hi as ->.
  - rewrite (IH i Hi). by rewrite !(assoc_L (∪)), (comm_L (∪) {[x]}).
Qed.

Lemma list_to_set_delete_subseteq (vs : list Z) i :
  (list_to_set (delete i vs) : gset Z) ⊆ list_to_set vs.
Proof.
  intros x. rewrite !elem_of_list_to_set. intros Hx.
  eapply elem_of_sublist; [done|apply sublist_delete].
Qed.

Lemma foldl_max_le (l : list Z) x : x <= foldl Z.max x l.
Proof.
  revert x. induction l as [|y l IH]; intros x; simpl; [lia|].
  specialize (IH (Z.max x y)). lia.
Qed.

Lemma foldl_max_ge (l : list Z) x y : y ∈ l → y <= foldl Z.max x l.
Proof.
  revert x. induction l as [|z l IH]; intros x Hy; simpl.
  - by apply elem_of_nil in Hy.
  - apply elem_of_cons in Hy as [->|Hy]; [|by apply IH].
    pose proof (foldl_max_le l (Z.max x z)). lia.
Qed.

Lemma foldl_max_greatest (l : list Z) x :
  foldl Z.max x l ∈ x :: l ∧ Forall (λ y, y <= foldl Z.max x l) (x :: l).
Proof.
  split.
  - revert x. induction l as [|y l IH]; intros x; simpl; [by left|].
    pose proof (IH (Z.max x y)) as Hmax.
    apply elem_of_cons in Hmax as [Heq|Hin].
    + rewrite Heq. destruct (Z.max_spec x y) as [[_ ->]|[_ ->]].
      * right; left.
      * left.
    + by do 2 right.
  - constructor; [apply foldl_max_le|].
    apply Forall_forall. intros y Hy. by apply foldl_max_ge.
Qed.

(** ** [all_faces_in] *)

Lemma all_faces_in_loop_true vs sc not_its :
  ∀ fv fv' t,
    all_faces_in_loop vs not_its fv sc = (true, fv', t) →
    fv' = foldl Z.max fv (omap (λ i, filtration <$> find sc (delete i vs)) not_its) ∧
    Forall (λ i, is_Some (find sc (delete i vs))) not_its.
Proof.
  induction not_its as [|i rest IH]; intros fv fv' t; simpl.
  - intros [= <- <-]. done.
  - destruct (find sc (delete i vs)) as [sh|] eqn:Hfind; [|done].
    destruct (all_faces_in_loop vs rest _ sc) as [[b fv1] t1] eqn:Hrest.
    intros [= -> -> <-]. apply IH in Hrest as [-> Hall]. simpl. split.
    + f_equal. destruct (fv <? filtration sh) eqn:E;
        [apply Z.ltb_lt in E|apply Z.ltb_ge in E]; lia.
    + constructor; [by rewrite Hfind|done].
Qed.

Lemma all_faces_in_loop_false vs sc not_its :
  ∀ fv fv' t,
    all_faces_in_loop vs not_its fv sc = (false, fv', t) →
    Exists (λ i, find sc (delete i vs) = None) not_its.
Proof.
  induction not_its as [|i rest IH]; intros fv fv' t; simpl; [done|].
  destruct (find sc (delete i vs)) as [sh|] eqn:Hfind; [|by left].
  destruct (all_faces_in_loop vs rest _ sc) as [[b fv1] t1] eqn:Hrest.
  intros [= -> -> <-]. right. eauto.
Qed.

Lemma all_faces_in_loop_trace vs sc not_its :
  ∀ fv b fv' t,
    all_faces_in_loop vs not_its fv sc = (b, fv', t) →
    Forall (λ e, ∃ i, e = Find (delete i vs)) t.
Proof.
  induction not_its as [|i rest IH]; intros fv b fv' t; simpl.
  - intros [= <- <- <-]. constructor.
  - destruct (find sc (delete i vs)) as [sh|] eqn:Hfind.
    + destruct (all_faces_in_loop vs rest _ sc) as [[b1 fv1] t1] eqn:Hrest.
      intros [= <- <- <-]. constructor; eauto.
    + intros [= <- <- <-]. repeat constructor. eauto.
Qed.

(** [all_faces_in] accepts exactly when every facet is stored. *)
Lemma all_faces_in_true vs fv sc fv' t :
  all_faces_in vs fv sc = (true, fv', t) →
  fv' = foldl Z.max fv (facet_filtrations sc vs) ∧
  ∀ i, (i < length vs)%nat → is_Some (find sc (delete i vs)).
Proof.
  intros H. apply all_faces_in_loop_true in H as [-> Hall]. split; [done|].
  intros i Hi. rewrite Forall_forall in Hall. apply Hall.
  apply elem_of_seq. lia.
Qed.

Lemma all_faces_in_false vs fv sc fv' t :
  all_faces_in vs fv sc = (false, fv', t) →
  ∃ i, (i < length vs)%nat ∧ find sc (delete i vs) = None.
Proof.
  intros H. apply all_faces_in_loop_false in H.
  apply Exists_exists in H as (i & Hi & Hnone).
  exists i. split; [|done]. apply elem_of_seq in Hi. lia.
Qed.

Lemma all_faces_in_complete vs fv sc :
  (∀ i, (i < length vs)%nat → is_Some (find sc (delete i vs))) →
  ∃ fv' t, all_faces_in vs fv sc = (true, fv', t).
Proof.
  intros Hall. destruct (all_faces_in vs fv sc) as [[[] fv'] t] eqn:E; [eauto|].
  apply all_faces_in_false in E as (i & Hi & Hnone).
  destruct (Hall i Hi) as [sh Hsh]. congruence.
Qed.

(** The value returned on acceptance dominates the value given and the
    filtration value of every facet. *)
Lemma all_faces_in_bounds vs fv sc fv' t :
  all_faces_in vs fv sc = (true, fv', t) →
  fv <= fv' ∧
  ∀ i, (i < length vs)%nat →
    ∃ f, simplices sc !! (list_to_set (delete i vs) : gset Z) = Some f ∧ f <= fv'.
Proof.
  intros H. apply all_faces_in_true in H as [-> Hall]. split.
  - apply foldl_max_le.
  - intros i Hi. destruct (Hall i Hi) as [sh Hsh].
    pose proof Hsh as Hsh'. apply find_Some in Hsh' as [_ Hlook].
    exists sh.2. split; [done|]. apply foldl_max_ge.
    unfold facet_filtrations. apply list_elem_of_omap. exists i. split.
    + apply elem_of_seq. lia.
    + by rewrite Hsh.
Qed.

(** ** Well-formedness is preserved by the insertions of the builder *)

Lemma size_ge_2_of_facet (K' K : gset Z) v :
  v ∈ K' → K' ∖ {[v]} = K → K ≠ ∅ → (2 ≤ size K')%nat.
Proof.
  intros Hv HK Hne.
  assert (v ∉ K) as Hnv.
  { rewrite <- HK. rewrite elem_of_difference, elem_of_singleton. naive_solver. }
  assert (K' = {[v]} ∪ K) as ->.
  { rewrite <- HK. apply set_eq. intros x.
    rewrite elem_of_union, elem_of_difference, elem_of_singleton.
    destruct (decide (x = v)) as [->|]; naive_solver. }
  rewrite size_union.
  - rewrite size_singleton.
    assert (size K ≠ 0%nat) as Hpos.
    { apply size_non_empty_iff. intros Hequiv. apply Hne. by apply leibniz_equiv. }
    lia.
  - intros x. rewrite elem_of_singleton. intros -> ?. done.
Qed.

Lemma size_list_to_set_le (vs : list Z) :
  (size (list_to_set vs : gset Z) ≤ length vs)%nat.
Proof.
  induction vs as [|x vs IH]; simpl.
  - change (size (∅ : gset Z) ≤ 0)%nat. by rewrite size_empty.
  - change (size ({[x]} ∪ list_to_set vs : gset Z) ≤ S (length vs))%nat.
    rewrite size_union_alt, size_singleton.
    pose proof (subseteq_size (list_to_set vs ∖ {[x]} : gset Z) (list_to_set vs)) as Hle.
    assert ((list_to_set vs ∖ {[x]} : gset Z) ⊆ list_to_set vs) as Hsub.
    { intros y. rewrite elem_of_difference. naive_solver. }
    specialize (Hle Hsub). lia.
Qed.

Lemma insert_key_well_formed sc (K : gset Z) fv :
  well_formed sc → K ≠ ∅ →
  simplices sc !! K = None →
  (∀ v, v ∈ K → (2 ≤ size K)%nat →
        ∃ f, simplices sc !! (K ∖ {[v]}) = Some f ∧ f <= fv) →
  well_formed {| simplices := <[K := fv]> (simplices sc); dimension_ := dimension_ sc |}.
Proof.
  intros [Hne Hcl Hmono] HK Hfresh Hfacets. split; simpl.
  - rewrite lookup_insert_ne; done.
  - intros K' v [x Hx] Hv Hsize. unfold present in *. simpl in *.
    destruct (decide (K = K')) as [<-|Hneq].
    + destruct (Hfacets v Hv Hsize) as (f & Hf & _).
      rewrite lookup_insert_ne; [by rewrite Hf|].
      intros Heq. rewrite Heq in Hv. apply elem_of_difference in Hv as [_ Hv].
      apply Hv. by apply elem_of_singleton.
    + rewrite lookup_insert_ne in Hx by done.
      destruct (Hcl K' v (mk_is_Some _ _ Hx) Hv Hsize) as [y Hy].
      destruct (decide (K = K' ∖ {[v]})) as [Heq|Hneq'].
      * rewrite <- Heq in Hy. congruence.
      * rewrite lookup_insert_ne by done. by rewrite Hy.
  - intros K' v fK fF HK' Hv HF. simpl in *.
    assert (K' ∖ {[v]} ≠ K') as Hproper.
    { intros Heq. rewrite <- Heq in Hv. apply elem_of_difference in Hv as [_ Hv].
      apply Hv. by apply elem_of_singleton. }
    destruct (decide (K = K')) as [<-|Hneq].
    + rewrite lookup_insert_eq in HK'. injection HK' as <-.
      rewrite lookup_insert_ne in HF by done.
      destruct (decide (2 ≤ size K)%nat) as [Hsize|Hsize].
      * destruct (Hfacets v Hv Hsize) as (f & Hf & Hle). congruence.
      * destruct (decide (K ∖ {[v]} = ∅)) as [Hemp|Hnemp]; [congruence|].
        exfalso. apply Hsize. by eapply size_ge_2_of_facet.
    + rewrite lookup_insert_ne in HK' by done.
      destruct (decide (K = K' ∖ {[v]})) as [Heq|Hneq'].
      * exfalso.
        assert (2 ≤ size K')%nat as Hsize
          by (by apply (size_ge_2_of_facet K' K v)).
        destruct (Hcl K' v (mk_is_Some _ _ HK') Hv Hsize) as [y Hy].
        rewrite <- Heq in Hy. congruence.
      * rewrite lookup_insert_ne in HF by done. eapply Hmono; eauto.
Qed.

Lemma list_to_set_nonempty (vs : list Z) : vs ≠ [] → (list_to_set vs : gset Z) ≠ ∅.
Proof.
  destruct vs as [|x vs]; [done|]. intros _ Heq.
  assert (x ∈ (∅ : gset Z)) as Hx; [|by apply not_elem_of_empty in Hx].
  rewrite <- Heq. simpl. apply elem_of_union_l. by apply elem_of_singleton.
Qed.

(** A facet by position of a vertex list that is not stored yet is the facet
    of the set, once it is known to be stored. *)
Lemma stored_facet_of_fresh sc (vs : list Z) i v :
  simplices sc !! (list_to_set vs : gset Z) = None →
  vs !! i = Some v →
  is_Some (simplices sc !! (list_to_set (delete i vs) : gset Z)) →
  (list_to_set (delete i vs) : gset Z) = list_to_set vs ∖ {[v]}.
Proof.
  intros Hfresh Hi [f Hf].
  pose proof (list_to_set_delete vs i v Hi) as Heq.
  destruct (decide (v ∈ (list_to_set (delete i vs) : gset Z))) as [Hin|Hnin].
  - exfalso.
    assert ((list_to_set vs : gset Z) = list_to_set (delete i vs)) as Hsame.
    { rewrite Heq. apply set_eq. intros x.
      rewrite elem_of_union, elem_of_singleton. naive_solver. }
    rewrite Hsame in Hfresh. congruence.
  - rewrite Heq. apply set_eq. intros x.
    rewrite elem_of_difference, elem_of_union, elem_of_singleton. naive_solver.
Qed.

Lemma insert_simplex_well_formed sc vs fv :
  well_formed sc → vs ≠ [] →
  (∀ i, (i < length vs)%nat → (2 ≤ length vs)%nat →
     ∃ f, simplices sc !! (list_to_set (delete i vs) : gset Z) = Some f ∧ f <= fv) →
  well_formed (insert_simplex sc vs fv).
Proof.
  intros Hwf Hne Hfacets.
  destruct (simplices sc !! (list_to_set vs : gset Z)) as [fv0|] eqn:Hlook.
  { by rewrite (insert_simplex_present _ _ _ _ Hlook). }
  unfold insert_simplex. rewrite Hlook.
  apply insert_key_well_formed; [done|by apply list_to_set_nonempty|done|].
  intros v Hv Hsize. apply elem_of_list_to_set, list_elem_of_lookup in Hv as [i Hi].
  assert (2 ≤ length vs)%nat as Hlen.
  { pose proof (size_list_to_set_le vs). lia. }
  destruct (Hfacets i (lookup_lt_Some _ _ _ Hi) Hlen) as (f & Hf & Hle).
  exists f. split; [|done].
  rewrite <- (stored_facet_of_fresh sc vs i v); [done..|by rewrite Hf].
Qed.

(** ** Properties of the loops of [add_all_faces_of_dimension] *)

Lemma for_loop_run_grows alpha2 dim nr l_it simplex sc wba res :
  for_loop_run alpha2 dim nr l_it simplex sc wba res →
  simplices sc ⊆ simplices res.1.2 ∧ dimension_ res.1.2 = dimension_ sc.
Proof.
  induction 1; simpl in *; try done.
  - destruct IHfor_loop_run1, IHfor_loop_run2, IHfor_loop_run3.
    split; [|congruence]. by repeat (etrans; [eassumption|]).
  - destruct IHfor_loop_run1, IHfor_loop_run2.
    split; [|congruence]. by repeat (etrans; [eassumption|]).
  - destruct IHfor_loop_run as [Hsub Hdim]. split.
    + etrans; [apply insert_simplex_subseteq|exact Hsub].
    + by rewrite Hdim, insert_simplex_dimension.
Qed.

(** The loop returns [true] exactly when it started with [true] or called
    [insert_simplex]. *)
Lemma for_loop_run_returns alpha2 dim nr l_it simplex sc wba res :
  for_loop_run alpha2 dim nr l_it simplex sc wba res →
  res.1.1 = wba || existsb is_insert res.2.
Proof.
  induction 1; simpl in *; try (by rewrite orb_false_r).
  - rewrite IHfor_loop_run3, IHfor_loop_run2, IHfor_loop_run1.
    rewrite !existsb_app. simpl.
    destruct wba, (existsb is_insert t1), (existsb is_insert t2),
      (existsb is_insert t3); done.
  - rewrite IHfor_loop_run2, IHfor_loop_run1. simpl.
    rewrite !existsb_app.
    destruct wba, (existsb is_insert t2), (existsb is_insert t3); done.
  - rewrite IHfor_loop_run. rewrite !existsb_app. simpl.
    rewrite !orb_true_r. by destruct wba.
  - rewrite IHfor_loop_run. rewrite existsb_app.
    assert (existsb is_insert t1 = false) as ->; [|done].
    apply all_faces_in_loop_trace in H0.
    induction H0 as [|e t [i ->] _ IH]; [done|exact IH].
Qed.

Lemma all_faces_in_trace_no_insert vs fv sc b fv' t (P : event → Prop) :
  all_faces_in vs fv sc = (b, fv', t) →
  (∀ vs', P (Find vs')) → Forall P t.
Proof.
  intros H HP. apply all_faces_in_loop_trace in H.
  eapply Forall_impl; [exact H|]. by intros e [i ->].
Qed.

(** Every event of the loop satisfies the three local properties. *)
Lemma for_loop_run_events alpha2 dim nr l_it simplex sc wba res :
  for_loop_run alpha2 dim nr l_it simplex sc wba res →
  Forall (λ e, facets_present e ∧ insert_value e ∧ push_within_bound e) res.2.
Proof.
  induction 1; simpl in *; split_Forall; try done.
  - eapply all_faces_in_trace_no_insert; [eassumption|done].
  - apply all_faces_in_true in H0 as [-> Hall].
    by rewrite excess_excess_distance.
  - eapply all_faces_in_trace_no_insert; [eassumption|done].
Qed.

Lemma for_loop_run_well_formed alpha2 dim nr l_it simplex sc wba res :
  for_loop_run alpha2 dim nr l_it simplex sc wba res →
  well_formed sc → well_formed res.1.2.
Proof.
  induction 1; simpl in *; intros Hwf; auto.
  apply IHfor_loop_run. apply all_faces_in_bounds in H0 as [_ Hfacets].
  apply insert_simplex_well_formed; [done| |by auto].
  by destruct simplex.
Qed.

Lemma for_loop_run_length alpha2 dim nr l_it simplex sc wba res :
  for_loop_run alpha2 dim nr l_it simplex sc wba res →
  Forall (insert_length (length simplex + Z.to_nat dim + 1)) res.2.
Proof.
  induction 1; simpl in *; split_Forall; try done.
  - rewrite length_app in IHfor_loop_run1. simpl in IHfor_loop_run1.
    replace (length simplex + Z.to_nat dim + 1)%nat
      with (length simplex + 1 + Z.to_nat (dim - 1) + 1)%nat by lia.
    done.
  - eapply all_faces_in_trace_no_insert; [eassumption|done].
  - simpl. rewrite length_app. simpl. lia.
  - eapply all_faces_in_trace_no_insert; [eassumption|done].
Qed.

Lemma from_ranking_mono ids ids' e :
  ids `sublist_of` ids' → from_ranking ids e → from_ranking ids' e.
Proof.
  unfold from_ranking. destruct (vertex_list e); [|done].
  intros H1 H2. by etrans.
Qed.

Lemma for_loop_run_from_ranking alpha2 dim nr l_it simplex sc wba res :
  for_loop_run alpha2 dim nr l_it simplex sc wba res →
  Forall (from_ranking (simplex ++ l_it.*1)) res.2.
Proof.
  induction 1; simpl in *; split_Forall; try done.
  - unfold from_ranking. simpl. apply sublist_app; [done|].
    apply sublist_skip, sublist_nil_l.
  - eapply Forall_impl; [exact IHfor_loop_run1|]. intros e.
    apply from_ranking_mono. rewrite <- (assoc_L (++)). done.
  - eapply Forall_impl; [exact IHfor_loop_run2|]. intros e.
    apply from_ranking_mono. apply sublist_app; [done|]. by apply sublist_cons.
  - eapply Forall_impl; [exact IHfor_loop_run3|]. intros e.
    apply from_ranking_mono. apply sublist_app; [done|]. by apply sublist_cons.
  - unfold from_ranking. simpl. apply sublist_app; [done|].
    apply sublist_skip, sublist_nil_l.
  - eapply Forall_impl; [exact IHfor_loop_run1|]. intros e.
    apply from_ranking_mono. apply sublist_app; [done|]. by apply sublist_cons.
  - eapply Forall_impl; [exact IHfor_loop_run2|]. intros e.
    apply from_ranking_mono. apply sublist_app; [done|]. by apply sublist_cons.
  - apply all_faces_in_loop_trace in H0.
    eapply Forall_impl; [exact H0|]. intros e [i ->]. unfold from_ranking. simpl.
    etrans; [apply sublist_delete|]. apply sublist_app; [done|].
    apply sublist_skip, sublist_nil_l.
  - unfold from_ranking. simpl. apply sublist_app; [done|].
    apply sublist_skip, sublist_nil_l.
  - eapply Forall_impl; [exact IHfor_loop_run|]. intros e.
    apply from_ranking_mono. apply sublist_app; [done|]. by apply sublist_cons.
  - apply all_faces_in_loop_trace in H0.
    eapply Forall_impl; [exact H0|]. intros e [i ->]. unfold from_ranking. simpl.
    etrans; [apply sublist_delete|]. apply sublist_app; [done|].
    apply sublist_skip, sublist_nil_l.
  - eapply Forall_impl; [exact IHfor_loop_run|]. intros e.
    apply from_ranking_mono. apply sublist_app; [done|]. by apply sublist_cons.
Qed.

(** ** [add_all_faces_of_dimension] and its loops *)

Lemma add_all_faces_of_dimension_for_loop dim alpha2 nr curr_l simplex sc :
  add_all_faces_of_dimension dim alpha2 nr curr_l simplex sc
  = for_loop dim alpha2 nr curr_l simplex sc false.
Proof. by destruct curr_l. Qed.

(** One iteration of the loop of line 194, with the recursive calls written
    as in the source. *)
Lemma for_loop_eq_positive dim alpha2 nr l next_it simplex sc wba :
  0 < dim → le_double (l.2 - alpha2) nr = true →
  for_loop dim alpha2 nr (l :: next_it) simplex sc wba =
    let c1 :=
      match find sc (simplex ++ [l.1]) with
      | Some _ =>
          add_all_faces_of_dimension (dim - 1) alpha2 nr next_it (simplex ++ [l.1]) sc
      | None => (false, sc, [])
      end in
    let nr' := tighten_le l.2 nr in
    let c2 := add_all_faces_of_dimension dim alpha2 nr' next_it simplex c1.1.2 in
    let c3 := for_loop dim alpha2 nr' next_it simplex c2.1.2 (c2.1.1 || (c1.1.1 || wba)) in
    (c3.1.1, c3.1.2,
     Push dim simplex l alpha2 nr :: Find (simplex ++ [l.1]) :: c1.2 ++ c2.2 ++ c3.2).
Proof.
  intros Hdim Hcond. cbv zeta. rewrite !add_all_faces_of_dimension_for_loop. simpl.
  apply Z.ltb_lt in Hdim. rewrite Hdim, Hcond. unfold tighten_le.
  destruct (find sc (simplex ++ [l.1])).
  - destruct (for_loop (dim - 1) alpha2 nr next_it _ sc false) as [[r1 sc1] t1]; simpl.
    destruct (for_loop dim alpha2 _ next_it simplex sc1 false) as [[r2 sc2] t2]; simpl.
    by destruct (for_loop dim alpha2 _ next_it simplex sc2 _) as [[r3 sc3] t3].
  - simpl.
    destruct (for_loop dim alpha2 _ next_it simplex sc false) as [[r2 sc2] t2]; simpl.
    by destruct (for_loop dim alpha2 _ next_it simplex sc2 _) as [[r3 sc3] t3].
Qed.

(** One iteration of the loop of line 221. *)
Lemma for_loop_eq_zero alpha2 nr l next_it simplex sc wba :
  le_double (l.2 - alpha2) nr = true →
  for_loop 0 alpha2 nr (l :: next_it) simplex sc wba =
    let simplex' := simplex ++ [l.1] in
    let c1 := all_faces_in simplex' (excess l.2 nr) sc in
    let sc1 := if c1.1.1 then insert_simplex sc simplex' c1.1.2 else sc in
    let t1 := if c1.1.1 then c1.2 ++ [Insert sc simplex' l.2 nr c1.1.2] else c1.2 in
    let c3 := for_loop 0 alpha2 (tighten_lt l.2 nr) next_it simplex sc1
                (if c1.1.1 then true else wba) in
    (c3.1.1, c3.1.2, Push 0 simplex l alpha2 nr :: t1 ++ c3.2).
Proof.
  intros Hcond. simpl. rewrite Hcond. unfold tighten_lt.
  destruct (all_faces_in (simplex ++ [l.1]) (excess l.2 nr) sc) as [[b fv] t1]; simpl.
  by destruct (for_loop 0 alpha2 _ next_it simplex _ _) as [[r3 sc3] t3].
Qed.

(** The loops stop at a candidate beyond the bound, and do nothing for a
    negative dimension. *)
Lemma for_loop_eq_stop dim alpha2 nr l next_it simplex sc wba :
  le_double (l.2 - alpha2) nr = false →
  for_loop dim alpha2 nr (l :: next_it) simplex sc wba = (wba, sc, []).
Proof.
  intros Hcond. simpl. rewrite Hcond.
  destruct (0 <? dim); [done|]. by destruct (dim =? 0).
Qed.

Lemma for_loop_eq_negative dim alpha2 nr l_it simplex sc wba :
  dim < 0 → for_loop dim alpha2 nr l_it simplex sc wba = (wba, sc, []).
Proof.
  intros Hdim. destruct l_it as [|l next_it]; [done|]. simpl.
  destruct (0 <? dim) eqn:E1; [apply Z.ltb_lt in E1; lia|].
  destruct (dim =? 0) eqn:E2; [apply Z.eqb_eq in E2; lia|done].
Qed.

Lemma for_loop_grows dim alpha2 nr l_it simplex sc wba :
  simplices sc ⊆ simplices (for_loop dim alpha2 nr l_it simplex sc wba).1.2.
Proof. eapply for_loop_run_grows, for_loop_run_complete. Qed.

Lemma for_loop_dimension dim alpha2 nr l_it simplex sc wba :
  dimension_ (for_loop dim alpha2 nr l_it simplex sc wba).1.2 = dimension_ sc.
Proof. eapply for_loop_run_grows, for_loop_run_complete. Qed.

Lemma for_loop_returns dim alpha2 nr l_it simplex sc wba :
  (for_loop dim alpha2 nr l_it simplex sc wba).1.1
  = wba || existsb is_insert (for_loop dim alpha2 nr l_it simplex sc wba).2.
Proof. eapply for_loop_run_returns, for_loop_run_complete. Qed.

Lemma subseteq_present (sc sc' : Simplex_map) K :
  simplices sc ⊆ simplices sc' → present sc K → present sc' K.
Proof.
  intros Hsub [fv Hfv]. exists fv. eapply lookup_weaken; eauto.
Qed.

(** ** The seeding loop *)

Lemma seed_loop_grows n : ∀ i sc,
  simplices sc ⊆ simplices (seed_loop n i sc).1 ∧
  dimension_ (seed_loop n i sc).1 = dimension_ sc.
Proof.
  induction n as [|n IH]; intros i sc; simpl; [done|].
  specialize (IH (i + 1) (insert_simplex sc [i] 0)).
  destruct (seed_loop n (i + 1) (insert_simplex sc [i] 0)) as [sc' t]. simpl in *.
  destruct IH as [Hsub Hdim]. split.
  - etrans; [apply insert_simplex_subseteq|exact Hsub].
  - by rewrite Hdim, insert_simplex_dimension.
Qed.

Lemma seed_loop_well_formed n : ∀ i sc,
  well_formed sc → well_formed (seed_loop n i sc).1.
Proof.
  induction n as [|n IH]; intros i sc Hwf; simpl; [done|].
  specialize (IH (i + 1) (insert_simplex sc [i] 0)).
  destruct (seed_loop n (i + 1) (insert_simplex sc [i] 0)) as [sc' t]. simpl in *.
  apply IH. apply insert_simplex_well_formed; [done..|]. simpl. intros; lia.
Qed.

Lemma seed_loop_trace n : ∀ i sc,
  Forall (λ e, is_seed e = true) (seed_loop n i sc).2 ∧
  seeds (seed_loop n i sc).2 = (λ j : nat, ([i + Z.of_nat j], 0)) <$> seq 0 n.
Proof.
  induction n as [|n IH]; intros i sc; simpl; [done|].
  specialize (IH (i + 1) (insert_simplex sc [i] 0)).
  destruct (seed_loop n (i + 1) (insert_simplex sc [i] 0)) as [sc' t]. simpl in *.
  destruct IH as [Hall Hseeds]. split; [by constructor|].
  unfold seeds in *. simpl. rewrite Hseeds. f_equal.
  - do 2 f_equal. lia.
  - rewrite <- fmap_S_seq, <- list_fmap_compose. apply list_fmap_ext.
    intros _ j _. simpl. do 2 f_equal. lia.
Qed.

(** After the seeding loop every landmark id is a vertex; it has filtration
    value 0 when it was not stored before. *)
Lemma seed_loop_vertices n : ∀ i sc j,
  i <= j < i + Z.of_nat n →
  simplices sc !! ({[j]} : gset Z) = None →
  simplices (seed_loop n i sc).1 !! ({[j]} : gset Z) = Some 0.
Proof.
  induction n as [|n IH]; intros i sc j Hj Hfresh; simpl; [lia|].
  pose proof (seed_loop_grows n (i + 1) (insert_simplex sc [i] 0)) as [Hsub _].
  specialize (IH (i + 1) (insert_simplex sc [i] 0) j).
  destruct (seed_loop n (i + 1) (insert_simplex sc [i] 0)) as [sc' t]. simpl in *.
  assert ((list_to_set [i] : gset Z) = {[i]}) as Hkey.
  { simpl. by rewrite (right_id_L ∅ (∪)). }
  destruct (decide (i = j)) as [->|Hne].
  - eapply lookup_weaken; [|exact Hsub].
    rewrite insert_simplex_fresh by (by rewrite Hkey).
    rewrite Hkey. apply lookup_insert_eq.
  - apply IH; [lia|].
    destruct (simplices sc !! (list_to_set [i] : gset Z)) as [fv0|] eqn:E.
    + by rewrite (insert_simplex_present _ _ _ _ E).
    + rewrite (insert_simplex_fresh _ _ _ E), Hkey.
      rewrite lookup_insert_ne; [done|].
      intros Heq. apply Hne. apply (inj (singleton (B:=gset Z))) in Heq. done.
Qed.

(** ** One pass over the active witnesses *)

Section witness_loop.
Context (k : Z) (max_alpha_square : Z).

Lemma witness_loop_grows active_witnesses : ∀ sc,
  simplices sc ⊆ simplices (witness_loop k max_alpha_square active_witnesses sc).1.2 ∧
  dimension_ (witness_loop k max_alpha_square active_witnesses sc).1.2 = dimension_ sc.
Proof.
  induction active_witnesses as [|aw rest IH]; intros sc; simpl; [done|].
  rewrite add_all_faces_of_dimension_for_loop.
  pose proof (for_loop_grows k max_alpha_square infinity
                (nearest_landmark_table_ aw) [] sc false) as Hsub.
  pose proof (for_loop_dimension k max_alpha_square infinity
                (nearest_landmark_table_ aw) [] sc false) as Hdim.
  destruct (for_loop k max_alpha_square infinity _ [] sc false) as [[ok sc1] t1].
  specialize (IH sc1).
  destruct (witness_loop k max_alpha_square rest sc1) as [[rest' sc2] t2].
  simpl in *. destruct IH as [Hsub' Hdim']. split; [by etrans|congruence].
Qed.

Lemma witness_loop_well_formed active_witnesses : ∀ sc,
  well_formed sc →
  well_formed (witness_loop k max_alpha_square active_witnesses sc).1.2.
Proof.
  induction active_witnesses as [|aw rest IH]; intros sc Hwf; simpl; [done|].
  rewrite add_all_faces_of_dimension_for_loop.
  pose proof (for_loop_run_well_formed _ _ _ _ _ _ _ _
                (for_loop_run_complete max_alpha_square
                   (nearest_landmark_table_ aw) k infinity [] sc false) Hwf) as Hwf1.
  destruct (for_loop k max_alpha_square infinity _ [] sc false) as [[ok sc1] t1].
  specialize (IH sc1 Hwf1).
  by destruct (witness_loop k max_alpha_square rest sc1) as [[rest' sc2] t2].
Qed.

(** Witnesses are only ever erased from the list. *)
Lemma witness_loop_sublist active_witnesses : ∀ sc,
  (witness_loop k max_alpha_square active_witnesses sc).1.1
    `sublist_of` active_witnesses.
Proof.
  induction active_witnesses as [|aw rest IH]; intros sc; simpl; [done|].
  destruct (add_all_faces_of_dimension k max_alpha_square infinity _ [] sc)
    as [[ok sc1] t1].
  specialize (IH sc1).
  destruct (witness_loop k max_alpha_square rest sc1) as [[rest' sc2] t2].
  simpl in *. destruct ok; [by apply sublist_skip|by apply sublist_cons].
Qed.

Lemma witness_loop_events (P : event → Prop) active_witnesses :
  (∀ w ok, P (Witness w k ok)) →
  (∀ aw sc0, aw ∈ active_witnesses →
     Forall P (add_all_faces_of_dimension k max_alpha_square infinity
                 (nearest_landmark_table_ aw) [] sc0).2) →
  ∀ sc, Forall P (witness_loop k max_alpha_square active_witnesses sc).2.
Proof.
  intros HW. induction active_witnesses as [|aw rest IH]; intros Hcalls sc; simpl;
    [done|].
  pose proof (Hcalls aw sc (list_elem_of_here _ _)) as H1.
  destruct (add_all_faces_of_dimension k max_alpha_square infinity _ [] sc)
    as [[ok sc1] t1].
  assert (Forall P (witness_loop k max_alpha_square rest sc1).2) as H2.
  { apply IH. intros aw' sc0 Hin. apply Hcalls. by apply list_elem_of_further. }
  destruct (witness_loop k max_alpha_square rest sc1) as [[rest' sc2] t2].
  simpl in *. split_Forall; done.
Qed.
End witness_loop.

(** ** The loop over the dimensions *)

Section dimension_loop.
Context (limit_dimension : Z) (max_alpha_square : Z).

Lemma dimension_loop_grows n : ∀ k active_witnesses sc,
  simplices sc ⊆
    simplices (dimension_loop n k limit_dimension max_alpha_square
                 active_witnesses sc).1.2 ∧
  dimension_ (dimension_loop n k limit_dimension max_alpha_square
                active_witnesses sc).1.2 = dimension_ sc.
Proof.
  induction n as [|n IH]; intros k aws sc; simpl; [done|].
  destruct aws as [|aw aws]; [done|].
  destruct (k <=? limit_dimension); [|done].
  pose proof (witness_loop_grows k max_alpha_square (aw :: aws) sc) as [Hsub Hdim].
  destruct (witness_loop k max_alpha_square (aw :: aws) sc) as [[aws' sc'] t].
  specialize (IH (k + 1) aws' sc').
  destruct (dimension_loop n (k + 1) limit_dimension max_alpha_square aws' sc')
    as [[[k' aws''] sc''] t'].
  simpl in *. destruct IH as [Hsub' Hdim']. split; [by etrans|congruence].
Qed.

Lemma dimension_loop_well_formed n : ∀ k active_witnesses sc,
  well_formed sc →
  well_formed (dimension_loop n k limit_dimension max_alpha_square
                 active_witnesses sc).1.2.
Proof.
  induction n as [|n IH]; intros k aws sc Hwf; simpl; [done|].
  destruct aws as [|aw aws]; [done|].
  destruct (k <=? limit_dimension); [|done].
  pose proof (witness_loop_well_formed k max_alpha_square (aw :: aws) sc Hwf) as Hwf'.
  destruct (witness_loop k max_alpha_square (aw :: aws) sc) as [[aws' sc'] t].
  specialize (IH (k + 1) aws' sc' Hwf').
  by destruct (dimension_loop n (k + 1) limit_dimension max_alpha_square aws' sc')
    as [[[k' aws''] sc''] t'].
Qed.

Lemma dimension_loop_events (P : event → Prop) n : ∀ k active_witnesses sc,
  (∀ w k' ok, k <= k' → P (Witness w k' ok)) →
  (∀ aw k' sc0, k <= k' → aw ∈ active_witnesses →
     Forall P (add_all_faces_of_dimension k' max_alpha_square infinity
                 (nearest_landmark_table_ aw) [] sc0).2) →
  Forall P (dimension_loop n k limit_dimension max_alpha_square
              active_witnesses sc).2.
Proof.
  induction n as [|n IH]; intros k aws sc HW Hcalls; simpl; [done|].
  destruct aws as [|aw aws]; [done|].
  destruct (k <=? limit_dimension); [|done].
  pose proof (witness_loop_events k max_alpha_square P (aw :: aws)
                (λ w ok, HW w k ok (Z.le_refl k))
                (λ aw' sc0 Hin, Hcalls aw' k sc0 (Z.le_refl k) Hin) sc) as Hpass.
  pose proof (witness_loop_sublist k max_alpha_square (aw :: aws) sc) as Hsub.
  destruct (witness_loop k max_alpha_square (aw :: aws) sc) as [[aws' sc'] t].
  assert (Forall P (dimension_loop n (k + 1) limit_dimension max_alpha_square
                      aws' sc').2) as Hrest.
  { apply IH.
    - intros w k' ok Hk'. apply HW. lia.
    - intros aw' k' sc0 Hk' Hin. apply Hcalls; [lia|].
      eapply elem_of_sublist; eauto. }
  destruct (dimension_loop n (k + 1) limit_dimension max_alpha_square aws' sc')
    as [[[k' aws''] sc''] t'].
  simpl in *. by apply Forall_app_2.
Qed.

(** With at least [limit_dimension + 1 - k] iterations allowed, the loop
    stops because its condition fails. *)
Lemma dimension_loop_exit n : ∀ k active_witnesses sc,
  (Z.to_nat (limit_dimension + 1 - k) ≤ n)%nat →
  let res := dimension_loop n k limit_dimension max_alpha_square
               active_witnesses sc in
  (res.1.1.2 = [] ∨ limit_dimension < res.1.1.1) ∧ k <= res.1.1.1.
Proof.
  induction n as [|n IH]; intros k aws sc Hn; simpl.
  - split; [right|]; lia.
  - destruct aws as [|aw aws]; [simpl; split; [by left|lia]|].
    destruct (k <=? limit_dimension) eqn:Hk; [|apply Z.leb_gt in Hk; simpl; split; [by right|lia]].
    apply Z.leb_le in Hk.
    destruct (witness_loop k max_alpha_square (aw :: aws) sc) as [[aws' sc'] t].
    specialize (IH (k + 1) aws' sc').
    destruct (dimension_loop n (k + 1) limit_dimension max_alpha_square aws' sc')
      as [[[k' aws''] sc''] t'].
    simpl in *. destruct IH as [Hexit Hle]; [lia|]. split; [done|lia].
Qed.
End dimension_loop.

(** ** Faces of a well-formed complex *)

Lemma well_formed_faces sc :
  well_formed sc →
  ∀ n (K F : gset Z) fK,
    size (K ∖ F) = n →
    simplices sc !! K = Some fK → F ⊆ K → F ≠ ∅ →
    ∃ fF, simplices sc !! F = Some fF ∧ fF <= fK.
Proof.
  intros [Hne Hcl Hmono]. induction n as [|n IH]; intros K F fK Hsize HK HF HFne.
  - assert (K = F) as <-.
    { apply size_empty_inv in Hsize. apply set_eq. intros x. split; [|by apply HF].
      intros Hx. destruct (decide (x ∈ F)) as [|Hnin]; [done|].
      exfalso. apply (not_elem_of_empty (C:=gset Z) x). rewrite <- Hsize.
      apply elem_of_difference. done. }
    exists fK. split; [done|lia].
  - destruct (size_pos_elem_of (K ∖ F)) as [v Hv]; [lia|].
    apply elem_of_difference in Hv as [HvK HvF].
    destruct (set_choose_L F HFne) as [u Hu].
    assert (u ∈ K ∖ {[v]}) as HuK'.
    { apply elem_of_difference. split; [by apply HF|].
      rewrite elem_of_singleton. intros ->. done. }
    assert (2 ≤ size K)%nat as Hsize2.
    { apply (size_ge_2_of_facet K (K ∖ {[v]}) v); [done..|].
      intros Hemp. rewrite Hemp in HuK'. by apply not_elem_of_empty in HuK'. }
    destruct (Hcl K v (mk_is_Some _ _ HK) HvK Hsize2) as [fK' HK'].
    pose proof (Hmono K v fK fK' HK HvK HK') as Hle.
    destruct (IH (K ∖ {[v]}) F fK') as (fF & HfF & Hle'); [|done| |done|].
    + assert (K ∖ F = {[v]} ∪ (K ∖ {[v]}) ∖ F) as Heq.
      { apply set_eq. intros x.
        rewrite elem_of_union, !elem_of_difference, elem_of_singleton.
        destruct (decide (x = v)) as [->|]; naive_solver. }
      rewrite Heq, size_union, size_singleton in Hsize; [lia|].
      intros x. rewrite elem_of_singleton, !elem_of_difference, elem_of_singleton.
      naive_solver.
    + intros x Hx. apply elem_of_difference. split; [by apply HF|].
      rewrite elem_of_singleton. intros ->. done.
    + exists fF. split; [done|lia].
Qed.

Lemma well_formed_filtration_monotone sc :
  well_formed sc → filtration_monotone sc.
Proof. intros Hwf K F fK HK HF HFne. by eapply well_formed_faces. Qed.

Lemma well_formed_downward_closed sc :
  well_formed sc → downward_closed sc.
Proof.
  intros Hwf K F [fK HK] HF HFne.
  destruct (well_formed_faces sc Hwf _ K F fK eq_refl HK HF HFne) as (fF & HfF & _).
  by exists fF.
Qed.

Lemma well_formed_empty_complex : well_formed empty_complex.
Proof.
  split.
  - done.
  - intros K v [x Hx]. simpl in Hx. by rewrite lookup_empty in Hx.
  - intros K v fK fF HK. simpl in HK. by rewrite lookup_empty in HK.
Qed.

Lemma set_dimension_well_formed sc k :
  well_formed sc → well_formed (set_dimension sc k).
Proof. intros [H1 H2 H3]. by split. Qed.

Lemma for_loop_run_kinds alpha2 dim nr l_it simplex sc wba res :
  for_loop_run alpha2 dim nr l_it simplex sc wba res →
  Forall (λ e, is_loop_event e = true) res.2.
Proof.
  induction 1; simpl in *; split_Forall; try done.
  - eapply all_faces_in_trace_no_insert; [eassumption|done].
  - eapply all_faces_in_trace_no_insert; [eassumption|done].
Qed.

(** Lifting a property of the events of the loops to all calls. *)
Lemma add_all_faces_of_dimension_events (P : event → Prop) dim alpha2 nr curr_l simplex sc :
  (∀ res, for_loop_run alpha2 dim nr curr_l simplex sc false res → Forall P res.2) →
  Forall P (add_all_faces_of_dimension dim alpha2 nr curr_l simplex sc).2.
Proof.
  intros H. rewrite add_all_faces_of_dimension_for_loop.
  apply H, for_loop_run_complete.
Qed.

(** ** [create_complex] by cases *)

Lemma create_complex_cases wc sc max_alpha_square limit_dimension :
  (¬ preconditions sc max_alpha_square limit_dimension ∧
   create_complex wc sc max_alpha_square limit_dimension
   = Some {| returned := false; complex := sc; calls := [] |})
  ∨ (preconditions sc max_alpha_square limit_dimension ∧ witnesses_ wc = [] ∧
     create_complex wc sc max_alpha_square limit_dimension = None)
  ∨ (preconditions sc max_alpha_square limit_dimension ∧ witnesses_ wc ≠ [] ∧
     let res := main_loop wc sc max_alpha_square limit_dimension in
     create_complex wc sc max_alpha_square limit_dimension
     = Some {| returned := true;
               complex := set_dimension res.1.2 (res.1.1.1 - 1);
               calls := (seed_loop (nbL wc) 0 sc).2 ++ res.2
                          ++ [Set_dimension (res.1.1.1 - 1)] |}).
Proof.
  unfold create_complex, preconditions, main_loop.
  destruct (decide (0 < num_vertices sc)%nat) as [Hnv|Hnv].
  { left. split; [lia|done]. }
  destruct (max_alpha_square <? 0) eqn:Ha.
  { apply Z.ltb_lt in Ha. left. split; [lia|done]. }
  destruct (limit_dimension <? 0) eqn:Hl.
  { apply Z.ltb_lt in Hl. left. split; [lia|done]. }
  apply Z.ltb_ge in Ha, Hl. right.
  destruct (seed_loop (nbL wc) 0 sc) as [sc1 t1].
  destruct (witnesses_ wc) as [|w ws] eqn:Hws.
  - left. repeat split; try done; lia.
  - right. split; [repeat split; lia|]. split; [done|].
    unfold make_active_witnesses. simpl.
    by destruct (dimension_loop _ 1 limit_dimension max_alpha_square _ sc1)
      as [[[k' aws] sc2] t2].
Qed.

Lemma num_vertices_0_no_vertex sc j :
  num_vertices sc = 0%nat → simplices sc !! ({[j]} : gset Z) = None.
Proof.
  unfold num_vertices. intros Hnv.
  destruct (simplices sc !! ({[j]} : gset Z)) as [fv|] eqn:E; [|done].
  exfalso. apply size_empty_inv in Hnv.
  apply (not_elem_of_empty (C:=gset (gset Z)) {[j]}). rewrite <- Hnv.
  apply elem_of_filter. split; [apply size_singleton|].
  apply elem_of_dom. by rewrite E.
Qed.

(** Every event of a run of [create_complex] that comes from the loops of
    [add_all_faces_of_dimension] satisfies a property that all loop events
    satisfy. *)
Lemma main_loop_events (P : event → Prop) wc sc max_alpha_square limit_dimension :
  (∀ w k ok, P (Witness w k ok)) →
  (∀ alpha2 dim nr l_it simplex sc0 wba res,
     for_loop_run alpha2 dim nr l_it simplex sc0 wba res → Forall P res.2) →
  Forall P (main_loop wc sc max_alpha_square limit_dimension).2.
Proof.
  intros HW Hloop. apply dimension_loop_events; [by intros|].
  intros aw k' sc0 _ _. apply add_all_faces_of_dimension_events. eauto.
Qed.

(** ** Preconditions, seeding, closure and filtration values *)

Lemma vertex_num_vertices sc j :
  present sc ({[j]} : gset Z) → (0 < num_vertices sc)%nat.
Proof.
  intros Hj. unfold num_vertices.
  assert (size (filter (λ K : gset Z, size K = 1%nat) (dom (simplices sc))) ≠ 0%nat);
    [|lia].
  apply size_non_empty_iff. intros Hempty.
  apply (not_elem_of_empty (C:=gset (gset Z)) {[j]}). rewrite <- Hempty.
  apply elem_of_filter. split; [apply size_singleton|]. by apply elem_of_dom.
Qed.

(** After a successful run every landmark id is a vertex with filtration
    value 0. *)
Lemma create_complex_vertices wc sc max_alpha_square limit_dimension r i :
  create_complex wc sc max_alpha_square limit_dimension = Some r →
  returned r = true →
  0 <= i < Z.of_nat (nbL wc) →
  simplices (complex r) !! ({[i]} : gset Z) = Some 0.
Proof.
  destruct (create_complex_cases wc sc max_alpha_square limit_dimension)
    as [[Hpre ->]|[(Hpre & Hws & ->)|(Hpre & Hws & ->)]]; [by intros [= <-]|done|].
  intros [= <-] _ Hi. simpl. destruct Hpre as (Hnv & _).
  eapply lookup_weaken; [|apply dimension_loop_grows].
  apply seed_loop_vertices; [lia|]. by apply num_vertices_0_no_vertex.
Qed.

(** C3.  Precondition failure is free of side effects: if the target complex
    has a vertex, or [max_alpha_square < 0], or [limit_dimension < 0], then
    [create_complex] returns [false], leaves the complex as it is and calls
    neither [insert_simplex] nor [set_dimension] (its trace is empty).  In
    particular a construction run on the complex left by a successful
    construction with at least one landmark fails in this way, whatever its
    parameters. *)
Theorem C3_precondition_failure wc sc max_alpha_square limit_dimension :
  ((0 < num_vertices sc)%nat ∨ max_alpha_square < 0 ∨ limit_dimension < 0 →
   create_complex wc sc max_alpha_square limit_dimension
   = Some {| returned := false; complex := sc; calls := [] |}) ∧
  (∀ r wc' max_alpha_square' limit_dimension',
     create_complex wc sc max_alpha_square limit_dimension = Some r →
     returned r = true → (0 < nbL wc)%nat →
     create_complex wc' (complex r) max_alpha_square' limit_dimension'
     = Some {| returned := false; complex := complex r; calls := [] |}).
Proof.
  assert (∀ wc0 sc0 a l,
    (0 < num_vertices sc0)%nat ∨ a < 0 ∨ l < 0 →
    create_complex wc0 sc0 a l
    = Some {| returned := false; complex := sc0; calls := [] |}) as Hfail.
  { intros wc0 sc0 a l Hor.
    destruct (create_complex_cases wc0 sc0 a l)
      as [[_ ->]|[([? [? ?]] & _)|([? [? ?]] & _)]]; [done|lia..]. }
  split; [apply Hfail|].
  intros r wc' a' l' Hrun Hret HnbL. apply Hfail. left.
  apply (vertex_num_vertices (complex r) 0). unfold present.
  rewrite (create_complex_vertices _ _ _ _ r 0 Hrun Hret); [done|lia].
Qed.

(** C10.  [create_complex] reads the front of the list of active witnesses
    right after the checks and the seeding; the read is undefined exactly
    when the checks pass and no witness was supplied. *)
Theorem C10_front_of_empty_witness_list wc sc max_alpha_square limit_dimension :
  create_complex wc sc max_alpha_square limit_dimension = None ↔
  preconditions sc max_alpha_square limit_dimension ∧ witnesses_ wc = [].
Proof.
  destruct (create_complex_cases wc sc max_alpha_square limit_dimension)
    as [[Hpre ->]|[(Hpre & Hws & ->)|(Hpre & Hws & ->)]].
  - split; [done|]. intros [? _]. done.
  - done.
  - split; [done|]. intros [_ ?]. done.
Qed.

(** C1.  Downward closure: in every run of [create_complex] on a well-formed
    target complex, the [insert_simplex] calls of
    [add_all_faces_of_dimension] are the insertions of simplices of dimension
    1 or more (at least two vertices are passed); each of them is made on a
    complex in which every facet of the inserted simplex (one vertex removed)
    is found; and in the final complex every non-empty face of a stored
    simplex is stored. *)
Theorem C1_downward_closure wc sc max_alpha_square limit_dimension :
  well_formed sc →
  match create_complex wc sc max_alpha_square limit_dimension with
  | Some r =>
      Forall proper_insert (calls r) ∧
      Forall facets_present (calls r) ∧
      downward_closed (complex r)
  | None => True
  end.
Proof.
  intros Hwf.
  destruct (create_complex_cases wc sc max_alpha_square limit_dimension)
    as [[Hpre ->]|[(Hpre & Hws & ->)|(Hpre & Hws & ->)]]; simpl; [|done|].
  - split; [done|]. split; [done|]. by apply well_formed_downward_closed.
  - pose proof (seed_loop_trace (nbL wc) 0 sc) as [Hseed _].
    split; [|split].
    + split_Forall; [| |done].
      * eapply Forall_impl; [exact Hseed|]. by intros [].
      * apply dimension_loop_events; [done|].
        intros aw k' sc0 Hk' _. apply add_all_faces_of_dimension_events.
        intros res Hrun. eapply Forall_impl; [by eapply for_loop_run_length|].
        intros [] ?; try done. simpl in *. lia.
    + split_Forall; [| |done].
      * eapply Forall_impl; [exact Hseed|]. by intros [].
      * apply main_loop_events; [done|]. intros.
        eapply Forall_impl; [by eapply for_loop_run_events|]. by intros e (? & _).
    + apply well_formed_downward_closed, set_dimension_well_formed.
      apply dimension_loop_well_formed. by apply seed_loop_well_formed.
Qed.

(** C2.  Filtration monotonicity: in every run of [create_complex] on a
    well-formed target complex, the value passed to each [insert_simplex]
    call of [add_all_faces_of_dimension] is the maximum of
    [max(0, distance - norelax_dist2)] for the vertex pushed last and of the
    filtration values of the facets found in the complex; and in the final
    complex every face of a stored simplex has a filtration value that is not
    larger. *)
Theorem C2_filtration_monotonicity wc sc max_alpha_square limit_dimension :
  well_formed sc →
  match create_complex wc sc max_alpha_square limit_dimension with
  | Some r => Forall insert_value (calls r) ∧ filtration_monotone (complex r)
  | None => True
  end.
Proof.
  intros Hwf.
  destruct (create_complex_cases wc sc max_alpha_square limit_dimension)
    as [[Hpre ->]|[(Hpre & Hws & ->)|(Hpre & Hws & ->)]]; simpl; [|done|].
  - split; [done|]. by apply well_formed_filtration_monotone.
  - split.
    + split_Forall; [| |done].
      * pose proof (seed_loop_trace (nbL wc) 0 sc) as [Hseed _].
        eapply Forall_impl; [exact Hseed|]. by intros [].
      * apply main_loop_events; [done|]. intros.
        eapply Forall_impl; [by eapply for_loop_run_events|]. by intros e (_ & ? & _).
    + apply well_formed_filtration_monotone, set_dimension_well_formed.
      apply dimension_loop_well_formed. by apply seed_loop_well_formed.
Qed.

Lemma seeds_app t1 t2 : seeds (t1 ++ t2) = seeds t1 ++ seeds t2.
Proof. apply omap_app. Qed.

Lemma seeds_no_seed t : Forall (λ e, is_seed e = false) t → seeds t = [].
Proof.
  induction 1 as [|e t He _ IH]; [done|].
  unfold seeds in *. simpl. destruct e; try done; by rewrite IH.
Qed.

(** C4.  Dimension-0 completeness: a run of [create_complex] that passes the
    checks starts with the calls [insert_simplex({i}, 0)] for
    [i = 0, ..., nbL - 1], in this order, before any other operation, and
    after it every landmark id is stored as a vertex with filtration
    value 0. *)
Theorem C4_dimension_0_completeness wc sc max_alpha_square limit_dimension :
  match create_complex wc sc max_alpha_square limit_dimension with
  | Some r =>
      if returned r then
        (∃ t0 t1, calls r = t0 ++ t1 ∧
           Forall (λ e, is_seed e = true) t0 ∧
           seeds t0 = (λ i : nat, ([Z.of_nat i], 0)) <$> seq 0 (nbL wc) ∧
           Forall (λ e, is_seed e = false) t1) ∧
        ∀ i, 0 <= i < Z.of_nat (nbL wc) →
             simplices (complex r) !! ({[i]} : gset Z) = Some 0
      else True
  | None => True
  end.
Proof.
  destruct (create_complex_cases wc sc max_alpha_square limit_dimension)
    as [[Hpre ->]|[(Hpre & Hws & ->)|(Hpre & Hws & ->)]]; simpl; [done..|].
  split.
  - eexists _, _. split; [done|].
    pose proof (seed_loop_trace (nbL wc) 0 sc) as [Hseed Hlist].
    split; [done|]. split.
    + rewrite Hlist. apply list_fmap_ext. intros _ j _. by rewrite Z.add_0_l.
    + split_Forall; [|done].
      apply main_loop_events; [done|]. intros.
      eapply Forall_impl; [by eapply for_loop_run_kinds|]. by intros [].
  - intros i Hi. destruct Hpre as (Hnv & _).
    eapply lookup_weaken; [|apply dimension_loop_grows].
    apply seed_loop_vertices; [lia|]. by apply num_vertices_0_no_vertex.
Qed.

(** ** The pruning rule *)







Lemma pushed_app t1 t2 : pushed (t1 ++ t2) = pushed t1 ++ pushed t2.
Proof. apply omap_app. Qed.





(** ** Witness deactivation *)













Lemma make_active_witnesses_table ws aw :
  aw ∈ make_active_witnesses ws → nearest_landmark_table_ aw ∈ ws.
Proof.
  unfold make_active_witnesses. intros Hin.
  apply elem_of_lookup_imap_1 in Hin as (i & w & -> & Hw). simpl.
  by eapply list_elem_of_lookup_2.
Qed.


(** ** The declared dimension *)

Lemma bounded_size_mono N N' sc :
  (N ≤ N')%nat → bounded_size N sc → bounded_size N' sc.
Proof. intros Hle Hb K HK. specialize (Hb K HK). lia. Qed.

Lemma insert_simplex_bounded N sc vs fv :
  (length vs ≤ N)%nat → bounded_size N sc → bounded_size N (insert_simplex sc vs fv).
Proof.
  intros Hlen Hb K [x Hx].
  destruct (simplices sc !! (list_to_set vs : gset Z)) as [fv0|] eqn:E.
  - rewrite (insert_simplex_present _ _ _ _ E) in Hx. apply Hb. by exists x.
  - rewrite (insert_simplex_fresh _ _ _ E) in Hx.
    destruct (decide ((list_to_set vs : gset Z) = K)) as [<-|Hne].
    + pose proof (size_list_to_set_le vs). lia.
    + rewrite lookup_insert_ne in Hx by done. apply Hb. by exists x.
Qed.

Lemma for_loop_run_bounded N alpha2 dim nr l_it simplex sc wba res :
  for_loop_run alpha2 dim nr l_it simplex sc wba res →
  (length simplex + Z.to_nat dim + 1 ≤ N)%nat →
  bounded_size N sc → bounded_size N res.1.2.
Proof.
  induction 1; simpl in *; intros Hlen Hb; auto.
  - apply IHfor_loop_run3; [done|]. apply IHfor_loop_run2; [done|].
    apply IHfor_loop_run1; [|done]. rewrite length_app. simpl. lia.
  - apply IHfor_loop_run; [done|]. apply insert_simplex_bounded; [|done].
    rewrite length_app. simpl. lia.
Qed.

Lemma witness_loop_bounded N k alpha2 aws : ∀ sc,
  (Z.to_nat k + 1 ≤ N)%nat →
  bounded_size N sc → bounded_size N (witness_loop k alpha2 aws sc).1.2.
Proof.
  induction aws as [|aw rest IH]; intros sc Hk Hb; simpl; [done|].
  rewrite add_all_faces_of_dimension_for_loop.
  pose proof (for_loop_run_bounded N _ _ _ _ _ _ _ _
                (for_loop_run_complete alpha2 (nearest_landmark_table_ aw)
                   k infinity [] sc false) Hk Hb) as Hb1.
  destruct (for_loop k alpha2 infinity _ [] sc false) as [[ok sc1] t1].
  specialize (IH sc1 Hk Hb1).
  by destruct (witness_loop k alpha2 rest sc1) as [[rest' sc2] t2].
Qed.

Lemma dimension_loop_bounded limit alpha2 n : ∀ k aws sc,
  1 <= k →
  bounded_size (Z.to_nat k) sc →
  let res := dimension_loop n k limit alpha2 aws sc in
  bounded_size (Z.to_nat res.1.1.1) res.1.2.
Proof.
  induction n as [|n IH]; intros k aws sc Hk Hb; simpl; [done|].
  destruct aws as [|aw aws]; [done|].
  destruct (k <=? limit); [|done].
  pose proof (witness_loop_bounded (Z.to_nat (k + 1)) k alpha2 (aw :: aws) sc) as Hb'.
  destruct (witness_loop k alpha2 (aw :: aws) sc) as [[aws' sc'] t].
  specialize (IH (k + 1) aws' sc').
  destruct (dimension_loop n (k + 1) limit alpha2 aws' sc') as [[[k' aws''] sc''] t'].
  simpl in *. apply IH; [lia|]. apply Hb'; [lia|].
  eapply bounded_size_mono; [|exact Hb]. lia.
Qed.

Lemma seed_loop_bounded n : ∀ i sc,
  bounded_size 1 sc → bounded_size 1 (seed_loop n i sc).1.
Proof.
  induction n as [|n IH]; intros i sc Hb; simpl; [done|].
  specialize (IH (i + 1) (insert_simplex sc [i] 0)).
  destruct (seed_loop n (i + 1) (insert_simplex sc [i] 0)) as [sc' t]. simpl in *.
  apply IH. by apply insert_simplex_bounded.
Qed.

(** A well-formed complex without vertices is empty. *)
Lemma well_formed_no_vertex_empty sc K :
  well_formed sc → num_vertices sc = 0%nat → ¬ present sc K.
Proof.
  intros Hwf Hnv HK.
  assert (K ≠ ∅) as Hne.
  { intros ->. destruct HK as [x Hx]. rewrite (wf_nonempty _ Hwf) in Hx. done. }
  destruct (set_choose_L K Hne) as [v Hv].
  destruct (well_formed_downward_closed sc Hwf K {[v]} HK) as [x Hx].
  - intros y. rewrite elem_of_singleton. by intros ->.
  - intros Heq. apply (not_elem_of_empty (C:=gset Z) v). rewrite <- Heq.
    by apply elem_of_singleton.
  - rewrite (num_vertices_0_no_vertex sc v Hnv) in Hx. done.
Qed.

Lemma dimension_loop_counter limit alpha2 n : ∀ k aws sc,
  (dimension_loop n k limit alpha2 aws sc).1.1.1 <= Z.max k (limit + 1).
Proof.
  induction n as [|n IH]; intros k aws sc; simpl; [lia|].
  destruct aws as [|aw aws]; [simpl; lia|].
  destruct (k <=? limit) eqn:Hk; [|simpl; lia]. apply Z.leb_le in Hk.
  destruct (witness_loop k alpha2 (aw :: aws) sc) as [[aws' sc'] t].
  specialize (IH (k + 1) aws' sc').
  destruct (dimension_loop n (k + 1) limit alpha2 aws' sc') as [[[k' aws''] sc''] t'].
  simpl in *. lia.
Qed.

Lemma stored_mono sc sc' e :
  simplices sc ⊆ simplices sc' → stored sc e → stored sc' e.
Proof.
  intros Hsub. destruct e; try done. simpl. by apply subseteq_present.
Qed.

(** The simplices inserted by the loop are stored when it ends. *)
Lemma for_loop_run_stored alpha2 dim nr l_it simplex sc wba res :
  for_loop_run alpha2 dim nr l_it simplex sc wba res →
  Forall (stored res.1.2) res.2.
Proof.
  induction 1; simpl in *; split_Forall; try done.
  - eapply Forall_impl; [exact IHfor_loop_run1|]. intros e.
    apply stored_mono. etrans; [apply (for_loop_run_grows _ _ _ _ _ _ _ _ H3)|].
    apply (for_loop_run_grows _ _ _ _ _ _ _ _ H4).
  - eapply Forall_impl; [exact IHfor_loop_run2|]. intros e.
    apply stored_mono. apply (for_loop_run_grows _ _ _ _ _ _ _ _ H4).
  - eapply Forall_impl; [exact IHfor_loop_run1|]. intros e.
    apply stored_mono. apply (for_loop_run_grows _ _ _ _ _ _ _ _ H3).
  - eapply all_faces_in_trace_no_insert; [eassumption|done].
  - simpl. eapply subseteq_present; [apply (for_loop_run_grows _ _ _ _ _ _ _ _ H1)|].
    apply insert_simplex_lookup.
  - eapply all_faces_in_trace_no_insert; [eassumption|done].
Qed.

(** A pass that leaves a witness active has stored a simplex with [k + 1]
    vertices, when the rankings name each landmark at most once. *)
Lemma witness_loop_productive k alpha2 aws : ∀ sc,
  0 <= k →
  (∀ aw, aw ∈ aws → NoDup (nearest_landmark_table_ aw).*1) →
  (witness_loop k alpha2 aws sc).1.1 ≠ [] →
  ∃ K : gset Z, present (witness_loop k alpha2 aws sc).1.2 K ∧
                Z.of_nat (size K) = k + 1.
Proof.
  induction aws as [|aw rest IH]; intros sc Hk Hnd; simpl; [done|].
  rewrite add_all_faces_of_dimension_for_loop.
  pose proof (for_loop_run_complete alpha2 (nearest_landmark_table_ aw) k infinity []
                sc false) as Hrun.
  pose proof (for_loop_run_returns _ _ _ _ _ _ _ _ Hrun) as Hret.
  pose proof (for_loop_run_stored _ _ _ _ _ _ _ _ Hrun) as Hstored.
  pose proof (for_loop_run_length _ _ _ _ _ _ _ _ Hrun) as Hlen.
  pose proof (for_loop_run_from_ranking _ _ _ _ _ _ _ _ Hrun) as Hrank.
  destruct (for_loop k alpha2 infinity _ [] sc false) as [[ok sc1] t1].
  pose proof (witness_loop_grows k alpha2 rest sc1) as [Hgrow _].
  specialize (IH sc1 Hk (λ aw' Hin, Hnd aw' (list_elem_of_further _ _ _ Hin))).
  destruct (witness_loop k alpha2 rest sc1) as [[rest' sc2] t2].
  simpl in *. destruct ok; [|exact IH]. intros _.
  symmetry in Hret. apply existsb_exists in Hret as (e & Hin & He).
  apply list_elem_of_In in Hin.
  rewrite Forall_forall in Hstored, Hlen, Hrank.
  specialize (Hstored e Hin). specialize (Hlen e Hin). specialize (Hrank e Hin).
  destruct e as [| | |s vs d nr fv| |]; try done.
  unfold from_ranking in Hrank. simpl in *.
  exists (list_to_set vs). split; [by eapply subseteq_present|].
  rewrite size_list_to_set, Hlen; [lia|].
  eapply sublist_NoDup; [|exact Hrank]. apply Hnd. by left.
Qed.

Lemma dimension_loop_counter_ge limit alpha2 n : ∀ k aws sc,
  k <= (dimension_loop n k limit alpha2 aws sc).1.1.1.
Proof.
  induction n as [|n IH]; intros k aws sc; simpl; [lia|].
  destruct aws as [|aw aws]; [simpl; lia|].
  destruct (k <=? limit); [|simpl; lia].
  destruct (witness_loop k alpha2 (aw :: aws) sc) as [[aws' sc'] t].
  specialize (IH (k + 1) aws' sc').
  destruct (dimension_loop n (k + 1) limit alpha2 aws' sc') as [[[k' aws''] sc''] t'].
  simpl in *. lia.
Qed.

(** The loop over the dimensions changes nothing when the counter does not
    move. *)
Lemma dimension_loop_idle limit alpha2 n k aws sc :
  (dimension_loop n k limit alpha2 aws sc).1.1.1 = k →
  (dimension_loop n k limit alpha2 aws sc).1.1.2 = aws ∧
  (dimension_loop n k limit alpha2 aws sc).1.2 = sc.
Proof.
  destruct n as [|n]; simpl; [done|].
  destruct aws as [|aw aws]; [done|].
  destruct (k <=? limit) eqn:Hk; [|done].
  destruct (witness_loop k alpha2 (aw :: aws) sc) as [[aws' sc'] t].
  pose proof (dimension_loop_counter_ge limit alpha2 n (k + 1) aws' sc') as Hge.
  destruct (dimension_loop n (k + 1) limit alpha2 aws' sc') as [[[k' aws''] sc''] t'].
  simpl in *. lia.
Qed.

(** When the loop over the dimensions ends with a witness still active after
    at least one pass, a simplex whose dimension is the last dimension
    processed is stored. *)
Lemma dimension_loop_productive limit alpha2 n : ∀ k aws sc,
  1 <= k →
  (∀ aw, aw ∈ aws → NoDup (nearest_landmark_table_ aw).*1) →
  let res := dimension_loop n k limit alpha2 aws sc in
  res.1.1.2 ≠ [] → k < res.1.1.1 →
  ∃ K : gset Z, present res.1.2 K ∧ Z.of_nat (size K) = res.1.1.1.
Proof.
  induction n as [|n IH]; intros k aws sc Hk Hnd; simpl; [lia|].
  destruct aws as [|aw aws]; [done|].
  destruct (k <=? limit) eqn:Hkl; [|simpl; lia].
  pose proof (witness_loop_productive k alpha2 (aw :: aws) sc ltac:(lia) Hnd) as Hprod.
  pose proof (witness_loop_sublist k alpha2 (aw :: aws) sc) as Hsub.
  destruct (witness_loop k alpha2 (aw :: aws) sc) as [[aws' sc'] t].
  pose proof (dimension_loop_counter_ge limit alpha2 n (k + 1) aws' sc') as Hge.
  pose proof (dimension_loop_idle limit alpha2 n (k + 1) aws' sc') as Hidle.
  specialize (IH (k + 1) aws' sc' ltac:(lia)).
  destruct (dimension_loop n (k + 1) limit alpha2 aws' sc') as [[[k' aws''] sc''] t'].
  simpl in *. intros Hact _.
  destruct (decide (k' = k + 1)) as [->|Hne].
  - destruct (Hidle eq_refl) as [-> ->]. by apply Hprod.
  - apply IH; [|done|lia].
    intros aw' Hin. apply Hnd. eapply elem_of_sublist; eauto.
Qed.

(** A loop that makes no insertion leaves the complex as it is. *)
Lemma for_loop_run_no_insert alpha2 dim nr l_it simplex sc wba res :
  for_loop_run alpha2 dim nr l_it simplex sc wba res →
  existsb is_insert res.2 = false → res.1.2 = sc.
Proof.
  induction 1; simpl in *; try done.
  - rewrite !existsb_app, !orb_false_iff. intros (H1' & H2' & H3').
    rewrite IHfor_loop_run3, IHfor_loop_run2, IHfor_loop_run1; done.
  - rewrite !existsb_app, !orb_false_iff. intros (H2' & H3').
    rewrite IHfor_loop_run2, IHfor_loop_run1; done.
  - rewrite !existsb_app. simpl. rewrite orb_true_r. done.
  - rewrite !existsb_app, !orb_false_iff. intros (_ & H3'). by apply IHfor_loop_run.
Qed.

(** A pass after which no witness is active has inserted nothing. *)
Lemma witness_loop_fruitless k alpha2 aws : ∀ sc,
  (witness_loop k alpha2 aws sc).1.1 = [] →
  (witness_loop k alpha2 aws sc).1.2 = sc.
Proof.
  induction aws as [|aw rest IH]; intros sc; simpl; [done|].
  rewrite add_all_faces_of_dimension_for_loop.
  pose proof (for_loop_run_complete alpha2 (nearest_landmark_table_ aw) k infinity []
                sc false) as Hrun.
  pose proof (for_loop_run_returns _ _ _ _ _ _ _ _ Hrun) as Hret.
  pose proof (for_loop_run_no_insert _ _ _ _ _ _ _ _ Hrun) as Hsame.
  destruct (for_loop k alpha2 infinity _ [] sc false) as [[ok sc1] t1].
  specialize (IH sc1).
  destruct (witness_loop k alpha2 rest sc1) as [[rest' sc2] t2].
  simpl in *. destruct ok; [done|]. intros Hrest.
  rewrite (IH Hrest). apply Hsame. by rewrite <- Hret.
Qed.

(** When the loop over the dimensions ends, after at least one pass, because
    no witness is active, its last pass has inserted nothing: every stored
    simplex has fewer vertices than the final value of the counter. *)
Lemma dimension_loop_fruitless limit alpha2 n : ∀ k aws sc,
  1 <= k →
  bounded_size (Z.to_nat k) sc →
  let res := dimension_loop n k limit alpha2 aws sc in
  res.1.1.2 = [] → k < res.1.1.1 →
  bounded_size (Z.to_nat (res.1.1.1 - 1)) res.1.2.
Proof.
  induction n as [|n IH]; intros k aws sc Hk Hb; simpl; [intros; lia|].
  destruct aws as [|aw aws]; [simpl; intros; lia|].
  destruct (k <=? limit) eqn:Hkl; [|simpl; intros; lia].
  assert (bounded_size (Z.to_nat (k + 1)) sc) as Hb0
    by (eapply bounded_size_mono; [|exact Hb]; lia).
  pose proof (witness_loop_bounded (Z.to_nat (k + 1)) k alpha2 (aw :: aws) sc
                ltac:(lia) Hb0) as Hb'.
  pose proof (witness_loop_fruitless k alpha2 (aw :: aws) sc) as Hfruit.
  destruct (witness_loop k alpha2 (aw :: aws) sc) as [[aws' sc'] t].
  pose proof (dimension_loop_counter_ge limit alpha2 n (k + 1) aws' sc') as Hge.
  pose proof (dimension_loop_idle limit alpha2 n (k + 1) aws' sc') as Hidle.
  specialize (IH (k + 1) aws' sc' ltac:(lia) Hb').
  destruct (dimension_loop n (k + 1) limit alpha2 aws' sc') as [[[k' aws''] sc''] t'].
  simpl in *. intros -> _.
  destruct (decide (k' = k + 1)) as [->|Hne].
  - destruct (Hidle eq_refl) as [<- ->]. rewrite (Hfruit eq_refl).
    by replace (k + 1 - 1) with k by lia.
  - apply IH; [done|lia].
Qed.

(** A witness whose ranking has a single entry contributes nothing at a
    positive dimension. *)
Lemma single_entry_call k alpha2 l sc :
  0 < k →
  add_all_faces_of_dimension k alpha2 infinity [l] [] sc
  = (false, sc, [Push k [] l alpha2 infinity; Find [l.1]]).
Proof.
  intros Hk. rewrite add_all_faces_of_dimension_for_loop.
  rewrite for_loop_eq_positive by done. cbv zeta.
  rewrite !add_all_faces_of_dimension_for_loop. simpl.
  by destruct (find sc [l.1]).
Qed.

Lemma single_entry_pass k alpha2 aws : ∀ sc,
  0 < k →
  (∀ aw, aw ∈ aws → length (nearest_landmark_table_ aw) = 1%nat) →
  (witness_loop k alpha2 aws sc).1.1 = [] ∧ (witness_loop k alpha2 aws sc).1.2 = sc.
Proof.
  induction aws as [|aw rest IH]; intros sc Hk Hlen; simpl; [done|].
  pose proof (Hlen aw (list_elem_of_here _ _)) as Haw.
  destruct (nearest_landmark_table_ aw) as [|l [|l' ls]]; try done.
  rewrite single_entry_call by done.
  specialize (IH sc Hk (λ aw' Hin, Hlen aw' (list_elem_of_further _ _ _ Hin))).
  by destruct (witness_loop k alpha2 rest sc) as [[rest' sc2] t2].
Qed.

Lemma single_entry_loop limit alpha2 n aws sc :
  1 <= limit →
  (∀ aw, aw ∈ aws → length (nearest_landmark_table_ aw) = 1%nat) →
  aws ≠ [] →
  (dimension_loop (S n) 1 limit alpha2 aws sc).1.1.1 = 2 ∧
  (dimension_loop (S n) 1 limit alpha2 aws sc).1.2 = sc.
Proof.
  intros Hl Hlen Hne. cbn [dimension_loop].
  destruct aws as [|aw aws]; [done|].
  destruct (1 <=? limit) eqn:E; [|apply Z.leb_gt in E; lia].
  destruct (single_entry_pass 1 alpha2 (aw :: aws) sc ltac:(lia) Hlen) as [H1 H2].
  destruct (witness_loop 1 alpha2 (aw :: aws) sc) as [[aws' sc'] t].
  simpl in H1, H2. subst aws' sc'.
  by destruct n.
Qed.

(** C7 (as the code has it).  When [create_complex] returns successfully on
    a well-formed target complex, the loop over the dimensions has stopped
    because no witness is active any more or because the counter [k] passed
    [limit_dimension]; the last call is [set_dimension(k - 1)], with
    [0 <= k - 1 <= limit_dimension]; [k - 1] bounds the dimension of every
    simplex of the final complex from above; after at least one pass, it is
    the dimension of a stored simplex when the loop stops with a witness
    still active (and the rankings name each landmark at most once), and it
    is larger than the dimension of every stored simplex when the loop stops
    because no witness is active; with a single landmark (rankings of one
    entry) the final complex is the vertex [{0}] with filtration value 0
    while the declared dimension is 1 as soon as [limit_dimension >= 1]. *)
Theorem C7_declared_dimension wc sc max_alpha_square limit_dimension :
  well_formed sc →
  match create_complex wc sc max_alpha_square limit_dimension with
  | Some r =>
      if returned r then
        let k := (main_loop wc sc max_alpha_square limit_dimension).1.1.1 in
        let active_witnesses :=
          (main_loop wc sc max_alpha_square limit_dimension).1.1.2 in
        (active_witnesses = [] ∨ limit_dimension < k) ∧
        1 <= k <= limit_dimension + 1 ∧
        (∃ t, calls r = t ++ [Set_dimension (k - 1)]) ∧
        dimension_ (complex r) = k - 1 ∧
        (∀ K : gset Z, present (complex r) K → Z.of_nat (size K) - 1 <= k - 1) ∧
        (active_witnesses ≠ [] → 1 <= k - 1 →
         (∀ w, w ∈ witnesses_ wc → NoDup w.*1) →
         ∃ K : gset Z, present (complex r) K ∧ Z.of_nat (size K) - 1 = k - 1) ∧
        (active_witnesses = [] → 1 <= k - 1 →
         ∀ K : gset Z, present (complex r) K → Z.of_nat (size K) - 1 < k - 1) ∧
        (nbL wc = 1%nat → (∀ w, w ∈ witnesses_ wc → length w = 1%nat) →
         1 <= limit_dimension →
         simplices (complex r) = {[ ({[0]} : gset Z) := 0 ]} ∧ k - 1 = 1)
      else True
  | None => True
  end.
Proof.
  intros Hwf.
  destruct (create_complex_cases wc sc max_alpha_square limit_dimension)
    as [[Hpre ->]|[(Hpre & Hws & ->)|(Hpre & Hws & ->)]]; simpl; [done..|].
  destruct Hpre as (Hnv & Ha & Hl). unfold main_loop.
  set (aws := make_active_witnesses (witnesses_ wc)).
  set (sc1 := (seed_loop (nbL wc) 0 sc).1).
  pose proof (dimension_loop_exit limit_dimension max_alpha_square
                (Z.to_nat limit_dimension) 1 aws sc1 ltac:(lia)) as [Hexit Hge].
  pose proof (dimension_loop_counter limit_dimension max_alpha_square
                (Z.to_nat limit_dimension) 1 aws sc1) as Hle.
  pose proof (dimension_loop_bounded limit_dimension max_alpha_square
                (Z.to_nat limit_dimension) 1 aws sc1 ltac:(lia)) as Hb.
  pose proof (dimension_loop_productive limit_dimension max_alpha_square
                (Z.to_nat limit_dimension) 1 aws sc1 ltac:(lia)) as Hprod.
  pose proof (dimension_loop_fruitless limit_dimension max_alpha_square
                (Z.to_nat limit_dimension) 1 aws sc1 ltac:(lia)) as Hfruit.
  simpl in Hexit, Hge, Hb, Hprod, Hfruit.
  assert (bounded_size 1 sc1) as Hb1.
  { apply seed_loop_bounded.
    intros K' HK'. by apply (well_formed_no_vertex_empty sc K') in HK'. }
  assert (simplices sc = ∅) as Hempty.
  { apply map_empty. intros K.
    destruct (simplices sc !! K) as [x|] eqn:E; [|done].
    exfalso. apply (well_formed_no_vertex_empty sc K Hwf Hnv). by exists x. }
  split; [done|]. split; [lia|]. split.
  { eexists. by rewrite (assoc_L (++)). }
  split; [done|]. split; [|split; [|split]].
  - intros K HK. unfold present in HK. simpl in HK.
    assert (size K ≤ Z.to_nat
              (dimension_loop (Z.to_nat limit_dimension) 1 limit_dimension
                 max_alpha_square aws sc1).1.1.1)%nat; [|lia].
    by apply Hb.
  - intros Hact Hk Hnd.
    destruct Hprod as (K & HK & Hsize); [|done|lia|].
    + intros aw Haw. apply Hnd. by apply make_active_witnesses_table.
    + exists K. split; [exact HK|lia].
  - intros Hact Hk K HK. unfold present in HK. simpl in HK.
    assert (size K ≤ Z.to_nat
              ((dimension_loop (Z.to_nat limit_dimension) 1 limit_dimension
                  max_alpha_square aws sc1).1.1.1 - 1))%nat; [|lia].
    apply Hfruit; [done|done|lia|done].
  - intros HnbL Hlen Hlim.
    destruct (Z.to_nat limit_dimension) as [|n] eqn:En; [lia|].
    destruct (single_entry_loop limit_dimension max_alpha_square n aws sc1 Hlim)
      as [-> ->].
    + intros aw Haw. apply Hlen. by apply make_active_witnesses_table.
    + subst aws. unfold make_active_witnesses.
      destruct (witnesses_ wc); [done|]. done.
    + split; [|done]. subst sc1. rewrite HnbL. simpl.
      unfold insert_simplex. rewrite Hempty, lookup_empty. simpl.
      by rewrite (right_id_L ∅ (∪)), insert_empty.
Qed.

(** ** Order of the vertices in the lists passed to the complex *)

Lemma Forall_canonicalb t : Forall canonical t → forallb canonicalb t = true.
Proof.
  induction 1 as [|e t He _ IH]; [done|]. simpl. rewrite IH, andb_true_r.
  unfold canonical, canonicalb in *. by destruct (vertex_list e).
Qed.

Lemma seed_loop_singletons n : ∀ i sc,
  Forall (λ e, ∃ s j, e = Seed s [j] 0) (seed_loop n i sc).2.
Proof.
  induction n as [|n IH]; intros i sc; simpl; [done|].
  specialize (IH (i + 1) (insert_simplex sc [i] 0)).
  destruct (seed_loop n (i + 1) (insert_simplex sc [i] 0)) as [sc' t]. simpl in *.
  constructor; eauto.
Qed.

(** C8 (as the code has it).  In every run of [create_complex], each vertex
    list passed to [find] or [insert_simplex] is a seed [{i}] or lists
    landmark ids of one witness's nearest-landmark ranking in the order of
    that ranking (increasing distance, not increasing id); its ids are
    pairwise distinct whenever every ranking names each landmark at most
    once. *)
Theorem C8_ranking_order wc sc max_alpha_square limit_dimension :
  match create_complex wc sc max_alpha_square limit_dimension with
  | Some r =>
      Forall (in_ranking_order wc) (calls r) ∧
      ((∀ w, w ∈ witnesses_ wc → NoDup w.*1) → Forall distinct_ids (calls r))
  | None => True
  end.
Proof.
  destruct (create_complex_cases wc sc max_alpha_square limit_dimension)
    as [[Hpre ->]|[(Hpre & Hws & ->)|(Hpre & Hws & ->)]]; simpl; [done..|].
  assert (Forall (in_ranking_order wc)
            ((seed_loop (nbL wc) 0 sc).2 ++
             (main_loop wc sc max_alpha_square limit_dimension).2 ++
             [Set_dimension ((main_loop wc sc max_alpha_square limit_dimension).1.1.1 - 1)]))
    as Horder.
  { split_Forall; [| |done].
    - eapply Forall_impl; [apply seed_loop_singletons|].
      intros e (s & j & ->). left. by exists j.
    - apply dimension_loop_events; [done|].
      intros aw k' sc0 _ Haw. apply add_all_faces_of_dimension_events.
      intros res Hrun. eapply Forall_impl; [by eapply for_loop_run_from_ranking|].
      intros e He. unfold from_ranking, in_ranking_order in *.
      destruct (vertex_list e) as [vs|]; [|done]. right.
      exists (nearest_landmark_table_ aw). split; [|done].
      by apply make_active_witnesses_table. }
  split; [done|]. intros Hnd.
  eapply Forall_impl; [exact Horder|]. intros e. unfold in_ranking_order, distinct_ids.
  destruct (vertex_list e) as [vs|]; [|done].
  intros [[i ->]|(w & Hw & Hsub)].
  - apply NoDup_singleton.
  - eapply sublist_NoDup; [|exact Hsub]. by apply Hnd.
Qed.

(** ** Relaxation *)

Lemma contained_refl sc : contained sc sc.
Proof. by intros K. Qed.

Lemma contained_grows sa sb sb' :
  contained sa sb → simplices sb ⊆ simplices sb' → contained sa sb'.
Proof. intros H1 H2 K HK. eapply subseteq_present; eauto. Qed.

Lemma contained_insert sa sb vs fa fb :
  contained sa sb → contained (insert_simplex sa vs fa) (insert_simplex sb vs fb).
Proof.
  intros Hc K [x Hx].
  destruct (simplices sa !! (list_to_set vs : gset Z)) as [fv0|] eqn:E.
  - rewrite (insert_simplex_present _ _ _ _ E) in Hx.
    eapply subseteq_present; [apply insert_simplex_subseteq|]. apply Hc. by exists x.
  - rewrite (insert_simplex_fresh _ _ _ E) in Hx.
    destruct (decide ((list_to_set vs : gset Z) = K)) as [<-|Hne].
    + apply insert_simplex_lookup.
    + rewrite lookup_insert_ne in Hx by done.
      eapply subseteq_present; [apply insert_simplex_subseteq|]. apply Hc. by exists x.
Qed.

Lemma contained_find sa sb vs :
  contained sa sb → is_Some (find sa vs) → is_Some (find sb vs).
Proof. rewrite !find_is_Some. auto. Qed.

Lemma le_double_relax d a1 a2 nr :
  a1 <= a2 → le_double (d - a1) nr = true → le_double (d - a2) nr = true.
Proof.
  destruct nr as [n|]; simpl; [|done]. rewrite !Z.leb_le. lia.
Qed.

(** With a larger relaxation the loop inserts at least the same simplices
    and returns [true] whenever it did with the smaller one. *)
Lemma for_loop_relax a1 a2 l_it :
  a1 <= a2 →
  ∀ dim nr simplex sa sb wa wb,
    contained sa sb → (wa = true → wb = true) →
    contained (for_loop dim a1 nr l_it simplex sa wa).1.2
              (for_loop dim a2 nr l_it simplex sb wb).1.2 ∧
    ((for_loop dim a1 nr l_it simplex sa wa).1.1 = true →
     (for_loop dim a2 nr l_it simplex sb wb).1.1 = true).
Proof.
  intros Ha. induction l_it as [|l next_it IH]; intros dim nr simplex sa sb wa wb Hc Hw.
  { done. }
  assert (le_double (l.2 - a1) nr = false →
          contained (wa, sa, @nil event).1.2
            (for_loop dim a2 nr (l :: next_it) simplex sb wb).1.2 ∧
          ((wa, sa, @nil event).1.1 = true →
           (for_loop dim a2 nr (l :: next_it) simplex sb wb).1.1 = true)) as Hstop.
  { intros _. split.
    - eapply contained_grows; [exact Hc|apply for_loop_grows].
    - cbn [fst snd]. intros Hwa. rewrite for_loop_returns, (Hw Hwa). done. }
  destruct (Z.lt_trichotomy dim 0) as [Hdim|[->|Hdim]].
  - by rewrite !for_loop_eq_negative.
  - destruct (le_double (l.2 - a1) nr) eqn:H1.
    2:{ rewrite (for_loop_eq_stop 0 a1) by done. by apply Hstop. }
    pose proof (le_double_relax _ _ _ _ Ha H1) as H2.
    rewrite !for_loop_eq_zero by done. cbv zeta.
    destruct (all_faces_in (simplex ++ [l.1]) (excess l.2 nr) sa)
      as [[ba fa] ta] eqn:Ea.
    destruct (all_faces_in (simplex ++ [l.1]) (excess l.2 nr) sb)
      as [[bb fb] tb] eqn:Eb.
    cbn [fst snd].
    apply IH.
    + destruct ba, bb.
      * by apply contained_insert.
      * exfalso. apply all_faces_in_true in Ea as [_ Hall].
        apply all_faces_in_false in Eb as (i & Hi & Hnone).
        destruct (contained_find sa sb _ Hc (Hall i Hi)) as [sh Hsh]. congruence.
      * eapply contained_grows; [exact Hc|apply insert_simplex_subseteq].
      * done.
    + destruct ba, bb; try done.
      exfalso. apply all_faces_in_true in Ea as [_ Hall].
      apply all_faces_in_false in Eb as (i & Hi & Hnone).
      destruct (contained_find sa sb _ Hc (Hall i Hi)) as [sh Hsh]. congruence.
  - destruct (le_double (l.2 - a1) nr) eqn:H1.
    2:{ rewrite (for_loop_eq_stop dim a1) by done. by apply Hstop. }
    pose proof (le_double_relax _ _ _ _ Ha H1) as H2.
    rewrite !for_loop_eq_positive by done. cbv zeta.
    rewrite !add_all_faces_of_dimension_for_loop.
    set (c1a := match find sa (simplex ++ [l.1]) with
                | Some _ => for_loop (dim - 1) a1 nr next_it (simplex ++ [l.1]) sa false
                | None => (false, sa, [])
                end).
    set (c1b := match find sb (simplex ++ [l.1]) with
                | Some _ => for_loop (dim - 1) a2 nr next_it (simplex ++ [l.1]) sb false
                | None => (false, sb, [])
                end).
    assert (contained c1a.1.2 c1b.1.2 ∧ (c1a.1.1 = true → c1b.1.1 = true)) as [Hc1 Hw1].
    { subst c1a c1b.
      destruct (find sa (simplex ++ [l.1])) as [sha|] eqn:Efa,
               (find sb (simplex ++ [l.1])) as [shb|] eqn:Efb.
      - by apply IH.
      - exfalso. destruct (contained_find sa sb (simplex ++ [l.1]) Hc) as [sh Hsh];
          [by rewrite Efa|congruence].
      - split; [|done]. eapply contained_grows; [exact Hc|apply for_loop_grows].
      - done. }
    destruct (IH dim (tighten_le l.2 nr) simplex c1a.1.2 c1b.1.2 false false Hc1)
      as [Hc2 Hw2]; [done|].
    cbn [fst snd]. apply IH; [done|].
    intros Hor. apply orb_true_iff in Hor as [Hr2|Hor].
    { by rewrite (Hw2 Hr2). }
    apply orb_true_iff in Hor as [Hr1|Hwa].
    + rewrite (Hw1 Hr1). by rewrite orb_true_r.
    + rewrite (Hw Hwa). by rewrite !orb_true_r.
Qed.

Lemma witness_loop_relax a1 a2 k aws_a aws_b :
  a1 <= a2 →
  aws_a `sublist_of` aws_b →
  ∀ sa sb, contained sa sb →
    (witness_loop k a1 aws_a sa).1.1 `sublist_of` (witness_loop k a2 aws_b sb).1.1 ∧
    contained (witness_loop k a1 aws_a sa).1.2 (witness_loop k a2 aws_b sb).1.2.
Proof.
  intros Ha. induction 1 as [|aw aws_a aws_b Hsub IH|aw aws_a aws_b Hsub IH];
    intros sa sb Hc; simpl.
  - done.
  - rewrite !add_all_faces_of_dimension_for_loop.
    destruct (for_loop_relax a1 a2 (nearest_landmark_table_ aw) Ha k infinity []
                sa sb false false Hc) as [Hc1 Hw1]; [done|].
    destruct (for_loop k a1 infinity _ [] sa false) as [[oka sa1] ta1].
    destruct (for_loop k a2 infinity _ [] sb false) as [[okb sb1] tb1].
    simpl in *. destruct (IH sa1 sb1 Hc1) as [Hs2 Hc2].
    destruct (witness_loop k a1 aws_a sa1) as [[ra sa2] ta2].
    destruct (witness_loop k a2 aws_b sb1) as [[rb sb2] tb2].
    simpl in *. split; [|done].
    destruct oka.
    + rewrite Hw1 by done. by apply sublist_skip.
    + destruct okb; [by apply sublist_cons|done].
  - rewrite add_all_faces_of_dimension_for_loop.
    pose proof (for_loop_grows k a2 infinity (nearest_landmark_table_ aw) [] sb false)
      as Hgrow.
    destruct (for_loop k a2 infinity _ [] sb false) as [[okb sb1] tb1].
    simpl in *.
    destruct (IH sa sb1 (contained_grows _ _ _ Hc Hgrow)) as [Hs2 Hc2].
    destruct (witness_loop k a2 aws_b sb1) as [[rb sb2] tb2].
    simpl in *. split; [|done].
    destruct okb; [by apply sublist_cons|done].
Qed.

Lemma dimension_loop_relax a1 a2 limit n :
  a1 <= a2 →
  ∀ k aws_a aws_b sa sb,
    aws_a `sublist_of` aws_b → contained sa sb →
    contained (dimension_loop n k limit a1 aws_a sa).1.2
              (dimension_loop n k limit a2 aws_b sb).1.2.
Proof.
  intros Ha. induction n as [|n IH]; intros k aws_a aws_b sa sb Hsub Hc; [done|].
  destruct aws_a as [|aw aws_a].
  { eapply contained_grows; [exact Hc|apply dimension_loop_grows]. }
  destruct aws_b as [|aw' aws_b]; [by apply sublist_nil_r in Hsub|].
  cbn [dimension_loop]. destruct (k <=? limit); [|done].
  destruct (witness_loop_relax a1 a2 k (aw :: aws_a) (aw' :: aws_b) Ha Hsub sa sb Hc)
    as [Hs1 Hc1].
  destruct (witness_loop k a1 (aw :: aws_a) sa) as [[ra sa1] ta1].
  destruct (witness_loop k a2 (aw' :: aws_b) sb) as [[rb sb1] tb1].
  cbn [fst snd] in *. specialize (IH (k + 1) ra rb sa1 sb1 Hs1 Hc1).
  destruct (dimension_loop n (k + 1) limit a1 ra sa1) as [[[ka ra'] sa2] ta2].
  by destruct (dimension_loop n (k + 1) limit a2 rb sb1) as [[[kb rb'] sb2] tb2].
Qed.


(** ** Concrete runs *)

Example demo_run_alpha_0 :
  (λ r, (returned r, dimension_ (complex r), highest_dimension (complex r)))
    <$> create_complex demo_wc empty_complex 0 3 = Some (true, 2, 1).
Proof. vm_compute. reflexivity. Qed.

Example demo_edges_alpha_0 :
  (λ vs, lookup_simplex (create_complex demo_wc empty_complex 0 3) vs)
    <$> [[0]; [1]; [2]; [0; 1]; [0; 2]; [1; 2]; [0; 1; 2]]
  = [Some 0; Some 0; Some 0; Some 0; Some 0; None; None].
Proof. vm_compute. reflexivity. Qed.

Example demo_edges_alpha_8 :
  (λ vs, lookup_simplex (create_complex demo_wc empty_complex 8 3) vs)
    <$> [[0]; [1]; [2]; [0; 1]; [0; 2]; [1; 2]; [0; 1; 2]]
  = [Some 0; Some 0; Some 0; Some 0; Some 8; None; None].
Proof. vm_compute. reflexivity. Qed.

(** C7, counterexample: with a single landmark and one witness the run
    succeeds, the complex holds the vertex [{0}] with filtration value 0 and
    nothing else (highest dimension 0), and the declared dimension is 1. *)
Lemma C7_counterexample :
  match create_complex single_landmark_wc empty_complex 0 3 with
  | Some r =>
      returned r = true ∧
      simplices (complex r) !! ({[0]} : gset Z) = Some 0 ∧
      size (simplices (complex r)) = 1%nat ∧
      highest_dimension (complex r) = 0 ∧
      dimension_ (complex r) = 1
  | None => False
  end.
Proof. vm_compute. repeat split; reflexivity. Qed.

(** C8, counterexample: the witness ranks landmark 1 before landmark 0, and
    the list [1; 0] is passed to the complex. *)
Lemma C8_counterexample :
  match create_complex reversed_wc empty_complex 0 1 with
  | Some r => ¬ Forall canonical (calls r)
  | None => False
  end.
Proof.
  assert ((λ r, forallb canonicalb (calls r))
            <$> create_complex reversed_wc empty_complex 0 1 = Some false) as E
    by (vm_compute; reflexivity).
  destruct (create_complex reversed_wc empty_complex 0 1) as [r|]; [|done].
  injection E as E. intros H. apply Forall_canonicalb in H. congruence.
Qed.


(** ** The theorems at concrete inputs *)

(** C1 at the two-witness input with relaxation 0. *)
Lemma C1_witness :
  well_formed empty_complex ∧
  returned <$> create_complex demo_wc empty_complex 0 3 = Some true ∧
  match create_complex demo_wc empty_complex 0 3 with
  | Some r =>
      Forall proper_insert (calls r) ∧
      Forall facets_present (calls r) ∧
      downward_closed (complex r)
  | None => True
  end.
Proof.
  split; [exact well_formed_empty_complex|].
  split; [vm_compute; reflexivity|].
  apply (C1_downward_closure demo_wc empty_complex 0 3 well_formed_empty_complex).
Defined.

(** C2 at the two-witness input with relaxation 8. *)
Lemma C2_witness :
  well_formed empty_complex ∧
  returned <$> create_complex demo_wc empty_complex 8 3 = Some true ∧
  match create_complex demo_wc empty_complex 8 3 with
  | Some r => Forall insert_value (calls r) ∧ filtration_monotone (complex r)
  | None => True
  end.
Proof.
  split; [exact well_formed_empty_complex|].
  split; [vm_compute; reflexivity|].
  apply (C2_filtration_monotonicity demo_wc empty_complex 8 3 well_formed_empty_complex).
Defined.

(** C3 at a complex that already holds a vertex. *)
Lemma C3_witness :
  ((0 < num_vertices populated_complex)%nat ∨ 0 < 0 ∨ 3 < 0) ∧
  create_complex demo_wc populated_complex 0 3
  = Some {| returned := false; complex := populated_complex; calls := [] |}.
Proof.
  assert ((0 < num_vertices populated_complex)%nat ∨ 0 < 0 ∨ 3 < 0) as H.
  { left. vm_compute. lia. }
  split; [exact H|].
  apply (proj1 (C3_precondition_failure demo_wc populated_complex 0 3) H).
Defined.

(** C4 at the two-witness input. *)
Lemma C4_witness :
  returned <$> create_complex demo_wc empty_complex 0 3 = Some true ∧
  match create_complex demo_wc empty_complex 0 3 with
  | Some r =>
      if returned r then
        (∃ t0 t1, calls r = t0 ++ t1 ∧
           Forall (λ e, is_seed e = true) t0 ∧
           seeds t0 = (λ i : nat, ([Z.of_nat i], 0)) <$> seq 0 (nbL demo_wc) ∧
           Forall (λ e, is_seed e = false) t1) ∧
        ∀ i, 0 <= i < Z.of_nat (nbL demo_wc) →
             simplices (complex r) !! ({[i]} : gset Z) = Some 0
      else True
  | None => True
  end.
Proof.
  split; [vm_compute; reflexivity|].
  apply (C4_dimension_0_completeness demo_wc empty_complex 0 3).
Defined.



(** C7 at the single-landmark input. *)
Lemma C7_witness :
  well_formed empty_complex ∧
  returned <$> create_complex single_landmark_wc empty_complex 0 3 = Some true ∧
  match create_complex single_landmark_wc empty_complex 0 3 with
  | Some r =>
      if returned r then
        let k := (main_loop single_landmark_wc empty_complex 0 3).1.1.1 in
        let active_witnesses := (main_loop single_landmark_wc empty_complex 0 3).1.1.2 in
        (active_witnesses = [] ∨ 3 < k) ∧
        1 <= k <= 3 + 1 ∧
        (∃ t, calls r = t ++ [Set_dimension (k - 1)]) ∧
        dimension_ (complex r) = k - 1 ∧
        (∀ K : gset Z, present (complex r) K → Z.of_nat (size K) - 1 <= k - 1) ∧
        (active_witnesses ≠ [] → 1 <= k - 1 →
         (∀ w, w ∈ witnesses_ single_landmark_wc → NoDup w.*1) →
         ∃ K : gset Z, present (complex r) K ∧ Z.of_nat (size K) - 1 = k - 1) ∧
        (active_witnesses = [] → 1 <= k - 1 →
         ∀ K : gset Z, present (complex r) K → Z.of_nat (size K) - 1 < k - 1) ∧
        (nbL single_landmark_wc = 1%nat →
         (∀ w, w ∈ witnesses_ single_landmark_wc → length w = 1%nat) →
         1 <= 3 →
         simplices (complex r) = {[ ({[0]} : gset Z) := 0 ]} ∧ k - 1 = 1)
      else True
  | None => True
  end.
Proof.
  split; [exact well_formed_empty_complex|].
  split; [vm_compute; reflexivity|].
  apply (C7_declared_dimension single_landmark_wc empty_complex 0 3
           well_formed_empty_complex).
Defined.

(** C8 at the input whose witness ranks landmark 1 first. *)
Lemma C8_witness :
  (∀ w, w ∈ witnesses_ reversed_wc → NoDup w.*1) ∧
  match create_complex reversed_wc empty_complex 0 1 with
  | Some r => Forall (in_ranking_order reversed_wc) (calls r) ∧ Forall distinct_ids (calls r)
  | None => True
  end.
Proof.
  assert (∀ w, w ∈ witnesses_ reversed_wc → NoDup w.*1) as Hnd.
  { intros w Hw. apply list_elem_of_singleton in Hw as ->. simpl.
    apply NoDup_cons. split; [|apply NoDup_singleton].
    intros Hin. by apply list_elem_of_singleton in Hin. }
  split; [exact Hnd|].
  pose proof (C8_ranking_order reversed_wc empty_complex 0 1) as H.
  destruct (create_complex reversed_wc empty_complex 0 1); [|exact I].
  destruct H as [H1 H2]. split; [exact H1|exact (H2 Hnd)].
Defined.


(** C10 at an input without witnesses. *)
Lemma C10_witness :
  (preconditions empty_complex 0 3 ∧ witnesses_ {| nbL := 2; witnesses_ := [] |} = []) ∧
  create_complex {| nbL := 2; witnesses_ := [] |} empty_complex 0 3 = None.
Proof.
  assert (preconditions empty_complex 0 3 ∧
          witnesses_ {| nbL := 2; witnesses_ := [] |} = []) as H.
  { split; [|reflexivity]. unfold preconditions.
    split; [vm_compute; reflexivity|lia]. }
  split; [exact H|].
  apply (proj2 (C10_front_of_empty_witness_list
                  {| nbL := 2; witnesses_ := [] |} empty_complex 0 3) H).
Defined.

(** * Further properties of the construction *)

(** ** Invariants of the complex through the loops *)

(** An invariant [I] of the complex that every call of line 153 keeps, while
    its events satisfy [P], is kept by a pass, whose events satisfy [P]. *)
Lemma witness_loop_invariant (I : Simplex_map → Prop) (P : event → Prop)
    k alpha2 aws :
  (∀ w ok, P (Witness w k ok)) →
  (∀ aw sc0, aw ∈ aws → I sc0 →
     I (add_all_faces_of_dimension k alpha2 infinity
          (nearest_landmark_table_ aw) [] sc0).1.2 ∧
     Forall P (add_all_faces_of_dimension k alpha2 infinity
                 (nearest_landmark_table_ aw) [] sc0).2) →
  ∀ sc, I sc →
    I (witness_loop k alpha2 aws sc).1.2 ∧ Forall P (witness_loop k alpha2 aws sc).2.
Proof.
  intros HW. induction aws as [|aw rest IH]; intros Hcall sc Hsc; simpl; [done|].
  pose proof (Hcall aw sc (list_elem_of_here _ _) Hsc) as [H1 H1'].
  destruct (add_all_faces_of_dimension k alpha2 infinity _ [] sc) as [[ok sc1] t1].
  assert (I (witness_loop k alpha2 rest sc1).1.2 ∧
          Forall P (witness_loop k alpha2 rest sc1).2) as [H2 H2'].
  { apply IH; [|done]. intros aw' sc0 Hin. apply Hcall. by apply list_elem_of_further. }
  destruct (witness_loop k alpha2 rest sc1) as [[rest' sc2] t2].
  simpl in *. split; [done|]. by split_Forall.
Qed.

Lemma dimension_loop_invariant (I : Simplex_map → Prop) (P : event → Prop)
    limit alpha2 n :
  ∀ k aws sc,
    (∀ w k' ok, k <= k' → P (Witness w k' ok)) →
    (∀ aw k' sc0, k <= k' → aw ∈ aws → I sc0 →
       I (add_all_faces_of_dimension k' alpha2 infinity
            (nearest_landmark_table_ aw) [] sc0).1.2 ∧
       Forall P (add_all_faces_of_dimension k' alpha2 infinity
                   (nearest_landmark_table_ aw) [] sc0).2) →
    I sc →
    I (dimension_loop n k limit alpha2 aws sc).1.2 ∧
    Forall P (dimension_loop n k limit alpha2 aws sc).2.
Proof.
  induction n as [|n IH]; intros k aws sc HW Hcall Hsc; simpl; [done|].
  destruct aws as [|aw aws]; [done|].
  destruct (k <=? limit); [|done].
  pose proof (witness_loop_invariant I P k alpha2 (aw :: aws)
                (λ w ok, HW w k ok (Z.le_refl k))
                (λ aw' sc0 Hin, Hcall aw' k sc0 (Z.le_refl k) Hin) sc Hsc)
    as [Hpass Hpass'].
  pose proof (witness_loop_sublist k alpha2 (aw :: aws) sc) as Hsub.
  destruct (witness_loop k alpha2 (aw :: aws) sc) as [[aws' sc'] t].
  assert (I (dimension_loop n (k + 1) limit alpha2 aws' sc').1.2 ∧
          Forall P (dimension_loop n (k + 1) limit alpha2 aws' sc').2) as [Hrest Hrest'].
  { apply IH; [| |done].
    - intros w k' ok Hk'. apply HW. lia.
    - intros aw' k' sc0 Hk' Hin. apply Hcall; [lia|].
      eapply elem_of_sublist; eauto. }
  destruct (dimension_loop n (k + 1) limit alpha2 aws' sc') as [[[k' aws''] sc''] t'].
  simpl in *. split; [done|]. by apply Forall_app_2.
Qed.

Lemma seed_loop_invariant (I : Simplex_map → Prop) n :
  (∀ sc i, I sc → I (insert_simplex sc [i] 0)) →
  ∀ i sc, I sc → I (seed_loop n i sc).1.
Proof.
  intros Hins. induction n as [|n IH]; intros i sc Hsc; simpl; [done|].
  specialize (IH (i + 1) (insert_simplex sc [i] 0) (Hins sc i Hsc)).
  by destruct (seed_loop n (i + 1) (insert_simplex sc [i] 0)) as [sc' t].
Qed.

Lemma well_formed_preconditions_empty sc max_alpha_square limit_dimension :
  well_formed sc → preconditions sc max_alpha_square limit_dimension →
  simplices sc = ∅.
Proof.
  intros Hwf (Hnv & _). apply map_empty. intros K.
  destruct (simplices sc !! K) as [x|] eqn:E; [|done].
  exfalso. apply (well_formed_no_vertex_empty sc K Hwf Hnv). by exists x.
Qed.

(** ** Filtration values lie between 0 and the relaxation *)

Lemma insert_simplex_values hi sc vs fv :
  values_within hi sc → 0 <= fv <= hi → values_within hi (insert_simplex sc vs fv).
Proof.
  intros Hsc Hfv K x Hx.
  destruct (simplices sc !! (list_to_set vs : gset Z)) as [fv0|] eqn:E.
  - rewrite (insert_simplex_present _ _ _ _ E) in Hx. by eapply Hsc.
  - rewrite (insert_simplex_fresh _ _ _ E) in Hx.
    destruct (decide ((list_to_set vs : gset Z) = K)) as [<-|Hne].
    + rewrite lookup_insert_eq in Hx. by injection Hx as <-.
    + rewrite lookup_insert_ne in Hx by done. by eapply Hsc.
Qed.

Lemma all_faces_in_within hi vs fv sc fv' t :
  values_within hi sc → 0 <= fv <= hi →
  all_faces_in vs fv sc = (true, fv', t) → 0 <= fv' <= hi.
Proof.
  intros Hsc Hfv H. apply all_faces_in_true in H as [-> _].
  destruct (foldl_max_greatest (facet_filtrations sc vs) fv) as [Hin _].
  apply elem_of_cons in Hin as [->|Hin]; [done|].
  apply list_elem_of_omap in Hin as (i & _ & Hi).
  destruct (find sc (delete i vs)) as [sh|] eqn:Hfind; [|done].
  injection Hi as Hi. rewrite <- Hi. apply find_Some in Hfind as [_ Hlook].
  by eapply Hsc.
Qed.

Lemma excess_within d alpha2 nr :
  0 <= alpha2 → le_double (d - alpha2) nr = true → 0 <= excess d nr <= alpha2.
Proof.
  intros Ha Hcond. split; [apply excess_nonneg|].
  destruct nr as [n|]; [|done]. rewrite excess_max. simpl in Hcond.
  apply Z.leb_le in Hcond. lia.
Qed.

Lemma for_loop_run_within alpha2 dim nr l_it simplex sc wba res :
  for_loop_run alpha2 dim nr l_it simplex sc wba res →
  0 <= alpha2 → values_within alpha2 sc →
  values_within alpha2 res.1.2 ∧ Forall (insert_within alpha2) res.2.
Proof.
  induction 1; simpl in *; intros Ha Hsc; try done.
  - destruct (IHfor_loop_run1 Ha Hsc) as [Hs1 Ht1].
    destruct (IHfor_loop_run2 Ha Hs1) as [Hs2 Ht2].
    destruct (IHfor_loop_run3 Ha Hs2) as [Hs3 Ht3].
    split; [done|]. by split_Forall.
  - destruct (IHfor_loop_run1 Ha Hsc) as [Hs2 Ht2].
    destruct (IHfor_loop_run2 Ha Hs2) as [Hs3 Ht3].
    split; [done|]. by split_Forall.
  - assert (0 <= fv <= alpha2) as Hfv.
    { eapply all_faces_in_within; [exact Hsc| |exact H0]. by apply excess_within. }
    destruct (IHfor_loop_run Ha (insert_simplex_values _ _ _ _ Hsc Hfv)) as [Hs3 Ht3].
    split; [done|]. split_Forall; try done.
    eapply all_faces_in_trace_no_insert; [eassumption|done].
  - destruct (IHfor_loop_run Ha Hsc) as [Hs3 Ht3].
    split; [done|]. split_Forall; try done.
    eapply all_faces_in_trace_no_insert; [eassumption|done].
Qed.

Lemma seed_loop_seeds_zero n : ∀ i sc,
  Forall (λ e, ∃ s vv, e = Seed s vv 0) (seed_loop n i sc).2.
Proof.
  induction n as [|n IH]; intros i sc; simpl; [done|].
  specialize (IH (i + 1) (insert_simplex sc [i] 0)).
  destruct (seed_loop n (i + 1) (insert_simplex sc [i] 0)) as [sc' t]. simpl in *.
  constructor; eauto.
Qed.


(** ** The length of the rankings bounds the construction *)

(** A loop started at a dimension that is at least the number of entries
    left in the ranking makes no insertion. *)
Lemma for_loop_run_short alpha2 dim nr l_it simplex sc wba res :
  for_loop_run alpha2 dim nr l_it simplex sc wba res →
  Z.of_nat (length l_it) <= dim →
  existsb is_insert res.2 = false.
Proof.
  induction 1; simpl in *; intros Hlen; try done; try lia.
  - rewrite !existsb_app, IHfor_loop_run1, IHfor_loop_run2, IHfor_loop_run3; [done|lia..].
  - rewrite !existsb_app, IHfor_loop_run1, IHfor_loop_run2; [done|lia..].
Qed.

Lemma add_all_faces_of_dimension_short k alpha2 nr curr_l simplex sc :
  Z.of_nat (length curr_l) <= k →
  (add_all_faces_of_dimension k alpha2 nr curr_l simplex sc).1 = (false, sc).
Proof.
  intros Hlen. rewrite add_all_faces_of_dimension_for_loop.
  pose proof (for_loop_run_complete alpha2 curr_l k nr simplex sc false) as Hrun.
  pose proof (for_loop_run_short _ _ _ _ _ _ _ _ Hrun Hlen) as Hnone.
  pose proof (for_loop_run_returns _ _ _ _ _ _ _ _ Hrun) as Hret.
  pose proof (for_loop_run_no_insert _ _ _ _ _ _ _ _ Hrun Hnone) as Hsame.
  destruct (for_loop k alpha2 nr curr_l simplex sc false) as [[ok sc1] t1].
  simpl in *. rewrite Hnone in Hret. by subst.
Qed.

Lemma witness_loop_short k alpha2 aws : ∀ sc,
  (∀ aw, aw ∈ aws → Z.of_nat (length (nearest_landmark_table_ aw)) <= k) →
  (witness_loop k alpha2 aws sc).1 = ([], sc).
Proof.
  induction aws as [|aw rest IH]; intros sc Hlen; simpl; [done|].
  pose proof (add_all_faces_of_dimension_short k alpha2 infinity
                (nearest_landmark_table_ aw) [] sc
                (Hlen aw (list_elem_of_here _ _))) as Hcall.
  destruct (add_all_faces_of_dimension k alpha2 infinity _ [] sc) as [[ok sc1] t1].
  simpl in Hcall. injection Hcall as -> ->.
  specialize (IH sc (λ aw' Hin, Hlen aw' (list_elem_of_further _ _ _ Hin))).
  destruct (witness_loop k alpha2 rest sc) as [[rest' sc2] t2].
  simpl in *. by injection IH as -> ->.
Qed.

Lemma dimension_loop_counter_ranking limit alpha2 (M : Z) n : ∀ k aws sc,
  (∀ aw, aw ∈ aws → Z.of_nat (length (nearest_landmark_table_ aw)) <= M) →
  (dimension_loop n k limit alpha2 aws sc).1.1.1 <= Z.max (k + 1) (M + 1).
Proof.
  induction n as [|n IH]; intros k aws sc Hlen; simpl; [lia|].
  destruct aws as [|aw aws]; [simpl; lia|].
  destruct (k <=? limit); [|simpl; lia].
  pose proof (witness_loop_short k alpha2 (aw :: aws) sc) as Hshort.
  pose proof (witness_loop_sublist k alpha2 (aw :: aws) sc) as Hsub.
  destruct (witness_loop k alpha2 (aw :: aws) sc) as [[aws' sc'] t].
  simpl in *.
  destruct (decide (M <= k)) as [HM|HM].
  - assert ((aws', sc') = ([], sc)) as Heq
      by (apply Hshort; intros aw' Hin; specialize (Hlen aw' Hin); lia).
    injection Heq as -> ->. destruct n; simpl; lia.
  - assert (∀ aw', aw' ∈ aws' →
              Z.of_nat (length (nearest_landmark_table_ aw')) <= M) as Hlen'.
    { intros aw' Hin. apply Hlen. eapply elem_of_sublist; eauto. }
    specialize (IH (k + 1) aws' sc' Hlen').
    destruct (dimension_loop n (k + 1) limit alpha2 aws' sc') as [[[k' aws''] sc''] t'].
    simpl in *. lia.
Qed.

Lemma for_loop_run_bounded_ranking N alpha2 dim nr l_it simplex sc wba res :
  for_loop_run alpha2 dim nr l_it simplex sc wba res →
  (length simplex + length l_it ≤ N)%nat →
  bounded_size N sc → bounded_size N res.1.2.
Proof.
  induction 1; simpl in *; intros Hlen Hb; auto.
  - apply IHfor_loop_run3; [lia|]. apply IHfor_loop_run2; [lia|].
    apply IHfor_loop_run1; [|done]. rewrite length_app. simpl. lia.
  - apply IHfor_loop_run2; [lia|]. apply IHfor_loop_run1; [lia|done].
  - apply IHfor_loop_run; [lia|]. apply insert_simplex_bounded; [|done].
    rewrite length_app. simpl. lia.
  - apply IHfor_loop_run; [lia|done].
Qed.

(** X2.  The rankings bound the construction whatever [limit_dimension] is:
    if no witness ranks more than [M] landmarks, a successful run of
    [create_complex] on a well-formed target complex declares a dimension of
    at most [max(1, M)] and stores no simplex with more than [max(1, M)]
    vertices. *)
Theorem X2_ranking_length_bound wc sc max_alpha_square limit_dimension (M : nat) :
  well_formed sc →
  (∀ w, w ∈ witnesses_ wc → (length w ≤ M)%nat) →
  match create_complex wc sc max_alpha_square limit_dimension with
  | Some r =>
      if returned r then
        dimension_ (complex r) <= Z.max 1 (Z.of_nat M) ∧
        bounded_size (max 1 M) (complex r)
      else True
  | None => True
  end.
Proof.
  intros Hwf HM.
  destruct (create_complex_cases wc sc max_alpha_square limit_dimension)
    as [[Hpre ->]|[(Hpre & Hws & ->)|(Hpre & Hws & ->)]]; simpl; [done..|].
  pose proof (well_formed_preconditions_empty _ _ _ Hwf Hpre) as Hempty.
  assert (∀ aw, aw ∈ make_active_witnesses (witnesses_ wc) →
            (length (nearest_landmark_table_ aw) ≤ M)%nat) as Hlen.
  { intros aw Haw. apply HM. by apply make_active_witnesses_table. }
  unfold main_loop. split.
  - pose proof (dimension_loop_counter_ranking limit_dimension max_alpha_square
                  (Z.of_nat M) (Z.to_nat limit_dimension) 1
                  (make_active_witnesses (witnesses_ wc))
                  (seed_loop (nbL wc) 0 sc).1) as Hk.
    cut (∀ x, x <= Z.max (1 + 1) (Z.of_nat M + 1) → x - 1 <= Z.max 1 (Z.of_nat M)).
    { intros Hcut. apply Hcut, Hk. intros aw Haw. specialize (Hlen aw Haw). lia. }
    intros x. lia.
  - intros K HK. unfold present in HK. simpl in HK.
    destruct (dimension_loop_invariant (bounded_size (max 1 M)) (λ _, True)
                limit_dimension max_alpha_square
                (Z.to_nat limit_dimension) 1 (make_active_witnesses (witnesses_ wc))
                (seed_loop (nbL wc) 0 sc).1) as [Hfinal _]; [done| | |by apply Hfinal].
    + intros aw k' sc0 _ Haw Hsc0. split.
      * rewrite add_all_faces_of_dimension_for_loop.
        eapply for_loop_run_bounded_ranking; [apply for_loop_run_complete| |done].
        specialize (Hlen aw Haw). simpl. lia.
      * apply Forall_forall. done.
    + eapply bounded_size_mono; [|apply seed_loop_bounded]; [lia|].
      intros K' [x Hx]. rewrite Hempty, lookup_empty in Hx. done.
Qed.

(** ** The vertices are the landmarks *)

(** An invariant of the complex kept by every insertion of line 229 whose
    facets are all stored is kept by the loop. *)
Lemma for_loop_run_invariant (I : Simplex_map → Prop) alpha2 :
  (∀ sc vs fv, I sc → (2 ≤ length vs)%nat →
     (∀ i, (i < length vs)%nat → present sc (list_to_set (delete i vs))) →
     I (insert_simplex sc vs fv)) →
  ∀ dim nr l_it simplex sc wba res,
    for_loop_run alpha2 dim nr l_it simplex sc wba res →
    (1 ≤ length simplex + Z.to_nat dim)%nat →
    I sc → I res.1.2.
Proof.
  intros Hins. induction 1; simpl in *; intros Hlen Hsc; auto.
  - apply IHfor_loop_run3; [lia|]. apply IHfor_loop_run2; [lia|].
    apply IHfor_loop_run1; [|done]. rewrite length_app. simpl. lia.
  - apply IHfor_loop_run; [lia|]. apply all_faces_in_true in H0 as [_ Hall].
    apply Hins; [done| |].
    + rewrite length_app. simpl. lia.
    + intros i Hi. apply find_is_Some. by apply Hall.
Qed.

Lemma elem_of_some_facet (vs : list Z) v :
  (2 ≤ length vs)%nat → v ∈ vs →
  ∃ i, (i < length vs)%nat ∧ v ∈ delete i vs.
Proof.
  intros Hlen Hv. apply list_elem_of_lookup in Hv as [j Hj].
  pose proof (lookup_lt_Some _ _ _ Hj) as Hlt.
  destruct j as [|j].
  - exists 1%nat. split; [lia|]. apply list_elem_of_lookup. exists 0%nat.
    rewrite list_lookup_delete_lt by lia. done.
  - exists 0%nat. split; [lia|]. apply list_elem_of_lookup. exists j.
    rewrite list_lookup_delete_ge by lia. done.
Qed.

Lemma insert_simplex_vertices_below N sc vs fv :
  vertices_below N sc → (2 ≤ length vs)%nat →
  (∀ i, (i < length vs)%nat → present sc (list_to_set (delete i vs))) →
  vertices_below N (insert_simplex sc vs fv).
Proof.
  intros Hsc Hlen Hfacets K v [x Hx] Hv.
  destruct (simplices sc !! (list_to_set vs : gset Z)) as [fv0|] eqn:E.
  - rewrite (insert_simplex_present _ _ _ _ E) in Hx. eapply Hsc; [by exists x|done].
  - rewrite (insert_simplex_fresh _ _ _ E) in Hx.
    destruct (decide ((list_to_set vs : gset Z) = K)) as [<-|Hne].
    + apply elem_of_list_to_set in Hv.
      destruct (elem_of_some_facet vs v Hlen Hv) as (i & Hi & Hin).
      eapply Hsc; [exact (Hfacets i Hi)|]. by apply elem_of_list_to_set.
    + rewrite lookup_insert_ne in Hx by done. eapply Hsc; [by exists x|done].
Qed.

Lemma seed_loop_vertices_below N n : ∀ i sc,
  0 <= i → (Z.to_nat i + n ≤ N)%nat →
  vertices_below N sc → vertices_below N (seed_loop n i sc).1.
Proof.
  induction n as [|n IH]; intros i sc Hi Hn Hsc; simpl; [done|].
  specialize (IH (i + 1) (insert_simplex sc [i] 0)).
  destruct (seed_loop n (i + 1) (insert_simplex sc [i] 0)) as [sc' t]. simpl in *.
  apply IH; [lia|lia|]. intros K v [x Hx] Hv.
  destruct (simplices sc !! (list_to_set [i] : gset Z)) as [fv0|] eqn:E.
  - rewrite (insert_simplex_present _ _ _ _ E) in Hx. eapply Hsc; [by exists x|done].
  - rewrite (insert_simplex_fresh _ _ _ E) in Hx.
    destruct (decide ((list_to_set [i] : gset Z) = K)) as [<-|Hne].
    + apply elem_of_list_to_set, list_elem_of_singleton in Hv. lia.
    + rewrite lookup_insert_ne in Hx by done. eapply Hsc; [by exists x|done].
Qed.

Lemma singletons_of_range (N : nat) (X : gset (gset Z)) :
  (∀ j, 0 <= j < Z.of_nat N → ({[j]} : gset Z) ∈ X) →
  (∀ K v, K ∈ X → v ∈ K → 0 <= v < Z.of_nat N) →
  size (filter (λ K : gset Z, size K = 1%nat) X) = N.
Proof.
  intros Hin Hrange.
  assert (filter (λ K : gset Z, size K = 1%nat) X
          = list_to_set ((λ j : nat, ({[Z.of_nat j]} : gset Z)) <$> seq 0 N)) as ->.
  { apply set_eq. intros K. rewrite elem_of_filter, elem_of_list_to_set, list_elem_of_fmap.
    split.
    - intros [Hsize HK]. apply size_1_elem_of in Hsize as [v Hv].
      apply leibniz_equiv in Hv. subst K.
      specialize (Hrange _ v HK (elem_of_singleton_2 _ _ eq_refl)).
      exists (Z.to_nat v). split; [f_equal; lia|]. apply elem_of_seq. lia.
    - intros (j & -> & Hj). apply elem_of_seq in Hj. split; [apply size_singleton|].
      apply Hin. lia. }
  rewrite size_list_to_set, length_fmap, length_seq; [done|].
  apply NoDup_fmap_2_strong; [|apply NoDup_seq].
  intros a b _ _ Hab.
  assert (Z.of_nat a ∈ ({[Z.of_nat b]} : gset Z)) as Hm
    by (rewrite <- Hab; by apply elem_of_singleton_2).
  apply elem_of_singleton_1 in Hm. lia.
Qed.

(** X3.  The vertices are the landmarks: after a successful run of
    [create_complex] on a well-formed target complex, every vertex of every
    stored simplex is a landmark id [0 <= v < nbL], also when the rankings
    name other ids, and the complex has exactly [nbL] vertices. *)
Theorem X3_vertices_are_landmarks wc sc max_alpha_square limit_dimension :
  well_formed sc →
  match create_complex wc sc max_alpha_square limit_dimension with
  | Some r =>
      if returned r then
        vertices_below (nbL wc) (complex r) ∧
        num_vertices (complex r) = nbL wc
      else True
  | None => True
  end.
Proof.
  intros Hwf.
  pose proof (create_complex_vertices wc sc max_alpha_square limit_dimension) as Hvert.
  destruct (create_complex_cases wc sc max_alpha_square limit_dimension)
    as [[Hpre ->]|[(Hpre & Hws & ->)|(Hpre & Hws & Heq)]]; simpl; [done..|].
  rewrite Heq in Hvert |- *. simpl.
  pose proof (well_formed_preconditions_empty _ _ _ Hwf Hpre) as Hempty.
  assert (vertices_below (nbL wc)
            (main_loop wc sc max_alpha_square limit_dimension).1.2) as Hbelow.
  { unfold main_loop.
    destruct (dimension_loop_invariant (vertices_below (nbL wc)) (λ _, True)
                limit_dimension max_alpha_square
                (Z.to_nat limit_dimension) 1 (make_active_witnesses (witnesses_ wc))
                (seed_loop (nbL wc) 0 sc).1) as [Hfinal _]; [done| | |done].
    - intros aw k' sc0 Hk _ Hsc0. split; [|apply Forall_forall; done].
      rewrite add_all_faces_of_dimension_for_loop.
      eapply (for_loop_run_invariant (vertices_below (nbL wc)));
        [|apply for_loop_run_complete|simpl; lia|done].
      intros. by apply insert_simplex_vertices_below.
    - apply seed_loop_vertices_below; [lia|lia|].
      intros K v [x Hx]. rewrite Hempty, lookup_empty in Hx. done. }
  split; [exact Hbelow|].
  unfold num_vertices. apply singletons_of_range.
  - intros j Hj. apply elem_of_dom.
    pose proof (Hvert _ j eq_refl eq_refl Hj) as Hlook. simpl in *.
    rewrite Hlook. done.
  - intros K v HK Hv. apply elem_of_dom in HK. by apply (Hbelow K v).
Qed.

(** ** No relaxation: the nearest landmarks *)

(** With a finite threshold that every remaining candidate exceeds by more
    than the relaxation, the loop stops at once. *)
Lemma for_loop_run_beyond alpha2 dim n l_it simplex sc wba res :
  for_loop_run alpha2 dim (Finite n) l_it simplex sc wba res →
  Forall (λ d, n < d - alpha2) l_it.*2 →
  res = (wba, sc, []).
Proof.
  intros Hrun Hall. inversion Hrun; subst; try done;
    apply Forall_cons_1 in Hall as [Hd _]; simpl in *;
    match goal with H : (_ <=? _) = true |- _ => apply Z.leb_le in H end; lia.
Qed.

Lemma for_loop_run_nearest dim nr l_it simplex sc wba res :
  for_loop_run 0 dim nr l_it simplex sc wba res →
  nr = infinity → 0 <= dim → StronglySorted Z.lt l_it.*2 →
  Forall (inserts_list (simplex ++ take (Z.to_nat dim + 1) l_it.*1)) res.2.
Proof.
  induction 1; intros -> Hdim Hsorted; simpl in *; try done.
  - apply StronglySorted_inv in Hsorted as [Hrest Hhead].
    assert (Forall (λ d, l.2 < d - 0) next_it.*2) as Hbeyond.
    { eapply Forall_impl; [exact Hhead|]. simpl. intros; lia. }
    apply for_loop_run_beyond in H3; [|done]. injection H3 as -> -> ->.
    apply for_loop_run_beyond in H4; [|done]. injection H4 as -> -> ->.
    split_Forall; try done.
    specialize (IHfor_loop_run1 eq_refl ltac:(lia) Hrest).
    rewrite <- (assoc_L (++)) in IHfor_loop_run1. simpl in IHfor_loop_run1.
    replace (Z.to_nat dim + 1)%nat with (S (Z.to_nat (dim - 1) + 1)) by lia.
    done.
  - apply StronglySorted_inv in Hsorted as [Hrest Hhead].
    assert (Forall (λ d, l.2 < d - 0) next_it.*2) as Hbeyond.
    { eapply Forall_impl; [exact Hhead|]. simpl. intros; lia. }
    apply for_loop_run_beyond in H2; [|done]. injection H2 as -> -> ->.
    apply for_loop_run_beyond in H3; [|done]. injection H3 as -> -> ->.
    by split_Forall.
  - apply StronglySorted_inv in Hsorted as [Hrest Hhead].
    assert (Forall (λ d, l.2 < d - 0) next_it.*2) as Hbeyond.
    { eapply Forall_impl; [exact Hhead|]. simpl. intros; lia. }
    apply for_loop_run_beyond in H1; [|done]. injection H1 as -> -> ->.
    split_Forall; try done.
    eapply all_faces_in_trace_no_insert; [eassumption|done].
  - apply StronglySorted_inv in Hsorted as [Hrest Hhead].
    assert (Forall (λ d, l.2 < d - 0) next_it.*2) as Hbeyond.
    { eapply Forall_impl; [exact Hhead|]. simpl. intros; lia. }
    apply for_loop_run_beyond in H1; [|done]. injection H1 as -> -> ->.
    split_Forall; try done.
    eapply all_faces_in_trace_no_insert; [eassumption|done].
Qed.

(** X4.  Without relaxation the simplices are made of nearest landmarks:
    when the squared distances of every ranking are strictly increasing, a
    run of [create_complex] with [max_alpha_square = 0] on a well-formed
    target complex passes to [insert_simplex] at line 229 only initial
    segments of the rankings (the [k + 1] nearest landmarks of a witness),
    each with the filtration value 0. *)
Theorem X4_no_relaxation_nearest_landmarks wc sc limit_dimension :
  well_formed sc →
  (∀ w, w ∈ witnesses_ wc → strictly_ascending w) →
  match create_complex wc sc 0 limit_dimension with
  | Some r => Forall (nearest_landmarks wc) (calls r)
  | None => True
  end.
Proof.
  intros Hwf Hasc.
  destruct (create_complex_cases wc sc 0 limit_dimension)
    as [[Hpre ->]|[(Hpre & Hws & ->)|(Hpre & Hws & ->)]]; simpl; [done..|].
  pose proof (well_formed_preconditions_empty _ _ _ Hwf Hpre) as Hempty.
  split_Forall; [| |done].
  - eapply Forall_impl; [apply seed_loop_seeds_zero|]. by intros e (s & vv & ->).
  - unfold main_loop.
    destruct (dimension_loop_invariant (values_within 0) (nearest_landmarks wc)
                limit_dimension 0
                (Z.to_nat limit_dimension) 1 (make_active_witnesses (witnesses_ wc))
                (seed_loop (nbL wc) 0 sc).1) as [_ Hfinal]; [done| | |done].
    + intros aw k' sc0 Hk Haw Hsc0.
      pose proof (for_loop_run_complete 0 (nearest_landmark_table_ aw) k' infinity
                    [] sc0 false) as Hrun.
      rewrite add_all_faces_of_dimension_for_loop.
      destruct (for_loop_run_within _ _ _ _ _ _ _ _ Hrun ltac:(lia) Hsc0)
        as [Hvalues Hzero].
      split; [done|].
      pose proof (for_loop_run_nearest _ _ _ _ _ _ _ Hrun eq_refl ltac:(lia)
                    (Hasc _ (make_active_witnesses_table _ _ Haw))) as Hnear.
      eapply Forall_impl; [apply Forall_and; split; [exact Hzero|exact Hnear]|].
      intros [] [Hz Hn]; simpl in *; try done. split; [lia|].
      exists (nearest_landmark_table_ aw).
      split; [by apply make_active_witnesses_table|].
      rewrite Hn at 2. rewrite length_take, <- take_take, firstn_all. done.
    + apply (seed_loop_invariant (values_within 0)).
      * intros sc1 i Hsc1. apply insert_simplex_values; [done|lia].
      * intros K fv HK. rewrite Hempty, lookup_empty in HK. done.
Qed.

(** ** Raising the limit on the dimension *)

(** The loop over the dimensions run up to [l1] is an initial part of the
    loop run up to [l2 >= l1]. *)
Lemma dimension_loop_limit alpha2 l1 l2 n1 : ∀ n2 k aws sc,
  l1 <= l2 →
  (Z.to_nat (l2 + 1 - k) ≤ n2)%nat →
  simplices (dimension_loop n1 k l1 alpha2 aws sc).1.2
    ⊆ simplices (dimension_loop n2 k l2 alpha2 aws sc).1.2 ∧
  (dimension_loop n1 k l1 alpha2 aws sc).1.1.1
    <= (dimension_loop n2 k l2 alpha2 aws sc).1.1.1.
Proof.
  induction n1 as [|n1 IH]; intros n2 k aws sc Hl Hn2.
  - simpl. split; [apply dimension_loop_grows|apply dimension_loop_counter_ge].
  - cbn [dimension_loop]. destruct aws as [|aw aws].
    { destruct n2; simpl; done. }
    destruct (k <=? l1) eqn:Hk.
    + apply Z.leb_le in Hk. destruct n2 as [|n2]; [lia|].
      cbn [dimension_loop]. replace (k <=? l2) with true by (symmetry; apply Z.leb_le; lia).
      destruct (witness_loop k alpha2 (aw :: aws) sc) as [[aws' sc'] t].
      specialize (IH n2 (k + 1) aws' sc' Hl ltac:(lia)).
      destruct (dimension_loop n1 (k + 1) l1 alpha2 aws' sc') as [[[k1 aws1] sc1] t1].
      destruct (dimension_loop n2 (k + 1) l2 alpha2 aws' sc') as [[[k2 aws2] sc2] t2].
      done.
    + cbn [fst snd].
      split; [apply dimension_loop_grows|apply dimension_loop_counter_ge].
Qed.

(** X5.  Raising [limit_dimension] only adds to the result: for
    [0 <= l1 <= l2] the runs of [create_complex] with the two limits end
    alike, every simplex built with [l1] is stored with the same filtration
    value in the complex built with [l2], and the declared dimension does
    not decrease. *)
Theorem X5_limit_dimension_monotone wc sc max_alpha_square l1 l2 :
  0 <= l1 → l1 <= l2 →
  match create_complex wc sc max_alpha_square l1,
        create_complex wc sc max_alpha_square l2 with
  | Some r1, Some r2 =>
      returned r1 = returned r2 ∧
      simplices (complex r1) ⊆ simplices (complex r2) ∧
      (returned r1 = true → dimension_ (complex r1) <= dimension_ (complex r2))
  | None, None => True
  | _, _ => False
  end.
Proof.
  intros H1 H2.
  destruct (create_complex_cases wc sc max_alpha_square l1)
    as [[Hpre1 ->]|[(Hpre1 & Hws1 & ->)|(Hpre1 & Hws1 & ->)]];
  destruct (create_complex_cases wc sc max_alpha_square l2)
    as [[Hpre2 ->]|[(Hpre2 & Hws2 & ->)|(Hpre2 & Hws2 & ->)]];
  unfold preconditions in *; simpl; try done; try (exfalso; lia);
    try (exfalso; apply Hpre1; lia); try (exfalso; apply Hpre2; lia).
  unfold main_loop.
  destruct (dimension_loop_limit max_alpha_square l1 l2 (Z.to_nat l1) (Z.to_nat l2) 1
              (make_active_witnesses (witnesses_ wc)) (seed_loop (nbL wc) 0 sc).1
              H2 ltac:(lia)) as [Hsub Hk].
  split; [done|]. split; [done|]. intros _. lia.
Qed.

(** ** Stored values are final *)








(** ** The contract of [all_faces_in] *)

Lemma all_faces_in_loop_split vs sc : ∀ not_its fv,
  ∃ tried rest,
    not_its = tried ++ rest ∧
    Forall (λ i, is_Some (find sc (delete i vs))) tried ∧
    (all_faces_in_loop vs not_its fv sc).1.2
      = foldl Z.max fv (facet_values sc vs tried) ∧
    if (all_faces_in_loop vs not_its fv sc).1.1
    then rest = [] ∧
         (all_faces_in_loop vs not_its fv sc).2 = (λ i, Find (delete i vs)) <$> tried
    else ∃ i rest', rest = i :: rest' ∧ find sc (delete i vs) = None ∧
         (all_faces_in_loop vs not_its fv sc).2
           = (λ i, Find (delete i vs)) <$> (tried ++ [i]).
Proof.
  induction not_its as [|i rest0 IH]; intros fv; simpl.
  - exists [], []. done.
  - destruct (find sc (delete i vs)) as [sh|] eqn:Hfind.
    + destruct (IH (if fv <? filtration sh then filtration sh else fv))
        as (tried & rest & -> & Hall & Hfv & Hres).
      destruct (all_faces_in_loop vs (tried ++ rest) _ sc) as [[b fv1] t1].
      simpl in *. exists (i :: tried), rest. split; [done|].
      split; [constructor; [by rewrite Hfind|done]|]. split.
      * rewrite Hfv. unfold facet_values. simpl. rewrite Hfind. simpl. f_equal.
        destruct (fv <? filtration sh) eqn:E;
          [apply Z.ltb_lt in E|apply Z.ltb_ge in E]; lia.
      * destruct b.
        -- destruct Hres as [-> ->]. done.
        -- destruct Hres as (j & rest' & -> & Hj & ->). eauto 6.
    + exists [], (i :: rest0). simpl. repeat split; eauto.
Qed.

Lemma seq_split n (tried rest : list nat) :
  seq 0 n = tried ++ rest →
  tried = seq 0 (length tried) ∧ (length tried ≤ n)%nat ∧
  (∀ i rest', rest = i :: rest' → i = length tried ∧ (i < n)%nat).
Proof.
  intros Heq.
  assert (length tried + length rest = n)%nat as Hlen
    by (rewrite <- length_app, <- Heq, length_seq; done).
  split; [|split; [lia|]].
  - assert (take (length tried) (seq 0 n) = tried) as Htake
      by (rewrite Heq; apply take_app_length).
    rewrite take_seq in Htake.
    replace (length tried `min` n)%nat with (length tried) in Htake by lia. done.
  - intros i rest' ->.
    assert (seq 0 n !! length tried = Some i) as Hlook
      by (rewrite Heq; apply list_lookup_middle; done).
    apply lookup_seq in Hlook. lia.
Qed.

(** X7.  The contract of [all_faces_in]: it returns [true] exactly when every
    facet of the simplex (one position left out) is found in the complex; it
    looks the facets up in the order of the positions and stops at the first
    one that is missing; the value left in [*filtration_value] is the
    greatest of the value given and of the filtration values of the facets
    found up to there, so it may have been raised also when the result is
    [false]. *)
Theorem X7_all_faces_in_contract vs fv sc :
  let '(b, fv', t) := all_faces_in vs fv sc in
  (b = true ↔ ∀ i, (i < length vs)%nat → present sc (list_to_set (delete i vs))) ∧
  ∃ n, (n ≤ length vs)%nat ∧
       (∀ j, (j < n)%nat → present sc (list_to_set (delete j vs))) ∧
       (if b then n = length vs
        else (n < length vs)%nat ∧ ¬ present sc (list_to_set (delete n vs))) ∧
       fv' = foldl Z.max fv (facet_values sc vs (seq 0 n)) ∧
       fv <= fv' ∧
       t = facets_tried vs (if b then n else S n).
Proof.
  unfold all_faces_in.
  destruct (all_faces_in_loop_split vs sc (seq 0 (length vs)) fv)
    as (tried & rest & Heq & Hall & Hfv & Hres).
  destruct (seq_split _ _ _ Heq) as (Htried & Hle & Hnext).
  destruct (all_faces_in_loop vs (seq 0 (length vs)) fv sc) as [[b fv'] t].
  simpl in *.
  assert (∀ j, (j < length tried)%nat → present sc (list_to_set (delete j vs)))
    as Hfound.
  { intros j Hj. apply find_is_Some. rewrite Forall_forall in Hall. apply Hall.
    rewrite Htried. apply elem_of_seq. lia. }
  assert (fv' = foldl Z.max fv (facet_values sc vs (seq 0 (length tried)))) as Hval
    by (by rewrite <- Htried).
  destruct b.
  - destruct Hres as [-> ->]. rewrite app_nil_r in Heq.
    assert (length tried = length vs) as Hn
      by (rewrite <- Heq, length_seq; done).
    split.
    + split; [|done]. intros _ i Hi. apply Hfound. lia.
    + exists (length tried). split; [lia|]. split; [done|]. split; [done|].
      split; [done|]. split; [rewrite Hval; apply foldl_max_le|].
      unfold facets_tried. by rewrite <- Htried.
  - destruct Hres as (i & rest' & -> & Hnone & ->).
    destruct (Hnext i rest' eq_refl) as [-> Hlt].
    assert (¬ present sc (list_to_set (delete (length tried) vs))) as Hmiss.
    { intros Hp. apply find_is_Some in Hp as [sh Hsh]. congruence. }
    split.
    + split; [done|]. intros Hp. exfalso. apply Hmiss. by apply Hp.
    + exists (length tried). split; [lia|]. split; [done|]. split; [done|].
      split; [done|]. split; [rewrite Hval; apply foldl_max_le|].
      unfold facets_tried. rewrite seq_S. simpl. by rewrite <- Htried.
Qed.

(** ** A relaxation that covers the rankings *)

Lemma tighten_le_allows alpha2 nr l (next_it : list Id_distance_pair) :
  (∀ p, p ∈ l :: next_it → le_double (p.2 - alpha2) nr = true) →
  (∀ p q, p ∈ l :: next_it → q ∈ l :: next_it → p.2 - q.2 <= alpha2) →
  ∀ p, p ∈ next_it → le_double (p.2 - alpha2) (tighten_le l.2 nr) = true.
Proof.
  intros Hnr Hspread p Hp. unfold tighten_le.
  destruct (le_double l.2 nr); [|apply Hnr; by right].
  simpl. apply Z.leb_le.
  specialize (Hspread p l (list_elem_of_further _ _ _ Hp) (list_elem_of_here _ _)). lia.
Qed.

Lemma tighten_lt_allows alpha2 nr l (next_it : list Id_distance_pair) :
  (∀ p, p ∈ l :: next_it → le_double (p.2 - alpha2) nr = true) →
  (∀ p q, p ∈ l :: next_it → q ∈ l :: next_it → p.2 - q.2 <= alpha2) →
  ∀ p, p ∈ next_it → le_double (p.2 - alpha2) (tighten_lt l.2 nr) = true.
Proof.
  intros Hnr Hspread p Hp. unfold tighten_lt.
  destruct (lt_double l.2 nr); [|apply Hnr; by right].
  simpl. apply Z.leb_le.
  specialize (Hspread p l (list_elem_of_further _ _ _ Hp) (list_elem_of_here _ _)). lia.
Qed.

(** When the threshold lets every remaining candidate through and the faces of
    the lower dimensions are stored, the loop stores every simplex made of
    the prefix and [dim + 1] of the remaining candidates. *)
Lemma for_loop_run_saturates alpha2 dim nr l_it simplex sc wba res :
  for_loop_run alpha2 dim nr l_it simplex sc wba res →
  0 <= dim → (1 ≤ length simplex + Z.to_nat dim)%nat →
  (∀ p, p ∈ l_it → le_double (p.2 - alpha2) nr = true) →
  (∀ p q, p ∈ l_it → q ∈ l_it → p.2 - q.2 <= alpha2) →
  (∀ u : list Z, u `sublist_of` simplex ++ l_it.*1 → u ≠ [] →
     (length u ≤ length simplex + Z.to_nat dim)%nat → present sc (list_to_set u)) →
  (∀ u : list Z, u `sublist_of` l_it.*1 → length u = (Z.to_nat dim + 1)%nat →
     present res.1.2 (list_to_set (simplex ++ u))) ∧
  ((Z.to_nat dim + 1 ≤ length l_it)%nat → res.1.1 = true).
Proof.
  induction 1; intros Hdim Hne Hnr Hspread Hfaces; simpl in *.
  - split; [|lia]. intros u Hu Hlen. apply sublist_nil_r in Hu. subst u.
    simpl in Hlen. lia.
  - lia.
  - rewrite (Hnr l (list_elem_of_here _ _)) in H0. done.
  - pose proof (tighten_le_allows _ _ _ _ Hnr Hspread) as Hnr'.
    assert (∀ p q, p ∈ next_it → q ∈ next_it → p.2 - q.2 <= alpha2) as Hspread'.
    { intros p q Hp Hq. apply Hspread; by right. }
    pose proof (for_loop_run_grows _ _ _ _ _ _ _ _ H2) as [Hg1 _].
    pose proof (for_loop_run_grows _ _ _ _ _ _ _ _ H3) as [Hg2 _].
    pose proof (for_loop_run_grows _ _ _ _ _ _ _ _ H4) as [Hg3 _].
    pose proof (for_loop_run_returns _ _ _ _ _ _ _ _ H4) as Hret.
    simpl in *.
    destruct IHfor_loop_run1 as [Hin1 Hok1]; [lia| | |done| |].
    { rewrite length_app. simpl. lia. }
    { intros p Hp. apply Hnr. by right. }
    { intros u Hu Hu' Hlen. apply Hfaces; [|done|].
      - by rewrite <- (assoc_L (++)) in Hu.
      - rewrite length_app in Hlen. simpl in Hlen. lia. }
    destruct IHfor_loop_run2 as [Hin2 _]; [lia|lia|done|done| |].
    { intros u Hu Hu' Hlen. eapply subseteq_present; [exact Hg1|].
      apply Hfaces; [|done|done].
      etrans; [exact Hu|]. apply sublist_app; [done|]. by apply sublist_cons. }
    split.
    + intros u Hu Hlen. apply sublist_cons_r in Hu as [Hu|(u' & -> & Hu)].
      * eapply subseteq_present; [exact Hg3|]. by apply Hin2.
      * eapply subseteq_present; [etrans; [exact Hg2|exact Hg3]|].
        replace (simplex ++ l.1 :: u') with ((simplex ++ [l.1]) ++ u')
          by (by rewrite <- (assoc_L (++))).
        apply Hin1; [done|].
        simpl in Hlen. lia.
    + intros Hlen. rewrite Hret. rewrite Hok1 by lia. by rewrite orb_true_r.
  - exfalso. apply find_None in H1.
    destruct (Hfaces (simplex ++ [l.1])) as [fv Hfv]; [| | |congruence].
    + apply sublist_app; [done|]. apply sublist_skip, sublist_nil_l.
    + by destruct simplex.
    + rewrite length_app. simpl. lia.
  - pose proof (tighten_lt_allows _ _ _ _ Hnr Hspread) as Hnr'.
    assert (∀ p q, p ∈ next_it → q ∈ next_it → p.2 - q.2 <= alpha2) as Hspread'.
    { intros p q Hp Hq. apply Hspread; by right. }
    pose proof (for_loop_run_grows _ _ _ _ _ _ _ _ H1) as [Hg _].
    pose proof (for_loop_run_returns _ _ _ _ _ _ _ _ H1) as Hret.
    simpl in *.
    destruct IHfor_loop_run as [Hin _]; [lia|lia|done|done| |].
    { intros u Hu Hu' Hlen. eapply subseteq_present; [apply insert_simplex_subseteq|].
      apply Hfaces; [|done|done].
      etrans; [exact Hu|]. apply sublist_app; [done|]. by apply sublist_cons. }
    split; [|by rewrite Hret].
    intros u Hu Hlen. apply sublist_cons_r in Hu as [Hu|(u' & -> & Hu)].
    + by apply Hin.
    + destruct u'; [|simpl in Hlen; lia].
      eapply subseteq_present; [exact Hg|]. apply insert_simplex_lookup.
  - exfalso. apply all_faces_in_false in H0 as (i & Hi & Hnone).
    apply find_None in Hnone.
    destruct (Hfaces (delete i (simplex ++ [l.1]))) as [x Hx]; [| | |congruence].
    + etrans; [apply sublist_delete|]. apply sublist_app; [done|].
      apply sublist_skip, sublist_nil_l.
    + intros Hnil. apply (f_equal length) in Hnil.
      rewrite length_delete in Hnil by (by apply lookup_lt_is_Some_2).
      rewrite length_app in Hnil. simpl in Hnil. lia.
    + rewrite length_delete by (by apply lookup_lt_is_Some_2).
      rewrite length_app. simpl. lia.
Qed.

Lemma ranked_faces_mono n w sc sc' :
  simplices sc ⊆ simplices sc' → ranked_faces n w sc → ranked_faces n w sc'.
Proof.
  intros Hsub Hsc u Hu Hne Hlen. eapply subseteq_present; [exact Hsub|]. by apply Hsc.
Qed.

Lemma witness_loop_saturates k alpha2 aws : ∀ sc,
  1 <= k →
  (∀ aw, aw ∈ aws → within_relaxation alpha2 (nearest_landmark_table_ aw)) →
  (∀ aw, aw ∈ aws → ranked_faces k (nearest_landmark_table_ aw) sc) →
  (∀ aw, aw ∈ aws →
     ranked_faces (k + 1) (nearest_landmark_table_ aw)
       (witness_loop k alpha2 aws sc).1.2) ∧
  (∀ aw, aw ∈ aws → k + 1 <= Z.of_nat (length (nearest_landmark_table_ aw)) →
     aw ∈ (witness_loop k alpha2 aws sc).1.1).
Proof.
  induction aws as [|aw rest IH]; intros sc Hk Hspread Hfaces; simpl.
  { split; intros aw Haw; by apply elem_of_nil in Haw. }
  rewrite add_all_faces_of_dimension_for_loop.
  pose proof (for_loop_run_complete alpha2 (nearest_landmark_table_ aw) k infinity []
                sc false) as Hrun.
  pose proof (for_loop_run_grows _ _ _ _ _ _ _ _ Hrun) as [Hg1 _].
  destruct (for_loop_run_saturates _ _ _ _ _ _ _ _ Hrun) as [Hin Hok];
    [lia|simpl; lia|done|apply Hspread; by left| |].
  { intros u Hu Hne Hlen. apply (Hfaces aw); [by left|done|done|].
    simpl in Hlen. lia. }
  destruct (for_loop k alpha2 infinity _ [] sc false) as [[ok sc1] t1].
  pose proof (witness_loop_grows k alpha2 rest sc1) as [Hg2 _].
  destruct (IH sc1 Hk) as [IHfaces IHactive].
  { intros aw' Haw'. apply Hspread. by right. }
  { intros aw' Haw'. eapply ranked_faces_mono; [exact Hg1|]. apply Hfaces. by right. }
  destruct (witness_loop k alpha2 rest sc1) as [[rest' sc2] t2].
  simpl in *. split.
  - intros aw' Haw'. apply elem_of_cons in Haw' as [->|Haw']; [|by apply IHfaces].
    intros u Hu Hne Hlen.
    destruct (decide (Z.of_nat (length u) <= k)) as [Hle|Hgt].
    + eapply subseteq_present; [etrans; [exact Hg1|exact Hg2]|].
      apply (Hfaces aw); [by left|done..].
    + eapply subseteq_present; [exact Hg2|]. apply (Hin u); [done|lia].
  - intros aw' Haw' Hlen. apply elem_of_cons in Haw' as [->|Haw'].
    + rewrite Hok by lia. by left.
    + destruct ok; [right|]; by apply IHactive.
Qed.

Lemma dimension_loop_saturates limit alpha2 (W : list (list Id_distance_pair)) n :
  ∀ k aws sc,
    1 <= k → k <= limit + 1 → (Z.to_nat (limit + 1 - k) ≤ n)%nat →
    (∀ aw, aw ∈ aws → nearest_landmark_table_ aw ∈ W) →
    (∀ w, w ∈ W → within_relaxation alpha2 w) →
    (∀ w, w ∈ W → ranked_faces k w sc) →
    (∀ w, w ∈ W → k <= Z.of_nat (length w) →
       ∃ aw, aw ∈ aws ∧ nearest_landmark_table_ aw = w) →
    ∀ w, w ∈ W →
      ranked_faces (limit + 1) w (dimension_loop n k limit alpha2 aws sc).1.2.
Proof.
  induction n as [|n IH]; intros k aws sc Hk Hkl Hn Htables Hspread Hfaces Hactive w Hw.
  { simpl. replace (limit + 1) with k by lia. by apply Hfaces. }
  cbn [dimension_loop]. destruct aws as [|aw aws].
  { simpl. intros u Hu Hne Hlen. apply (Hfaces w Hw u Hu Hne).
    destruct (decide (k <= Z.of_nat (length w))) as [Hlong|Hshort].
    - destruct (Hactive w Hw Hlong) as (aw & Haw & _). by apply elem_of_nil in Haw.
    - apply sublist_length in Hu. rewrite length_fmap in Hu. lia. }
  destruct (k <=? limit) eqn:Hle.
  - apply Z.leb_le in Hle.
    destruct (witness_loop_saturates k alpha2 (aw :: aws) sc Hk) as [Hpass Hkeep].
    { intros aw' Haw'. by apply Hspread, Htables. }
    { intros aw' Haw'. by apply Hfaces, Htables. }
    pose proof (witness_loop_grows k alpha2 (aw :: aws) sc) as [Hgrow _].
    pose proof (witness_loop_sublist k alpha2 (aw :: aws) sc) as Hsub.
    destruct (witness_loop k alpha2 (aw :: aws) sc) as [[aws' sc'] t].
    simpl in Hpass, Hkeep, Hgrow, Hsub.
    specialize (IH (k + 1) aws' sc').
    destruct (dimension_loop n (k + 1) limit alpha2 aws' sc') as [[[k' aws''] sc''] t'].
    simpl in *. apply IH; [lia|lia|lia| |done| | |done].
    + intros aw' Haw'. apply Htables. eapply elem_of_sublist; eauto.
    + intros w' Hw'.
      destruct (decide (k <= Z.of_nat (length w'))) as [Hlong|Hshort].
      * destruct (Hactive w' Hw' Hlong) as (aw' & Haw' & <-). by apply Hpass.
      * intros u Hu Hne Hlen. eapply subseteq_present; [exact Hgrow|].
        apply (Hfaces w' Hw' u Hu Hne).
        apply sublist_length in Hu. rewrite length_fmap in Hu. lia.
    + intros w' Hw' Hlong.
      destruct (Hactive w' Hw' ltac:(lia)) as (aw' & Haw' & <-).
      exists aw'. split; [|done]. by apply Hkeep.
  - apply Z.leb_gt in Hle. simpl. replace (limit + 1) with k by lia. by apply Hfaces.
Qed.

Lemma make_active_witnesses_all ws w :
  w ∈ ws → ∃ aw, aw ∈ make_active_witnesses ws ∧ nearest_landmark_table_ aw = w.
Proof.
  intros Hw. apply list_elem_of_lookup in Hw as [i Hi].
  exists {| aw_id := i; nearest_landmark_table_ := w |}. split; [|done].
  unfold make_active_witnesses.
  apply (elem_of_lookup_imap_2
           (λ i w, {| aw_id := i; nearest_landmark_table_ := w |}) ws w i Hi).
Qed.

(** X8.  A relaxation that covers the rankings gives every simplex on them:
    when every ranking names landmark ids only and its squared distances
    differ by at most [max_alpha_square], a successful run of
    [create_complex] on a well-formed target complex stores every non-empty
    set of at most [limit_dimension + 1] landmarks ranked by one witness. *)
Theorem X8_relaxation_covering_rankings wc sc max_alpha_square limit_dimension :
  well_formed sc →
  (∀ w, w ∈ witnesses_ wc →
     names_landmarks (nbL wc) w ∧ within_relaxation max_alpha_square w) →
  match create_complex wc sc max_alpha_square limit_dimension with
  | Some r =>
      if returned r then
        ∀ w, w ∈ witnesses_ wc → ranked_faces (limit_dimension + 1) w (complex r)
      else True
  | None => True
  end.
Proof.
  intros Hwf Hws.
  destruct (create_complex_cases wc sc max_alpha_square limit_dimension)
    as [[Hpre ->]|[(Hpre & Hne & ->)|(Hpre & Hne & ->)]]; simpl; [done..|].
  pose proof (well_formed_preconditions_empty _ _ _ Hwf Hpre) as Hempty.
  destruct Hpre as (_ & Ha & Hl).
  cut (∀ w, w ∈ witnesses_ wc →
         ranked_faces (limit_dimension + 1) w
           (main_loop wc sc max_alpha_square limit_dimension).1.2).
  { intros Hall w Hw u Hu Hu' Hlen. exact (Hall w Hw u Hu Hu' Hlen). }
  unfold main_loop.
  apply (dimension_loop_saturates limit_dimension max_alpha_square (witnesses_ wc)
           (Z.to_nat limit_dimension) 1 (make_active_witnesses (witnesses_ wc))
           (seed_loop (nbL wc) 0 sc).1); try done; try lia.
  - intros aw Haw. by apply make_active_witnesses_table.
  - intros w' Hw'. by apply Hws.
  - intros w' Hw' v Hv Hv' Hlenv.
    destruct v as [|x [|y v]]; [done| |simpl in Hlenv; lia].
    assert (x ∈ w'.*1) as Hx.
    { eapply elem_of_sublist; [|exact Hv]. by left. }
    apply list_elem_of_fmap in Hx as (p & -> & Hp).
    destruct (Hws w' Hw') as [Hnames _]. specialize (Hnames p Hp).
    exists 0. replace (list_to_set [p.1]) with ({[p.1]} : gset Z) by set_solver.
    apply seed_loop_vertices; [lia|]. by rewrite Hempty, lookup_empty.
  - intros w' Hw' _. by apply make_active_witnesses_all.
Qed.

(** ** Fewer witnesses *)

(** The complex built by a pass depends on the rankings of the active
    witnesses only, not on their numbering. *)
Lemma witness_loop_tables k alpha2 aws1 : ∀ aws2 sc,
  nearest_landmark_table_ <$> aws1 = nearest_landmark_table_ <$> aws2 →
  (witness_loop k alpha2 aws1 sc).1.2 = (witness_loop k alpha2 aws2 sc).1.2 ∧
  nearest_landmark_table_ <$> (witness_loop k alpha2 aws1 sc).1.1
  = nearest_landmark_table_ <$> (witness_loop k alpha2 aws2 sc).1.1.
Proof.
  induction aws1 as [|aw1 aws1 IH]; intros [|aw2 aws2] sc Heq; simpl in *; try done.
  injection Heq as Haw Heq. rewrite Haw.
  destruct (add_all_faces_of_dimension k alpha2 infinity _ [] sc) as [[ok sc1] t1].
  specialize (IH aws2 sc1 Heq).
  destruct (witness_loop k alpha2 aws1 sc1) as [[r1 s1] u1].
  destruct (witness_loop k alpha2 aws2 sc1) as [[r2 s2] u2].
  simpl in *. destruct IH as [-> Hr]. split; [done|].
  destruct ok; [|done]. rewrite !fmap_cons. by rewrite Haw, Hr.
Qed.

Lemma dimension_loop_tables limit alpha2 n : ∀ k aws1 aws2 sc,
  nearest_landmark_table_ <$> aws1 = nearest_landmark_table_ <$> aws2 →
  (dimension_loop n k limit alpha2 aws1 sc).1.2
  = (dimension_loop n k limit alpha2 aws2 sc).1.2.
Proof.
  induction n as [|n IH]; intros k aws1 aws2 sc Heq; [done|].
  destruct aws1 as [|aw1 aws1], aws2 as [|aw2 aws2]; try done.
  cbn [dimension_loop]. destruct (k <=? limit); [|done].
  destruct (witness_loop_tables k alpha2 (aw1 :: aws1) (aw2 :: aws2) sc Heq)
    as [Hsc Hr].
  destruct (witness_loop k alpha2 (aw1 :: aws1) sc) as [[r1 s1] u1].
  destruct (witness_loop k alpha2 (aw2 :: aws2) sc) as [[r2 s2] u2].
  cbn [fst snd] in *. subst s2. specialize (IH (k + 1) r1 r2 s1 Hr).
  destruct (dimension_loop n (k + 1) limit alpha2 r1 s1) as [[[k1 a1] c1] v1].
  by destruct (dimension_loop n (k + 1) limit alpha2 r2 s1) as [[[k2 a2] c2] v2].
Qed.

Lemma sublist_fmap_inv {A B} (f : A → B) (l1 : list B) (l2 : list A) :
  l1 `sublist_of` f <$> l2 → ∃ l2', l1 = f <$> l2' ∧ l2' `sublist_of` l2.
Proof.
  revert l1. induction l2 as [|x l2 IH]; intros l1 Hsub; simpl in *.
  - apply sublist_nil_r in Hsub as ->. by exists [].
  - apply sublist_cons_r in Hsub as [Hsub|(l1' & -> & Hsub)].
    + destruct (IH _ Hsub) as (l2' & -> & Hl2'). exists l2'.
      split; [done|]. by apply sublist_cons.
    + destruct (IH _ Hsub) as (l2' & -> & Hl2'). exists (x :: l2').
      split; [done|]. by apply sublist_skip.
Qed.

Lemma make_active_witnesses_tables ws :
  nearest_landmark_table_ <$> make_active_witnesses ws = ws.
Proof.
  unfold make_active_witnesses. rewrite fmap_imap.
  rewrite <- (list_fmap_id ws) at 2. rewrite <- (imap_const id ws).
  by apply imap_ext.
Qed.

(** X9.  Leaving witnesses out never adds a simplex: for the same landmarks,
    relaxation and limit, when the witnesses of one run are some of the
    witnesses of another (in the same order), the two runs of
    [create_complex] on the same target complex return the same value and
    every simplex of the complex built from fewer witnesses is a simplex of
    the complex built from more. *)
Theorem X9_fewer_witnesses wc1 wc2 sc max_alpha_square limit_dimension :
  nbL wc1 = nbL wc2 →
  witnesses_ wc1 `sublist_of` witnesses_ wc2 →
  match create_complex wc1 sc max_alpha_square limit_dimension,
        create_complex wc2 sc max_alpha_square limit_dimension with
  | Some r1, Some r2 =>
      returned r1 = returned r2 ∧ contained (complex r1) (complex r2)
  | None, _ => True
  | Some _, None => False
  end.
Proof.
  intros HnbL Hsub.
  destruct (create_complex_cases wc2 sc max_alpha_square limit_dimension)
    as [[Hpre2 ->]|[(Hpre2 & Hws2 & ->)|(Hpre2 & Hws2 & ->)]];
  destruct (create_complex_cases wc1 sc max_alpha_square limit_dimension)
    as [[Hpre1 ->]|[(Hpre1 & Hws1 & ->)|(Hpre1 & Hws1 & ->)]];
  simpl; try done.
  - split; [done|]. apply contained_refl.
  - rewrite Hws2 in Hsub. by apply sublist_nil_r in Hsub.
  - split; [done|]. unfold main_loop. rewrite <- HnbL.
    destruct (sublist_fmap_inv nearest_landmark_table_ (witnesses_ wc1)
                (make_active_witnesses (witnesses_ wc2))) as (aws & Haws & Hsubaws).
    { by rewrite make_active_witnesses_tables. }
    intros K HK. unfold present in *. simpl in *.
    rewrite (dimension_loop_tables limit_dimension max_alpha_square
               (Z.to_nat limit_dimension) 1
               (make_active_witnesses (witnesses_ wc1)) aws) in HK
      by (by rewrite make_active_witnesses_tables).
    eapply (dimension_loop_relax max_alpha_square max_alpha_square); [lia|exact Hsubaws| |exact HK].
    apply contained_refl.
Qed.

(** ** The limit on the dimension cuts a skeleton *)

(** A vertex list that names an id twice has a facet with the same set of
    vertices. *)
Lemma repeated_id_facet (vs : list Z) :
  ¬ NoDup vs →
  ∃ i, (i < length vs)%nat ∧ (list_to_set (delete i vs) : gset Z) = list_to_set vs.
Proof.
  induction vs as [|x vs IH]; intros Hdup.
  - destruct Hdup. constructor.
  - destruct (decide (x ∈ vs)) as [Hin|Hnotin].
    + exists 0%nat. simpl. split; [lia|]. set_solver.
    + destruct IH as (i & Hi & Heq).
      { intros Hnd. apply Hdup. by constructor. }
      exists (S i). simpl. split; [lia|]. by rewrite Heq.
Qed.

Lemma insert_simplex_new sc vs fv K :
  (∀ i, (i < length vs)%nat → present sc (list_to_set (delete i vs))) →
  present (insert_simplex sc vs fv) K →
  present sc K ∨ size K = length vs.
Proof.
  intros Hfacets [x Hx].
  destruct (simplices sc !! (list_to_set vs : gset Z)) as [fv0|] eqn:E.
  { rewrite (insert_simplex_present _ _ _ _ E) in Hx. left. by exists x. }
  rewrite (insert_simplex_fresh _ _ _ E) in Hx.
  destruct (decide ((list_to_set vs : gset Z) = K)) as [<-|Hne].
  - right. destruct (decide (NoDup vs)) as [Hnd|Hdup]; [by apply size_list_to_set|].
    destruct (repeated_id_facet vs Hdup) as (i & Hi & Heq).
    destruct (Hfacets i Hi) as [y Hy]. rewrite Heq in Hy. congruence.
  - rewrite lookup_insert_ne in Hx by done. left. by exists x.
Qed.

Lemma for_loop_run_new alpha2 dim nr l_it simplex sc wba res :
  for_loop_run alpha2 dim nr l_it simplex sc wba res →
  0 <= dim →
  ∀ K, present res.1.2 K →
    present sc K ∨ size K = (length simplex + Z.to_nat dim + 1)%nat.
Proof.
  induction 1; simpl in *; intros Hdim K HK; auto.
  - destruct (IHfor_loop_run3 Hdim K HK) as [HK2|?]; [|by right].
    destruct (IHfor_loop_run2 Hdim K HK2) as [HK1|?]; [|by right].
    destruct (IHfor_loop_run1 ltac:(lia) K HK1) as [?|Hsize]; [by left|right].
    rewrite length_app in Hsize. simpl in Hsize. lia.
  - destruct (IHfor_loop_run2 Hdim K HK) as [HK2|?]; [|by right].
    by apply IHfor_loop_run1.
  - destruct (IHfor_loop_run Hdim K HK) as [HK1|?]; [|by right].
    apply all_faces_in_true in H0 as [_ Hall].
    apply insert_simplex_new in HK1 as [?|Hsize]; [by left| |].
    + right. rewrite length_app in Hsize. simpl in Hsize. lia.
    + intros i Hi. apply find_is_Some. by apply Hall.
Qed.

Lemma witness_loop_new k alpha2 aws : ∀ sc K,
  0 <= k →
  present (witness_loop k alpha2 aws sc).1.2 K →
  present sc K ∨ Z.of_nat (size K) = k + 1.
Proof.
  induction aws as [|aw rest IH]; intros sc K Hk; simpl; [by left|].
  rewrite add_all_faces_of_dimension_for_loop.
  pose proof (for_loop_run_new _ _ _ _ _ _ _ _
                (for_loop_run_complete alpha2 (nearest_landmark_table_ aw) k infinity []
                   sc false) Hk K) as Hnew.
  destruct (for_loop k alpha2 infinity _ [] sc false) as [[ok sc1] t1].
  specialize (IH sc1 K Hk).
  destruct (witness_loop k alpha2 rest sc1) as [[rest' sc2] t2].
  simpl in *. intros HK. destruct (IH HK) as [HK1|?]; [|by right].
  destruct (Hnew HK1) as [?|Hsize]; [by left|right]. lia.
Qed.

Lemma dimension_loop_new limit alpha2 n : ∀ k aws sc K,
  0 <= k →
  present (dimension_loop n k limit alpha2 aws sc).1.2 K →
  present sc K ∨ k + 1 <= Z.of_nat (size K) <= limit + 1.
Proof.
  induction n as [|n IH]; intros k aws sc K Hk; simpl; [by left|].
  destruct aws as [|aw aws]; [by left|].
  destruct (k <=? limit) eqn:Hle; [|by left]. apply Z.leb_le in Hle.
  pose proof (witness_loop_new k alpha2 (aw :: aws) sc K Hk) as Hpass.
  destruct (witness_loop k alpha2 (aw :: aws) sc) as [[aws' sc'] t].
  specialize (IH (k + 1) aws' sc' K ltac:(lia)).
  destruct (dimension_loop n (k + 1) limit alpha2 aws' sc') as [[[k' aws''] sc''] t'].
  simpl in *. intros HK. destruct (IH HK) as [HK1|?]; [|right; lia].
  destruct (Hpass HK1) as [?|?]; [by left|right; lia].
Qed.

Lemma dimension_loop_skeleton alpha2 l1 l2 n1 : ∀ n2 k aws sc K,
  0 <= k → l1 <= l2 →
  (Z.to_nat (l1 + 1 - k) ≤ n1)%nat → (Z.to_nat (l2 + 1 - k) ≤ n2)%nat →
  present (dimension_loop n2 k l2 alpha2 aws sc).1.2 K →
  Z.of_nat (size K) <= l1 + 1 →
  present (dimension_loop n1 k l1 alpha2 aws sc).1.2 K.
Proof.
  induction n1 as [|n1 IH]; intros n2 k aws sc K Hk Hl Hn1 Hn2 HK Hsize.
  - simpl. apply dimension_loop_new in HK as [?|?]; [done|lia|lia].
  - cbn [dimension_loop]. destruct aws as [|aw aws].
    { destruct n2; simpl in *; done. }
    destruct (k <=? l1) eqn:Hle.
    + apply Z.leb_le in Hle. destruct n2 as [|n2]; [lia|].
      cbn [dimension_loop] in HK.
      replace (k <=? l2) with true in HK by (symmetry; apply Z.leb_le; lia).
      destruct (witness_loop k alpha2 (aw :: aws) sc) as [[aws' sc'] t].
      specialize (IH n2 (k + 1) aws' sc' K ltac:(lia) Hl ltac:(lia) ltac:(lia)).
      destruct (dimension_loop n1 (k + 1) l1 alpha2 aws' sc') as [[[k1 aws1] sc1] t1].
      destruct (dimension_loop n2 (k + 1) l2 alpha2 aws' sc') as [[[k2 aws2] sc2] t2].
      simpl in *. by apply IH.
    + apply Z.leb_gt in Hle. simpl.
      apply dimension_loop_new in HK as [?|?]; [done|lia|lia].
Qed.

(** X10.  [limit_dimension] cuts a skeleton: for [0 <= l1 <= l2] and a
    well-formed target complex, the complex built by a successful run of
    [create_complex] with the limit [l1] is made of exactly the simplices
    with at most [l1 + 1] vertices of the complex built with the limit
    [l2]. *)
Theorem X10_limit_dimension_skeleton wc sc max_alpha_square l1 l2 :
  well_formed sc → 0 <= l1 → l1 <= l2 →
  match create_complex wc sc max_alpha_square l1,
        create_complex wc sc max_alpha_square l2 with
  | Some r1, Some r2 =>
      if returned r1 then
        ∀ K : gset Z,
          present (complex r1) K ↔
          present (complex r2) K ∧ Z.of_nat (size K) <= l1 + 1
      else True
  | None, None => True
  | _, _ => False
  end.
Proof.
  intros Hwf H1 H2.
  destruct (create_complex_cases wc sc max_alpha_square l1)
    as [[Hpre1 ->]|[(Hpre1 & Hws1 & ->)|(Hpre1 & Hws1 & ->)]];
  destruct (create_complex_cases wc sc max_alpha_square l2)
    as [[Hpre2 ->]|[(Hpre2 & Hws2 & ->)|(Hpre2 & Hws2 & ->)]];
  unfold preconditions in *; simpl; try done; try (exfalso; lia);
    try (exfalso; apply Hpre1; lia); try (exfalso; apply Hpre2; lia).
  pose proof (well_formed_preconditions_empty _ _ _ Hwf Hpre1) as Hempty.
  assert (bounded_size 1 (seed_loop (nbL wc) 0 sc).1) as Hseed.
  { apply seed_loop_bounded. intros K' [x Hx]. rewrite Hempty, lookup_empty in Hx. done. }
  unfold main_loop, present. simpl. intros K. split.
  - intros HK. split.
    + eapply lookup_weaken_is_Some; [exact HK|].
      apply (dimension_loop_limit max_alpha_square l1 l2 (Z.to_nat l1) (Z.to_nat l2) 1);
        [done|lia].
    + apply dimension_loop_new in HK as [HK|?]; [|lia|lia].
      specialize (Hseed K HK). lia.
  - intros [HK Hsize].
    apply (dimension_loop_skeleton max_alpha_square l1 l2 (Z.to_nat l1) (Z.to_nat l2) 1);
      [lia|done|lia|lia|done|done].
Qed.

(** ** The work of the loop of line 194 *)

(** At a positive dimension every candidate within the bound is followed by
    a call at the same dimension on the candidates after it (line 212) and
    by the rest of the loop over the same candidates: the pushes double. *)
Lemma for_loop_run_pushes alpha2 dim nr l_it simplex sc wba res :
  for_loop_run alpha2 dim nr l_it simplex sc wba res →
  0 < dim →
  (∀ p, p ∈ l_it → le_double (p.2 - alpha2) nr = true) →
  (∀ p q, p ∈ l_it → q ∈ l_it → p.2 - q.2 <= alpha2) →
  2 ^ Z.of_nat (length l_it) - 1 <= Z.of_nat (length (pushed res.2)).
Proof.
  induction 1; intros Hdim Hnr Hspread; simpl in *; try lia.
  - rewrite (Hnr l (list_elem_of_here _ _)) in H0. done.
  - pose proof (tighten_le_allows _ _ _ _ Hnr Hspread) as Hnr'.
    assert (∀ p q, p ∈ next_it → q ∈ next_it → p.2 - q.2 <= alpha2) as Hspread'.
    { intros p q Hp Hq. apply Hspread; by right. }
    specialize (IHfor_loop_run2 Hdim Hnr' Hspread').
    specialize (IHfor_loop_run3 Hdim Hnr' Hspread').
    change (pushed (?e :: ?e' :: ?t)) with (l :: pushed t).
    rewrite !pushed_app. simpl. rewrite !length_app.
    rewrite Nat2Z.inj_succ, Z.pow_succ_r by lia. lia.
  - pose proof (tighten_le_allows _ _ _ _ Hnr Hspread) as Hnr'.
    assert (∀ p q, p ∈ next_it → q ∈ next_it → p.2 - q.2 <= alpha2) as Hspread'.
    { intros p q Hp Hq. apply Hspread; by right. }
    specialize (IHfor_loop_run1 Hdim Hnr' Hspread').
    specialize (IHfor_loop_run2 Hdim Hnr' Hspread').
    change (pushed (?e :: ?e' :: ?t)) with (l :: pushed t).
    rewrite !pushed_app. simpl. rewrite !length_app.
    rewrite Nat2Z.inj_succ, Z.pow_succ_r by lia. lia.
Qed.

Lemma witness_loop_pushes k alpha2 aws : ∀ sc aw,
  0 < k → aw ∈ aws →
  within_relaxation alpha2 (nearest_landmark_table_ aw) →
  2 ^ Z.of_nat (length (nearest_landmark_table_ aw)) - 1
  <= Z.of_nat (length (pushed (witness_loop k alpha2 aws sc).2)).
Proof.
  induction aws as [|aw0 rest IH]; intros sc aw Hk Haw Hspread.
  { by apply elem_of_nil in Haw. }
  simpl. rewrite add_all_faces_of_dimension_for_loop.
  pose proof (for_loop_run_pushes _ _ _ _ _ _ _ _
                (for_loop_run_complete alpha2 (nearest_landmark_table_ aw0) k infinity []
                   sc false) Hk) as Hcall.
  destruct (for_loop k alpha2 infinity _ [] sc false) as [[ok sc1] t1].
  specialize (IH sc1 aw Hk).
  destruct (witness_loop k alpha2 rest sc1) as [[rest' sc2] t2].
  simpl in *. rewrite pushed_app, length_app.
  change (pushed (Witness ?w ?k' ?b :: ?t)) with (pushed t).
  apply elem_of_cons in Haw as [->|Haw].
  - specialize (Hcall ltac:(done) Hspread). lia.
  - specialize (IH Haw Hspread). lia.
Qed.

(** X11.  The pushes double with every candidate within the bound: when
    [limit_dimension >= 1] and the squared distances of the ranking of a
    witness differ by at most [max_alpha_square], a successful run of
    [create_complex] pushes at least [2 ^ n - 1] candidates, [n] being the
    number of landmarks the witness ranks (the call of line 212 and the rest
    of the loop of line 194 go over the same candidates). *)
Theorem X11_pushes_double wc sc max_alpha_square limit_dimension :
  1 <= limit_dimension →
  match create_complex wc sc max_alpha_square limit_dimension with
  | Some r =>
      if returned r then
        ∀ w, w ∈ witnesses_ wc → within_relaxation max_alpha_square w →
          2 ^ Z.of_nat (length w) - 1 <= Z.of_nat (length (pushed (calls r)))
      else True
  | None => True
  end.
Proof.
  intros Hlimit.
  destruct (create_complex_cases wc sc max_alpha_square limit_dimension)
    as [[Hpre ->]|[(Hpre & Hne & ->)|(Hpre & Hne & ->)]]; simpl; [done..|].
  intros w Hw Hspread.
  destruct (make_active_witnesses_all _ _ Hw) as (aw & Haw & <-).
  rewrite !pushed_app, !length_app. unfold main_loop.
  destruct (Z.to_nat limit_dimension) as [|n] eqn:Hn; [lia|].
  cbn [dimension_loop].
  destruct (make_active_witnesses (witnesses_ wc)) as [|aw0 aws] eqn:Haws.
  { by apply elem_of_nil in Haw. }
  replace (1 <=? limit_dimension) with true by (symmetry; apply Z.leb_le; lia).
  pose proof (witness_loop_pushes 1 max_alpha_square (aw0 :: aws)
                (seed_loop (nbL wc) 0 sc).1 aw ltac:(lia) Haw Hspread) as Hpass.
  destruct (witness_loop 1 max_alpha_square (aw0 :: aws) (seed_loop (nbL wc) 0 sc).1)
    as [[aws' sc'] t].
  destruct (dimension_loop n (1 + 1) limit_dimension max_alpha_square aws' sc')
    as [[[k' aws''] sc''] t'].
  simpl in *. rewrite pushed_app, length_app. lia.
Qed.

(** ** The further properties at concrete inputs *)


(** X2 at the two-witness input: three landmarks ranked, no limit below. *)
Lemma X2_witness :
  well_formed empty_complex ∧
  (∀ w, w ∈ witnesses_ demo_wc → (length w ≤ 3)%nat) ∧
  returned <$> create_complex demo_wc empty_complex 8 7 = Some true ∧
  match create_complex demo_wc empty_complex 8 7 with
  | Some r =>
      if returned r then
        dimension_ (complex r) <= Z.max 1 (Z.of_nat 3) ∧
        bounded_size (max 1 3) (complex r)
      else True
  | None => True
  end.
Proof.
  assert (∀ w, w ∈ witnesses_ demo_wc → (length w ≤ 3)%nat) as Hlen.
  { apply Forall_forall. simpl. repeat constructor. }
  split; [exact well_formed_empty_complex|].
  split; [exact Hlen|].
  split; [vm_compute; reflexivity|].
  apply (X2_ranking_length_bound demo_wc empty_complex 8 7 3
           well_formed_empty_complex Hlen).
Defined.

(** X3 at a ranking that names the id 7, which is no landmark. *)
Lemma X3_witness :
  well_formed empty_complex ∧
  returned <$> create_complex {| nbL := 2; witnesses_ := [[(0, 1); (7, 2); (1, 3)]] |}
                 empty_complex 5 3 = Some true ∧
  match create_complex {| nbL := 2; witnesses_ := [[(0, 1); (7, 2); (1, 3)]] |}
          empty_complex 5 3 with
  | Some r =>
      if returned r then
        vertices_below 2 (complex r) ∧ num_vertices (complex r) = 2%nat
      else True
  | None => True
  end.
Proof.
  split; [exact well_formed_empty_complex|].
  split; [vm_compute; reflexivity|].
  apply (X3_vertices_are_landmarks
           {| nbL := 2; witnesses_ := [[(0, 1); (7, 2); (1, 3)]] |} empty_complex 5 3
           well_formed_empty_complex).
Defined.

(** X4 at the two-witness input, whose distances are strictly increasing. *)
Lemma X4_witness :
  well_formed empty_complex ∧
  (∀ w, w ∈ witnesses_ demo_wc → strictly_ascending w) ∧
  returned <$> create_complex demo_wc empty_complex 0 3 = Some true ∧
  match create_complex demo_wc empty_complex 0 3 with
  | Some r => Forall (nearest_landmarks demo_wc) (calls r)
  | None => True
  end.
Proof.
  assert (∀ w, w ∈ witnesses_ demo_wc → strictly_ascending w) as Hasc.
  { apply Forall_forall. unfold strictly_ascending. simpl.
    repeat (constructor; try lia). }
  split; [exact well_formed_empty_complex|].
  split; [exact Hasc|].
  split; [vm_compute; reflexivity|].
  apply (X4_no_relaxation_nearest_landmarks demo_wc empty_complex 3
           well_formed_empty_complex Hasc).
Defined.

(** X5 at the two-witness input, limits 1 and 3. *)
Lemma X5_witness :
  0 <= 1 ∧ 1 <= 3 ∧
  match create_complex demo_wc empty_complex 8 1,
        create_complex demo_wc empty_complex 8 3 with
  | Some r1, Some r2 =>
      returned r1 = returned r2 ∧
      simplices (complex r1) ⊆ simplices (complex r2) ∧
      (returned r1 = true → dimension_ (complex r1) <= dimension_ (complex r2))
  | None, None => True
  | _, _ => False
  end.
Proof.
  split; [lia|]. split; [lia|].
  apply (X5_limit_dimension_monotone demo_wc empty_complex 8 1 3); lia.
Defined.

(** X8 at the two-witness input: the distances of a ranking differ by at
    most 9. *)
Lemma X8_witness :
  well_formed empty_complex ∧
  (∀ w, w ∈ witnesses_ demo_wc →
     names_landmarks (nbL demo_wc) w ∧ within_relaxation 9 w) ∧
  returned <$> create_complex demo_wc empty_complex 9 3 = Some true ∧
  match create_complex demo_wc empty_complex 9 3 with
  | Some r =>
      if returned r then
        ∀ w, w ∈ witnesses_ demo_wc → ranked_faces (3 + 1) w (complex r)
      else True
  | None => True
  end.
Proof.
  assert (∀ w, w ∈ witnesses_ demo_wc →
            names_landmarks (nbL demo_wc) w ∧ within_relaxation 9 w) as Hws.
  { apply Forall_forall. unfold names_landmarks, within_relaxation. simpl.
    repeat apply Forall_cons_2; [..|apply Forall_nil_2];
      (split;
       [apply Forall_forall; repeat constructor; simpl; lia
       |intros p q Hp Hq; revert q Hq; apply Forall_forall;
        revert p Hp; apply Forall_forall; repeat constructor; simpl; lia]). }
  split; [exact well_formed_empty_complex|].
  split; [exact Hws|].
  split; [vm_compute; reflexivity|].
  apply (X8_relaxation_covering_rankings demo_wc empty_complex 9 3
           well_formed_empty_complex Hws).
Defined.

(** X9 at the two-witness input and its first witness alone. *)
Lemma X9_witness :
  nbL {| nbL := 3; witnesses_ := [[(0, 1); (1, 2); (2, 10)]] |} = nbL demo_wc ∧
  witnesses_ {| nbL := 3; witnesses_ := [[(0, 1); (1, 2); (2, 10)]] |}
    `sublist_of` witnesses_ demo_wc ∧
  match create_complex {| nbL := 3; witnesses_ := [[(0, 1); (1, 2); (2, 10)]] |}
          empty_complex 8 3,
        create_complex demo_wc empty_complex 8 3 with
  | Some r1, Some r2 =>
      returned r1 = returned r2 ∧ contained (complex r1) (complex r2)
  | None, _ => True
  | Some _, None => False
  end.
Proof.
  assert (witnesses_ {| nbL := 3; witnesses_ := [[(0, 1); (1, 2); (2, 10)]] |}
            `sublist_of` witnesses_ demo_wc) as Hsub.
  { simpl. apply sublist_skip, sublist_nil_l. }
  split; [reflexivity|]. split; [exact Hsub|].
  apply (X9_fewer_witnesses
           {| nbL := 3; witnesses_ := [[(0, 1); (1, 2); (2, 10)]] |} demo_wc
           empty_complex 8 3 eq_refl Hsub).
Defined.

(** X10 at the two-witness input, limits 1 and 3. *)
Lemma X10_witness :
  well_formed empty_complex ∧ 0 <= 1 ∧ 1 <= 3 ∧
  returned <$> create_complex demo_wc empty_complex 8 1 = Some true ∧
  match create_complex demo_wc empty_complex 8 1,
        create_complex demo_wc empty_complex 8 3 with
  | Some r1, Some r2 =>
      if returned r1 then
        ∀ K : gset Z,
          present (complex r1) K ↔
          present (complex r2) K ∧ Z.of_nat (size K) <= 1 + 1
      else True
  | None, None => True
  | _, _ => False
  end.
Proof.
  split; [exact well_formed_empty_complex|]. split; [lia|]. split; [lia|].
  split; [vm_compute; reflexivity|].
  apply (X10_limit_dimension_skeleton demo_wc empty_complex 8 1 3
           well_formed_empty_complex); lia.
Defined.

(** X11 at the two-witness input: a ranking of three landmarks within the
    relaxation 9. *)
Lemma X11_witness :
  1 <= 3 ∧
  returned <$> create_complex demo_wc empty_complex 9 3 = Some true ∧
  match create_complex demo_wc empty_complex 9 3 with
  | Some r =>
      if returned r then
        ∀ w, w ∈ witnesses_ demo_wc → within_relaxation 9 w →
          2 ^ Z.of_nat (length w) - 1 <= Z.of_nat (length (pushed (calls r)))
      else True
  | None => True
  end.
Proof.
  split; [lia|]. split; [vm_compute; reflexivity|].
  apply (X11_pushes_double demo_wc empty_complex 9 3). lia.
Defined.
